(** * pathvector: configuration loading (internal/config/config.go)

    A shallow embedding of [categorizeCommunity] and [Load], and the
    properties of the policy resolution they implement. *)

From Stdlib Require Import ZArith Lia Ascii.
From stdpp Require Import base option list gmap strings.

Local Open Scope Z_scope.

(** ** Go standard library: strings and strconv

    A Go string is a sequence of bytes; it is modelled by [string], whose
    characters are bytes. *)

Module strings.

(** [strings.Split(s, sep)] for a separator of one byte, which is what both
    call sites of the package pass ("," and ":").  The result always has
    one element more than [s] has separators; in particular splitting the
    empty string gives one empty component. *)
Fixpoint Split (s : string) (sep : ascii) : list string :=
  match s with
  | EmptyString => [EmptyString]
  | String c s' =>
      if Ascii.eqb c sep then EmptyString :: Split s' sep
      else match Split s' sep with
           | x :: xs => String c x :: xs
           | [] => [String c EmptyString]
           end
  end.

(** [strings.ReplaceAll(s, old, new)] for one-byte [old] and [new]. *)
Fixpoint ReplaceAll (s : string) (old new : ascii) : string :=
  match s with
  | EmptyString => EmptyString
  | String c s' =>
      String (if Ascii.eqb c old then new else c) (ReplaceAll s' old new)
  end.

(** [strings.Join(parts, sep)] for a one-byte separator; used to state what
    [Split] computes. *)
Fixpoint Join (parts : list string) (sep : ascii) : string :=
  match parts with
  | [] => EmptyString
  | [x] => x
  | x :: rest => x +:+ String sep (Join rest sep)
  end.

(** Does the byte occur in the string? *)
Fixpoint contains (s : string) (c : ascii) : bool :=
  match s with
  | EmptyString => false
  | String d s' => Ascii.eqb d c || contains s' c
  end.

End strings.

Module strconv.

Definition digit (c : ascii) : option Z :=
  let n := Z.of_N (N_of_ascii c) in
  if (48 <=? n) && (n <=? 57) then Some (n - 48) else None.

(** The digit loop of [ParseUint] in base 10, without the overflow check
    (the range is checked once, on the signed result). *)
Fixpoint digits (s : string) (acc : Z) : option Z :=
  match s with
  | EmptyString => Some acc
  | String c s' =>
      match digit c with
      | Some d => digits s' (acc * 10 + d)
      | None => None
      end
  end.

Definition minInt : Z := - 2 ^ 63.
Definition maxInt : Z := 2 ^ 63 - 1.

(** [strconv.Atoi] on a platform whose [int] has 64 bits (the comparison
    with 4294967295 in [categorizeCommunity] only compiles there): an
    optional sign, then at least one decimal digit, and a value that fits
    [int].  [None] stands for a non-nil error. *)
Definition Atoi (s : string) : option Z :=
  match s with
  | EmptyString => None
  | String c rest =>
      let neg := Ascii.eqb c "-" in
      let body := if neg || Ascii.eqb c "+" then rest else s in
      match body with
      | EmptyString => None
      | _ =>
          match digits body 0 with
          | Some n =>
              let v := if neg then - n else n in
              if (minInt <=? v) && (v <=? maxInt) then Some v else None
          | None => None
          end
      end
  end.

(** [strconv.ParseBool]. *)
Definition ParseBool (s : string) : option bool :=
  if bool_decide (s ∈ ["1"; "t"; "T"; "TRUE"; "true"; "True"]) then Some true
  else if bool_decide (s ∈ ["0"; "f"; "F"; "FALSE"; "false"; "False"])
       then Some false
  else None.

End strconv.

(** ** The community classifier *)

(** [categorizeCommunity] checks if the community is in standard or large
    form; it returns the empty string if the community is invalid. *)
Definition categorizeCommunity (input : string) : string :=
  (* Test if it fits the criteria for a standard community *)
  let standardSplit := strings.Split input "," in
  if bool_decide (length standardSplit = 2%nat) then
    match strconv.Atoi (nth 0 standardSplit "") with
    | None => ""
    | Some firstPart =>
        match strconv.Atoi (nth 1 standardSplit "") with
        | None => ""
        | Some secondPart =>
            if (firstPart <? 0) || (firstPart >? 65535) then ""
            else if (secondPart <? 0) || (secondPart >? 65535) then ""
            else "standard"
        end
    end
  else
    (* Test if it fits the criteria for a large community *)
    let largeSplit := strings.Split input ":" in
    if bool_decide (length largeSplit = 3%nat) then
      match strconv.Atoi (nth 0 largeSplit "") with
      | None => ""
      | Some firstPart =>
          match strconv.Atoi (nth 1 largeSplit "") with
          | None => ""
          | Some secondPart =>
              match strconv.Atoi (nth 2 largeSplit "") with
              | None => ""
              | Some thirdPart =>
                  if (firstPart <? 0) || (firstPart >? 4294967295) then ""
                  else if (secondPart <? 0) || (secondPart >? 4294967295)
                       then ""
                  else if (thirdPart <? 0) || (thirdPart >? 4294967295)
                       then ""
                  else "large"
              end
          end
      end
    else "".


(** ** Go standard library: net *)

Module net.

(** [net.IP] is a slice of bytes. *)
Abbreviation IP := (list Z).

(** [IP.To4]: the 4-byte form of an address, [None] (nil) when it has
    none.  A 16-byte address has one when it is IPv4-mapped. *)
Definition To4 (ip : IP) : option IP :=
  if decide (length ip = 4%nat) then Some ip
  else if decide (length ip = 16%nat ∧ take 10 ip = replicate 10 0 ∧
                  ip !! 10%nat = Some 255 ∧ ip !! 11%nat = Some 255)
       then Some (drop 12 ip)
  else None.

End net.

(** ** Go standard library: reflect

    [Load] walks the fields of [Peer] by reflection.  A struct type is the
    list of its fields in declaration order ([Type.NumField],
    [Type.Field(i)]); a field carries its name, the kind of the type its
    pointer type points to ([Type.Elem().Kind()]) and the two struct tags
    [Load] reads. *)

Module reflect.

Inductive Kind := String | Int | Uint | Bool | Slice | Map | Struct.

#[global] Instance Kind_eq_dec : EqDecision Kind.
Proof. solve_decision. Defined.

(** [Kind.String]. *)
Definition Kind_String (k : Kind) : string :=
  match k with
  | String => "string" | Int => "int" | Uint => "uint" | Bool => "bool"
  | Slice => "slice" | Map => "map" | Struct => "struct"
  end.

Record StructField := field {
  Name : string;
  Elem_Kind : Kind;
  Tag_yaml : string;      (* Tag.Get("yaml") *)
  Tag_default : string;   (* Tag.Get("default"); empty when the tag is missing *)
}.

#[global] Instance StructField_eq_dec : EqDecision StructField.
Proof. solve_decision. Defined.

End reflect.

Abbreviation StructField := reflect.StructField.
Abbreviation field := reflect.field.
Abbreviation Name := reflect.Name.
Abbreviation Elem_Kind := reflect.Elem_Kind.
Abbreviation Tag_yaml := reflect.Tag_yaml.
Abbreviation Tag_default := reflect.Tag_default.

(** ** Data model *)

(** The fields of [type Peer struct], in order, with their tags. *)
Definition Peer_type : list StructField := [
    field "Template" reflect.String "template" "-";
    field "Description" reflect.String "description" "-";
    field "Disabled" reflect.Bool "disabled" "false";
    field "ASN" reflect.Int "asn" "0";
    field "NeighborIPs" reflect.Slice "neighbors" "-";
    field "Prepends" reflect.Int "prepends" "0";
    field "LocalPref" reflect.Int "local-pref" "100";
    field "Multihop" reflect.Bool "multihop" "false";
    field "Listen4" reflect.String "listen4" "-";
    field "Listen6" reflect.String "listen6" "-";
    field "LocalASN" reflect.Int "local-asn" "-";
    field "LocalPort" reflect.Int "local-port" "179";
    field "NeighborPort" reflect.Int "neighbor-port" "179";
    field "Passive" reflect.Bool "passive" "false";
    field "Direct" reflect.Bool "direct" "false";
    field "NextHopSelf" reflect.Bool "next-hop-self" "false";
    field "BFD" reflect.Bool "bfd" "false";
    field "Password" reflect.String "password" "-";
    field "RSClient" reflect.Bool "rs-client" "false";
    field "RRClient" reflect.Bool "rr-client" "false";
    field "RemovePrivateASNs" reflect.Bool "remove-private-asns" "true";
    field "MPUnicast46" reflect.Bool "mp-unicast-46" "false";
    field "AllowLocalAS" reflect.Bool "allow-local-as" "false";
    field "AddPathTx" reflect.Bool "add-path-tx" "false";
    field "AddPathRx" reflect.Bool "add-path-rx" "false";
    field "ImportNextHop" reflect.String "import-next-hop" "-";
    field "ExportNextHop" reflect.String "export-next-hop" "-";
    field "Confederation" reflect.Int "confederation" "-";
    field "ConfederationMember" reflect.Bool "confederation-member" "false";
    field "TTLSecurity" reflect.Bool "ttl-security" "false";
    field "ImportCommunities" reflect.Slice "import-communities" "-";
    field "ExportCommunities" reflect.Slice "export-communities" "-";
    field "AnnounceCommunities" reflect.Slice "announce-communities" "-";
    field "RemoveCommunities" reflect.Slice "remove-communities" "-";
    field "RemoveAllCommunities" reflect.Int "remove-all-communities" "-";
    field "ASPrefs" reflect.Map "as-prefs" "-";
    field "ASSet" reflect.String "as-set" "-";
    field "ImportLimit4" reflect.Int "import-limit4" "1000000";
    field "ImportLimit6" reflect.Int "import-limit6" "200000";
    field "EnforceFirstAS" reflect.Bool "enforce-first-as" "true";
    field "EnforcePeerNexthop" reflect.Bool "enforce-peer-nexthop" "true";
    field "ForcePeerNexthop" reflect.Bool "force-peer-nexthop" "false";
    field "MaxPrefixTripAction" reflect.String "max-prefix-action" "disable";
    field "AllowBlackholeCommunity" reflect.Bool "allow-blackhole-community" "false";
    field "FilterIRR" reflect.Bool "filter-irr" "false";
    field "FilterRPKI" reflect.Bool "filter-rpki" "true";
    field "FilterMaxPrefix" reflect.Bool "filter-max-prefix" "true";
    field "FilterBogonRoutes" reflect.Bool "filter-bogon-routes" "true";
    field "FilterBogonASNs" reflect.Bool "filter-bogon-asns" "true";
    field "FilterTransitASNs" reflect.Bool "filter-transit-asns" "false";
    field "FilterPrefixLength" reflect.Bool "filter-prefix-length" "true";
    field "FilterNeverViaRouteServers" reflect.Bool "filter-never-via-route-servers" "false";
    field "AutoImportLimits" reflect.Bool "auto-import-limits" "false";
    field "AutoASSet" reflect.Bool "auto-as-set" "false";
    field "HonorGracefulShutdown" reflect.Bool "honor-graceful-shutdown" "true";
    field "Prefixes" reflect.Slice "prefixes" "-";
    field "AnnounceDefault" reflect.Bool "announce-default" "false";
    field "AnnounceOriginated" reflect.Bool "announce-originated" "true";
    field "SessionGlobal" reflect.String "session-global" "-";
    field "PreImport" reflect.String "pre-import" "-";
    field "PreExport" reflect.String "pre-export" "-";
    field "PreImportFinal" reflect.String "pre-import-final" "-";
    field "PreExportFinal" reflect.String "pre-export-final" "-";
    field "OptimizerProbeSources" reflect.Slice "probe-sources" "-";
    field "OptimizeInbound" reflect.Bool "optimize-inbound" "false";
    field "ProtocolName" reflect.String "-" "-";
    field "Protocols" reflect.Slice "-" "-";
    field "PrefixSet4" reflect.Slice "-" "-";
    field "PrefixSet6" reflect.Slice "-" "-";
    field "ImportStandardCommunities" reflect.Slice "-" "-";
    field "ImportLargeCommunities" reflect.Slice "-" "-";
    field "ExportStandardCommunities" reflect.Slice "-" "-";
    field "ExportLargeCommunities" reflect.Slice "-" "-";
    field "AnnounceStandardCommunities" reflect.Slice "-" "-";
    field "AnnounceLargeCommunities" reflect.Slice "-" "-";
    field "RemoveStandardCommunities" reflect.Slice "-" "-";
    field "RemoveLargeCommunities" reflect.Slice "-" "-";
    field "BooleanOptions" reflect.Slice "-" "-"
].

(** Every field of [Peer] is a pointer: nil when the option is unset.  The
    values the pointers point to live in a store of cells; a pointer is the
    index of its cell. *)
Inductive value :=
| VString (s : string)
| VInt (n : Z)
| VBool (b : bool)
| VSlice (l : list string)
| VMap (m : list (Z * Z)).

Definition kind_of (v : value) : reflect.Kind :=
  match v with
  | VString _ => reflect.String
  | VInt _ => reflect.Int
  | VBool _ => reflect.Bool
  | VSlice _ => reflect.Slice
  | VMap _ => reflect.Map
  end.

Abbreviation loc := nat.
Abbreviation heap := (list value).

(** A [Peer] struct value: field name to pointer; a field that is absent
    from the map is nil. *)
Abbreviation Peer := (gmap string loc).

(** [VRRPInstance] and [BFDInstance], with the fields [Load] reads or
    writes. *)
Record VRRPInstance := {
  State : string;
  VIPs : list string;
  VIPs4 : list string;
  VIPs6 : list string;
}.

Record BFDInstance := {
  Neighbor : option string;
  BFD_ProtocolName : option string;
}.

(** What the YAML document holds: the options a document can set (those
    whose yaml tag is not "-"), after [defaults.Set] and before any
    resolution.  A peer or a template is the mapping of its yaml keys to
    values.  Go maps are listed in the order in which [range] visits
    them.  No entry of a map is null here; [Raw.Document] below is the
    document with null entries, and [Load_raw] is [Load] on it. *)
Module Doc.
Record Document := {
  Hostname : string;
  Prefixes : list string;
  RTRServer : string;
  Peers : list (string * gmap string value);
  Templates : list (string * gmap string value);
  VRRPInstances : list (string * VRRPInstance);
  BFDInstances : list (string * BFDInstance);
  SRDCommunities : list string;
  Statics : list (string * string);
}.
End Doc.

(** [configBlob], as the YAML parser reads it: not YAML at all, or a
    document. *)
Inductive Blob :=
| Malformed (err : string)
| Parsed (d : Doc.Document).

Record Augments := {
  SRDCommunities : list string;
  Statics : list (string * string);
  SRDStandardCommunities : list string;
  SRDLargeCommunities : list string;
  Statics4 : gmap string string;
  Statics6 : gmap string string;
}.

(** [Config], with the fields [Load] reads or writes. *)
Record Config := {
  Hostname : string;
  Prefixes : list string;
  RTRServer : string;
  Peers : list (string * Peer);
  Templates : list (string * Peer);
  VRRPInstances : list (string * VRRPInstance);
  BFDInstances : list (string * BFDInstance);
  Augments_ : Augments;
  RTRServerHost : string;
  RTRServerPort : Z;
  Prefixes4 : list string;
  Prefixes6 : list string;
  QueryNVRS : bool;
}.

(** What [Load] calls and this package does not define. *)
Record Runtime := {
  ParseCIDR : string → option net.IP;     (* net.ParseCIDR: the address; None for an error *)
  ParseIP : string → option net.IP;       (* net.ParseIP: None for nil *)
  Sanitize : string → string;             (* util.Sanitize *)
  os_Hostname : string + string;          (* os.Hostname: the name, or an error *)
  validate_Struct : Doc.Document → option string;  (* validator: None for no error *)
}.

(** ** Control flow and the store

    A computation runs on the store and ends in one of four ways: it goes
    on with a value, the enclosing function returns [r] early, [log.Fatalf]
    ends the process, or the run-time system panics. *)

Inductive result (R A : Type) :=
| Ok (a : A)
| Return (r : R)
| Fatal (msg : string)
| Panic (msg : string).
Arguments Ok {R A} a.
Arguments Return {R A} r.
Arguments Fatal {R A} msg.
Arguments Panic {R A} msg.

Definition M (R A : Type) : Type := heap → result R (A * heap).

Definition ret {R A} (a : A) : M R A := λ h, Ok (a, h).

Definition bind {R A B} (m : M R A) (k : A → M R B) : M R B :=
  λ h, match m h with
       | Ok (a, h') => k a h'
       | Return r => Return r
       | Fatal msg => Fatal msg
       | Panic msg => Panic msg
       end.

Notation "'let*' x ':=' m 'in' k" := (bind m (λ x, k))
  (at level 10, x pattern, m at level 100, k at level 200).

Definition return_ {R A} (r : R) : M R A := λ _, Return r.
Definition fatal {R A} (msg : string) : M R A := λ _, Fatal msg.
Definition panic {R A} (msg : string) : M R A := λ _, Panic msg.

Definition nil_dereference : string :=
  "invalid memory address or nil pointer dereference".

(** [&v]: a new cell. *)
Definition new {R} (v : value) : M R loc := λ h, Ok (length h, h ++ [v]).

(** [*l] *)
Definition load {R} (l : loc) : M R value :=
  λ h, match h !! l with
       | Some v => Ok (v, h)
       | None => Panic nil_dereference
       end.

(** [*l = v] *)
Definition store {R} (l : loc) (v : value) : M R unit :=
  λ h, if decide (l < length h)%nat then Ok (tt, <[l := v]> h)
       else Panic nil_dereference.

(** Reading a cell at the type the field has in Go.  Go's types make the
    other cases impossible; the model stops there as for a bad pointer. *)
Definition load_string {R} (l : loc) : M R string :=
  let* v := load l in
  match v with VString s => ret s | _ => panic nil_dereference end.

Definition load_bool {R} (l : loc) : M R bool :=
  let* v := load l in
  match v with VBool b => ret b | _ => panic nil_dereference end.

Definition load_slice {R} (l : loc) : M R (list string) :=
  let* v := load l in
  match v with VSlice x => ret x | _ => panic nil_dereference end.

(** [for _, x := range l { f(x) }] *)
Fixpoint iterM {R A} (f : A → M R unit) (l : list A) : M R unit :=
  match l with
  | [] => ret tt
  | x :: rest => let* _ := f x in iterM f rest
  end.

(** A loop that updates every entry of a map of structs in turn. *)
Fixpoint forM {R A B} (f : A → M R B) (l : list A) : M R (list B) :=
  match l with
  | [] => ret []
  | x :: rest =>
      let* y := f x in
      let* ys := forM f rest in
      ret (y :: ys)
  end.

(** A loop over the fields of a struct type that updates the struct. *)
Fixpoint foldM {R A S} (f : S → A → M R S) (l : list A) (s : S) : M R S :=
  match l with
  | [] => ret s
  | x :: rest => let* s' := f s x in foldM f rest s'
  end.

(** ** yaml.UnmarshalStrict on a peer or a template

    The decoder fills the fields of a fresh [Peer] from the mapping: a key
    selects the field whose yaml tag it is (a field tagged "-" is never
    selected), the value gets a new cell.  In strict mode a key that
    selects no field is an error, and so is a value of another type than
    the field's. *)

Definition lookup_yaml (t : list StructField) (key : string)
  : option StructField :=
  find (λ sf, bool_decide (Tag_yaml sf = key ∧ key ≠ "-")) t.

Definition key_ok (t : list StructField) (kv : string * value) : bool :=
  match lookup_yaml t kv.1 with
  | Some sf => bool_decide (kind_of kv.2 = Elem_Kind sf)
  | None => false
  end.

Definition decode_field (d : gmap string value) (p : Peer) (sf : StructField)
  : M string Peer :=
  if decide (Tag_yaml sf = "-") then ret p
  else match d !! Tag_yaml sf with
       | Some v => let* l := new v in ret (<[Name sf := l]> p)
       | None => ret p
       end.

Definition Unmarshal_Peer (t : list StructField) (nd : string * gmap string value)
  : M string (string * Peer) :=
  match find (λ kv, negb (key_ok t kv)) (map_to_list nd.2) with
  | Some kv => return_ ("cannot unmarshal " +:+ kv.1 +:+ " into config.Peer")
  | None => let* p := foldM (decode_field nd.2) t ∅ in ret (nd.1, p)
  end.

Definition Unmarshal (t : list StructField) (d : Doc.Document)
  : M string (list (string * Peer) * list (string * Peer)) :=
  let* peers := forM (Unmarshal_Peer t) (Doc.Peers d) in
  let* templates := forM (Unmarshal_Peer t) (Doc.Templates d) in
  ret (peers, templates).

(** ** Load *)

(** What [Load] returns: a pointer to a [Config] and an error.  The
    configuration comes with
    the store its pointers point into. *)
Abbreviation LoadResult := (option (Config * heap) * option string)%type.

Section Load.

Context (rt : Runtime).
(** [reflect.TypeOf(Peer{})] *)
Context (t : list StructField).

(** Check for invalid templates *)
Definition check_template (nt : string * Peer) : M LoadResult unit :=
  let '(templateName, templateData) := nt in
  match templateData !! "Template" with
  | None => ret tt
  | Some l =>
      let* s := load_string l in
      if decide (s ≠ "") then
        fatal ("Templates must not have a template field set, but "
               +:+ templateName +:+ " does")
      else ret tt
  end.

(** One round of the loop that assigns values from the template: field
    [sf] of the template is copied to the peer (the pointer, not the
    value) when the template has it and the peer has not. *)
Definition merge_field (template peer : Peer) (sf : StructField) : Peer :=
  let fieldName := Name sf in
  if decide (fieldName ≠ "Template") then (* Ignore the template field *)
    match template !! fieldName, peer !! fieldName with
    | Some tValue, None => <[fieldName := tValue]> peer
    | _, _ => peer
    end
  else peer.

(** Assign values from template *)
Definition assign_template (templates : list (string * Peer))
    (peerData : Peer) : M LoadResult Peer :=
  match peerData !! "Template" with
  | None => ret peerData
  | Some l =>
      let* name := load_string l in
      if decide (name ≠ "") then
        match list_to_map (M := gmap string Peer) templates !! name with
        | None => fatal ("Template " +:+ name +:+ " not found")
        | Some template => ret (fold_left (merge_field template) t peerData)
        end
      else ret peerData
  end.

(** One round of the loop that sets default values. *)
Definition set_default (peerData : Peer) (sf : StructField)
  : M LoadResult Peer :=
  let fieldName := Name sf in
  let defaultString := Tag_default sf in
  if decide (defaultString = "") then
    fatal ("Code error: field " +:+ fieldName +:+ " has no default value")
  else if decide (defaultString ≠ "-") then
    match peerData !! fieldName with
    | None => (* fieldValue.IsNil() *)
        match Elem_Kind sf with
        | reflect.String =>
            let* l := new (VString defaultString) in
            ret (<[fieldName := l]> peerData)
        | reflect.Int =>
            match strconv.Atoi defaultString with
            | None => fatal ("Can't convert '" +:+ defaultString +:+ "' to uint")
            | Some defaultValueInt =>
                let* l := new (VInt defaultValueInt) in
                ret (<[fieldName := l]> peerData)
            end
        | reflect.Bool =>
            match strconv.ParseBool defaultString with
            | None => fatal ("Can't parse bool " +:+ defaultString)
            | Some defaultBool =>
                let* l := new (VBool defaultBool) in
                ret (<[fieldName := l]> peerData)
            end
        | reflect.Struct | reflect.Slice =>
            (* Ignore structs and slices *)
            ret peerData
        | k =>
            fatal ("Unknown kind " +:+ reflect.Kind_String k +:+ " for field "
                   +:+ fieldName)
        end
    | Some _ =>
        (* Add boolean values to the peer's config *)
        if decide (Elem_Kind sf = reflect.Bool) then
          match peerData !! "BooleanOptions" with
          | None => panic nil_dereference
          | Some lb =>
              let* opts := load_slice lb in
              let* _ := store lb (VSlice (opts ++ [Tag_yaml sf])) in
              ret peerData
          end
        else ret peerData
    end
  else ret peerData.

(** The body of the first loop over the peers. *)
Definition resolve_peer (templates : list (string * Peer))
    (st : string * Peer * bool) : M LoadResult (string * Peer * bool) :=
  let '(peerName, peerData, queryNVRS) := st in
  (* Set sanitized peer name *)
  let* lname := new (VString (Sanitize rt peerName)) in
  let peerData := <["ProtocolName" := lname]> peerData in
  (* If any peer has NVRS filtering enabled, mark it for querying. *)
  let queryNVRS :=
    if peerData !! "FilterNeverViaRouteServers" is Some _ then true
    else queryNVRS in
  let* _ :=
    match peerData !! "NeighborIPs" with
    | None => fatal ("[" +:+ peerName +:+ "] has no neighbors defined")
    | Some l =>
        let* ips := load_slice l in
        if decide (length ips < 1)%nat then
          fatal ("[" +:+ peerName +:+ "] has no neighbors defined")
        else ret tt
    end in
  let* lopts := new (VSlice []) in
  let peerData := <["BooleanOptions" := lopts]> peerData in
  let* peerData := assign_template templates peerData in
  let* peerData := foldM set_default t peerData in
  ret (peerName, peerData, queryNVRS).

Fixpoint peers_loop (templates : list (string * Peer))
    (peers : list (string * Peer)) (queryNVRS : bool)
  : M LoadResult (list (string * Peer) * bool) :=
  match peers with
  | [] => ret ([], queryNVRS)
  | (peerName, peerData) :: rest =>
      let* (_, peerData', q) :=
        resolve_peer templates (peerName, peerData, queryNVRS) in
      let* (rest', q') := peers_loop templates rest q in
      ret ((peerName, peerData') :: rest', q')
  end.

(** Sorting a list of prefixes by address family, as the loops over
    [c.Prefixes] and over the VIPs of a VRRP instance do: [what] names the
    list in the error. *)
Fixpoint by_family (what : string) (prefixes v4 v6 : list string)
  : M LoadResult (list string * list string) :=
  match prefixes with
  | [] => ret (v4, v6)
  | prefix :: rest =>
      match ParseCIDR rt prefix with
      | None => return_ (None, Some ("Invalid " +:+ what +:+ ": " +:+ prefix))
      | Some pfx =>
          if net.To4 pfx is None then (* If IPv6 *)
            by_family what rest v4 (v6 ++ [prefix])
          else (* If IPv4 *)
            by_family what rest (v4 ++ [prefix]) v6
      end
  end.

(** Categorize communities (the SRD communities of the augments) *)
Fixpoint categorize_SRD (communities std lrg : list string)
  : M LoadResult (list string * list string) :=
  match communities with
  | [] => ret (std, lrg)
  | community :: rest =>
      let communityType := categorizeCommunity community in
      if decide (communityType = "standard") then
        categorize_SRD rest (std ++ [community]) lrg
      else if decide (communityType = "large") then
        categorize_SRD rest std
          (lrg ++ [strings.ReplaceAll community ":" ","])
      else return_ (None, Some ("Invalid SRD community: " +:+ community))
  end.

(** Parse static routes *)
Fixpoint parse_statics (statics : list (string * string))
    (s4 s6 : gmap string string)
  : M LoadResult (gmap string string * gmap string string) :=
  match statics with
  | [] => ret (s4, s6)
  | (prefix, nexthop) :: rest =>
      match ParseCIDR rt prefix with
      | None => return_ (None, Some ("Invalid static prefix: " +:+ prefix))
      | Some pfx =>
          if ParseIP rt nexthop is None then
            return_ (None, Some ("Invalid static nexthop: " +:+ nexthop))
          else if net.To4 pfx is None then (* If IPv6 *)
            parse_statics rest s4 (<[prefix := nexthop]> s6)
          else (* If IPv4 *)
            parse_statics rest (<[prefix := nexthop]> s4) s6
      end
  end.

(** Parse BFD configs *)
Definition parse_BFD (nb : string * BFDInstance)
  : M LoadResult (string * BFDInstance) :=
  let '(instanceName, bfdInstance) := nb in
  match Neighbor bfdInstance with
  | None => panic nil_dereference
  | Some neighbor =>
      if ParseIP rt neighbor is None then
        return_ (None, Some ("invalid BFD neighbor " +:+ neighbor))
      else
        ret (instanceName,
             {| Neighbor := Neighbor bfdInstance;
                BFD_ProtocolName := Some (Sanitize rt instanceName) |})
  end.

(** Parse VRRP configs *)
Definition parse_VRRP (nv : string * VRRPInstance)
  : M LoadResult (string * VRRPInstance) :=
  let '(name, vrrpInstance) := nv in
  (* Sort VIPs by address family *)
  let* (v4, v6) :=
    by_family "VIP" (VIPs vrrpInstance) (VIPs4 vrrpInstance)
      (VIPs6 vrrpInstance) in
  (* Validate vrrpInstance *)
  let* state :=
    if decide (State vrrpInstance = "primary") then ret "MASTER"
    else if decide (State vrrpInstance = "backup") then ret "BACKUP"
    else return_ (None, Some ("VRRP state must be 'primary' or 'backup', unexpected "
                              +:+ State vrrpInstance)) in
  ret (name, {| State := state; VIPs := VIPs vrrpInstance;
                VIPs4 := v4; VIPs6 := v6 |}).

(** Parse RTR server *)
Definition parse_RTR (RTRServer : string) : M LoadResult (string * Z) :=
  if decide (RTRServer ≠ "") then
    let rtrServerParts := strings.Split RTRServer ":" in
    if decide (length rtrServerParts ≠ 2%nat) then
      fatal ("Invalid rtr-server '" +:+ "[" +:+ strings.Join rtrServerParts " "
             +:+ "]" +:+ "' format should be host:port")
    else
      match strconv.Atoi (nth 1 rtrServerParts "") with
      | None => fatal ("Invalid RTR server port " +:+ nth 1 rtrServerParts "")
      | Some rtrServerPort => ret (nth 0 rtrServerParts "", rtrServerPort)
      end
  else ret ("", 0).

(** Build static prefix filters: one round for one prefix.  The new slice
    is a new variable, and the field is set to its address. *)
Definition add_prefix (peerData : Peer) (prefix : string)
  : M LoadResult Peer :=
  match ParseCIDR rt prefix with
  | None => return_ (None, Some ("Invalid prefix: " +:+ prefix))
  | Some pfx =>
      let set := if net.To4 pfx is None then "PrefixSet6" else "PrefixSet4" in
      let* l :=
        match peerData !! set with
        | None => new (VSlice [])
        | Some l => ret l
        end in
      let* old := load_slice l in
      let* l' := new (VSlice (old ++ [prefix])) in
      ret (<[set := l']> peerData)
  end.

(** Appending [x] to the list field [f], which holds the standard or the
    large communities of a list: the field is first set to the address of
    an empty slice if it is nil, and the slice it points to is then
    replaced by the longer one. *)
Definition append_to (f : string) (peerData : Peer) (x : string)
  : M LoadResult Peer :=
  let* (l, peerData) :=
    match peerData !! f with
    | None => let* l := new (VSlice []) in ret (l, <[f := l]> peerData)
    | Some l => ret (l, peerData)
    end in
  let* old := load_slice l in
  let* _ := store l (VSlice (old ++ [x])) in
  ret peerData.

(** Categorize communities: one round for one community of the list
    [what] ("import", "export", "announce" or "remove"), whose standard
    and large communities go to the fields [std] and [lrg]. *)
Definition add_community (what std lrg : string) (peerData : Peer)
    (community : string) : M LoadResult Peer :=
  let communityType := categorizeCommunity community in
  if decide (communityType = "standard") then
    append_to std peerData community
  else if decide (communityType = "large") then
    append_to lrg peerData (strings.ReplaceAll community ":" ",")
  else
    return_ (None, Some ("Invalid " +:+ what +:+ " community: " +:+ community)).

Definition categorize_field (what src std lrg : string) (peerData : Peer)
  : M LoadResult Peer :=
  match peerData !! src with
  | None => ret peerData
  | Some l =>
      let* communities := load_slice l in
      foldM (add_community what std lrg) communities peerData
  end.

(** Check for no originated prefixes but announce-originated enabled *)
Definition check_originated (Prefixes : list string) (peerData : Peer)
  : M LoadResult unit :=
  if decide (length Prefixes < 1)%nat then
    match peerData !! "AnnounceOriginated" with
    | None => panic nil_dereference
    | Some l =>
        let* announceOriginated := load_bool l in
        if announceOriginated then
          (* No locally originated prefixes are defined, so there's
             nothing to originate *)
          store l (VBool false)
        else ret tt
    end
  else ret tt.

(** The body of the second loop over the peers. *)
Definition finish_peer (Prefixes : list string) (np : string * Peer)
  : M LoadResult (string * Peer) :=
  let '(peerName, peerData) := np in
  (* Build static prefix filters *)
  let* peerData :=
    match peerData !! "Prefixes" with
    | None => ret peerData
    | Some l =>
        let* prefixes := load_slice l in
        foldM add_prefix prefixes peerData
    end in
  (* Categorize communities *)
  let* peerData :=
    categorize_field "import" "ImportCommunities"
      "ImportStandardCommunities" "ImportLargeCommunities" peerData in
  let* peerData :=
    categorize_field "export" "ExportCommunities"
      "ExportStandardCommunities" "ExportLargeCommunities" peerData in
  let* peerData :=
    categorize_field "announce" "AnnounceCommunities"
      "AnnounceStandardCommunities" "AnnounceLargeCommunities" peerData in
  let* peerData :=
    categorize_field "remove" "RemoveCommunities"
      "RemoveStandardCommunities" "RemoveLargeCommunities" peerData in
  let* _ := check_originated Prefixes peerData in
  ret (peerName, peerData).

(** [Load], from the decoded configuration on. *)
Definition resolve (d : Doc.Document) (peers templates : list (string * Peer))
  : M LoadResult Empty_set :=
  (* Check for invalid templates *)
  let* _ := iterM check_template templates in
  (* Set hostname if empty *)
  let* hostname :=
    if decide (Doc.Hostname d = "") then
      match os_Hostname rt with
      | inl hostname => ret hostname
      | inr err =>
          fatal ("Hostname is not defined and unable to get system hostname: "
                 +:+ err)
      end
    else ret (Doc.Hostname d) in
  let* (peers, queryNVRS) := peers_loop templates peers false in
  (* Parse origin routes by assembling OriginIPv{4,6} lists by address
     family *)
  let* (prefixes4, prefixes6) :=
    by_family "origin prefix" (Doc.Prefixes d) [] [] in
  (* Categorize communities *)
  let* (srdStandard, srdLarge) :=
    categorize_SRD (Doc.SRDCommunities d) [] [] in
  (* Parse static routes *)
  let* (statics4, statics6) := parse_statics (Doc.Statics d) ∅ ∅ in
  (* Parse BFD configs *)
  let* bfdInstances := forM parse_BFD (Doc.BFDInstances d) in
  (* Parse VRRP configs *)
  let* vrrpInstances := forM parse_VRRP (Doc.VRRPInstances d) in
  (* Parse RTR server *)
  let* (rtrServerHost, rtrServerPort) := parse_RTR (Doc.RTRServer d) in
  let* peers := forM (finish_peer (Doc.Prefixes d)) peers in
  let c := {|
    Hostname := hostname;
    Prefixes := Doc.Prefixes d;
    RTRServer := Doc.RTRServer d;
    Peers := peers;
    Templates := templates;
    VRRPInstances := vrrpInstances;
    BFDInstances := bfdInstances;
    Augments_ := {|
      SRDCommunities := Doc.SRDCommunities d;
      Statics := Doc.Statics d;
      SRDStandardCommunities := srdStandard;
      SRDLargeCommunities := srdLarge;
      Statics4 := statics4;
      Statics6 := statics6 |};
    RTRServerHost := rtrServerHost;
    RTRServerPort := rtrServerPort;
    Prefixes4 := prefixes4;
    Prefixes6 := prefixes6;
    QueryNVRS := queryNVRS |} in
  λ h, Return (Some (c, h), None). (* return &c, nil *)

End Load.

(** How a call of [Load] ends. *)
Inductive Outcome :=
| Returns (c : option (Config * heap)) (err : option string)
| Exits (msg : string)      (* log.Fatalf *)
| Panics (msg : string).

Definition finish {A} (r : result LoadResult A) : Outcome :=
  match r with
  | Ok _ => Panics "unreachable"
  | Return (c, err) => Returns c err
  | Fatal msg => Exits msg
  | Panic msg => Panics msg
  end.

(** [Load] for a [Peer] type with the fields [t]. *)
Definition Load_with (rt : Runtime) (t : list StructField) (configBlob : Blob)
  : Outcome :=
  match configBlob with
  | Malformed err => Returns None (Some ("YAML unmarshal: " +:+ err))
  | Parsed d =>
      match Unmarshal t d [] with
      | Ok ((peers, templates), h) =>
          match validate_Struct rt d with
          | Some err => Returns None (Some ("Validation: " +:+ err))
          | None => finish (resolve rt t d peers templates h)
          end
      | Return err => Returns None (Some ("YAML unmarshal: " +:+ err))
      | Fatal msg => Exits msg
      | Panic msg => Panics msg
      end
  end.

(** [Load] loads a configuration file from a YAML file. *)
Definition Load (rt : Runtime) (configBlob : Blob) : Outcome :=
  Load_with rt Peer_type configBlob.

(** ** A runtime and documents to run [Load] on *)

Module Demo.

(** A stand-in for the [net] parsers that knows a few documentation
    addresses. *)
Definition v6 (hi : list Z) : net.IP := hi ++ replicate (16 - length hi) 0.

Definition addresses : list (string * net.IP) := [
  ("192.0.2.0", [192; 0; 2; 0]);
  ("192.0.2.1", [192; 0; 2; 1]);
  ("198.51.100.0", [198; 51; 100; 0]);
  ("2001:db8::", v6 [32; 1; 13; 184]);
  ("2001:db8::1", [32; 1; 13; 184; 0; 0; 0; 0; 0; 0; 0; 0; 0; 0; 0; 1]);
  ("::ffff:192.0.2.1", [0; 0; 0; 0; 0; 0; 0; 0; 0; 0; 255; 255; 192; 0; 2; 1])
].

Definition parse_ip (s : string) : option net.IP :=
  list_to_map (M := gmap string net.IP) addresses !! s.

Definition parse_cidr (s : string) : option net.IP :=
  match strings.Split s "/" with
  | [a; len] => if strconv.Atoi len is Some _ then parse_ip a else None
  | _ => None
  end.

Definition rt : Runtime := {|
  ParseCIDR := parse_cidr;
  ParseIP := parse_ip;
  Sanitize := λ s, s;
  os_Hostname := inl "router";
  validate_Struct := λ _, None |}.

Definition empty : Doc.Document := {|
  Doc.Hostname := "";
  Doc.Prefixes := [];
  Doc.RTRServer := "rtr.rpki.cloudflare.com:8282";
  Doc.Peers := [];
  Doc.Templates := [];
  Doc.VRRPInstances := [];
  Doc.BFDInstances := [];
  Doc.SRDCommunities := [];
  Doc.Statics := [] |}.

Definition with_peers (prefixes : list string)
    (templates peers : list (string * gmap string value)) : Doc.Document := {|
  Doc.Hostname := "";
  Doc.Prefixes := prefixes;
  Doc.RTRServer := "rtr.rpki.cloudflare.com:8282";
  Doc.Peers := peers;
  Doc.Templates := templates;
  Doc.VRRPInstances := [];
  Doc.BFDInstances := [];
  Doc.SRDCommunities := [];
  Doc.Statics := [] |}.

(** Reading field [f] of peer [name] in what [Load] returned. *)
Definition read (o : Outcome) (name f : string) : option value :=
  match o with
  | Returns (Some (c, h)) _ =>
      p ← list_to_map (M := gmap string Peer) (Peers c) !! name;
      l ← p !! f;
      h !! l
  | _ => None
  end.

Definition read_template (o : Outcome) (name f : string) : option value :=
  match o with
  | Returns (Some (c, h)) _ =>
      p ← list_to_map (M := gmap string Peer) (Templates c) !! name;
      l ← p !! f;
      h !! l
  | _ => None
  end.

Definition succeeded (o : Outcome) : bool :=
  match o with
  | Returns (Some _) None => true
  | _ => false
  end.

(** A template and peers.  Peer [a] names the template and sets some
    fields of its own, peer [b] stands alone. *)
Definition template_t : gmap string value :=
  list_to_map [
    ("local-pref", VInt 50);
    ("prepends", VInt 5);
    ("announce-originated", VBool true);
    ("neighbors", VSlice ["192.0.2.1"]) ].

Definition peer_a : gmap string value :=
  list_to_map [
    ("asn", VInt 65001);
    ("neighbors", VSlice ["192.0.2.1"; "2001:db8::1"]);
    ("template", VString "t");
    ("prepends", VInt 2);
    ("announce-originated", VBool true);
    ("import-communities", VSlice ["100,200"; "100:200:300"]);
    ("prefixes", VSlice ["198.51.100.0/24"; "2001:db8::/32"]) ].

Definition peer_b : gmap string value :=
  list_to_map [
    ("asn", VInt 65002);
    ("neighbors", VSlice ["192.0.2.1"]);
    ("filter-never-via-route-servers", VBool false) ].

(** A peer that leaves its neighbors to the template. *)
Definition peer_c : gmap string value :=
  list_to_map [ ("asn", VInt 65003); ("template", VString "t") ].

(** A template that names a template. *)
Definition template_u : gmap string value :=
  list_to_map [ ("template", VString "t") ].

Definition origin : list string :=
  ["192.0.2.0/24"; "2001:db8::/32"; "::ffff:192.0.2.1/128"].

Definition policy : Doc.Document :=
  with_peers origin [("t", template_t)] [("a", peer_a); ("b", peer_b)].

(** The same without origin prefixes. *)
Definition policy_no_origin : Doc.Document :=
  with_peers [] [("t", template_t)] [("a", peer_a); ("b", peer_b)].

Definition borrowed_neighbors : Doc.Document :=
  with_peers origin [("t", template_t)] [("c", peer_c)].

Definition nested_templates : Doc.Document :=
  with_peers origin [("t", template_t); ("u", template_u)] [("a", peer_a)].

(** Does [Load] succeed on the document, with a configuration and a store
    that pass the test? *)
Definition loads_with (d : Doc.Document) (test : Config → heap → bool)
  : bool :=
  match Load rt (Parsed d) with
  | Returns (Some (c, h)) None => test c h
  | _ => false
  end.

(** A test of the two peers [a] and [b] of a result. *)
Definition on_a_b (test : heap → Peer → Peer → bool) (c : Config) (h : heap)
  : bool :=
  match Peers c with
  | [(na, pa); (nb, pb)] =>
      bool_decide (na = "a") && bool_decide (nb = "b") && test h pa pb
  | _ => false
  end.

Definition is_false (o : option value) : bool :=
  if o is Some (VBool false) then true else false.

End Demo.

(** ** Specification predicates and invariants *)

(** The two shapes of the specification. *)
Definition standard_form (token : string) : Prop :=
  ∃ a b x y,
    strings.Split token "," = [a; b] ∧
    strconv.Atoi a = Some x ∧ strconv.Atoi b = Some y ∧
    0 <= x <= 65535 ∧ 0 <= y <= 65535.

Definition large_form (token : string) : Prop :=
  ∃ a b c x y z,
    strings.Split token ":" = [a; b; c] ∧
    strconv.Atoi a = Some x ∧ strconv.Atoi b = Some y ∧
    strconv.Atoi c = Some z ∧
    0 <= x <= 4294967295 ∧ 0 <= y <= 4294967295 ∧ 0 <= z <= 4294967295.


(** Reading a field of a peer through its pointer; [None] for nil. *)
Definition deref (h : heap) (p : Peer) (f : string) : option value :=
  l ← p !! f; h !! l.

(** A list field read as a list: nil reads as the empty list. *)
Definition deref_list (h : heap) (p : Peer) (f : string) : list string :=
  match deref h p f with
  | Some (VSlice x) => x
  | _ => []
  end.

(** The type's field of a given name ([Type.FieldByName]). *)
Definition find_field (t : list StructField) (name : string)
  : option StructField :=
  find (λ sf, bool_decide (Name sf = name)) t.

(** *** Bookkeeping for the store

    [Σ] records, for every cell of the store, the name of the field it was
    made for.  A pointer of a struct only ever points to a cell made for
    its field: assigning from the template copies the pointer of the same
    field. *)
Definition tagged (Σ : list string) (p : Peer) : Prop :=
  ∀ f l, p !! f = Some l → Σ !! l = Some f.

(** The cells made for [AnnounceOriginated] hold booleans. *)
Definition store_ok (Σ : list string) (h : heap) : Prop :=
  length Σ = length h ∧
  ∀ l, Σ !! l = Some "AnnounceOriginated" → ∃ b, h !! l = Some (VBool b).

(** From the store [h] to the store [h']: cells are added, and a cell of
    [h] keeps its value, unless [w] is set and the cell was made for
    [AnnounceOriginated], in which case it may have become false. *)
Definition extends (w : bool) (Σ : list string) (h : heap)
    (Σ' : list string) (h' : heap) : Prop :=
  Σ `prefix_of` Σ' ∧ length Σ = length h ∧ store_ok Σ' h' ∧
  ∀ l v, h !! l = Some v →
    h' !! l = Some v ∨
    (w = true ∧ Σ !! l = Some "AnnounceOriginated" ∧ h' !! l = Some (VBool false)).

(** The derived fields of a peer that the second loop fills. *)
Definition derived_fields : list string := [
  "PrefixSet4"; "PrefixSet6";
  "ImportStandardCommunities"; "ImportLargeCommunities";
  "ExportStandardCommunities"; "ExportLargeCommunities";
  "AnnounceStandardCommunities"; "AnnounceLargeCommunities";
  "RemoveStandardCommunities"; "RemoveLargeCommunities" ].

(** The four community lists of a peer: the name in the error, the field
    of the list and the fields of its standard and large communities. *)
Definition community_fields : list (string * string * string * string) := [
  ("import", "ImportCommunities",
   "ImportStandardCommunities", "ImportLargeCommunities");
  ("export", "ExportCommunities",
   "ExportStandardCommunities", "ExportLargeCommunities");
  ("announce", "AnnounceCommunities",
   "AnnounceStandardCommunities", "AnnounceLargeCommunities");
  ("remove", "RemoveCommunities",
   "RemoveStandardCommunities", "RemoveLargeCommunities") ].

Definition is_standard (token : string) : bool :=
  bool_decide (categorizeCommunity token = "standard").
Definition is_large (token : string) : bool :=
  bool_decide (categorizeCommunity token = "large").

(** Does the prefix parse to an address with a 4-byte form? *)
Definition is_v4 (rt : Runtime) (prefix : string) : bool :=
  match ParseCIDR rt prefix with
  | Some pfx => bool_decide (is_Some (net.To4 pfx))
  | None => false
  end.
Definition is_v6 (rt : Runtime) (prefix : string) : bool :=
  match ParseCIDR rt prefix with
  | Some pfx => bool_decide (net.To4 pfx = None)
  | None => false
  end.

(** What the decoder makes of a mapping [d]: the fields of [p] that are
    set are those whose yaml key is in [d], each pointing to the value of
    its key, and every key of [d] is the key of a field of its kind. *)
Definition decoded (t : list StructField) (h : heap)
    (d : gmap string value) (p : Peer) : Prop :=
  (∀ f l, p !! f = Some l →
     ∃ sf v, sf ∈ t ∧ Name sf = f ∧ Tag_yaml sf ≠ "-" ∧
             d !! Tag_yaml sf = Some v ∧ h !! l = Some v) ∧
  (∀ sf v, sf ∈ t → Tag_yaml sf ≠ "-" → d !! Tag_yaml sf = Some v →
     ∃ l, p !! Name sf = Some l ∧ h !! l = Some v) ∧
  (∀ k v, d !! k = Some v → key_ok t (k, v) = true).

(** What [Load] needs of the type [Peer]: field names and yaml keys are
    unique, and the fields that the code names have the tags and kinds
    that are declared for them. *)
Definition special_fields : list StructField := [
  field "Template" reflect.String "template" "-";
  field "NeighborIPs" reflect.Slice "neighbors" "-";
  field "FilterNeverViaRouteServers" reflect.Bool
    "filter-never-via-route-servers" "false";
  field "AnnounceOriginated" reflect.Bool "announce-originated" "true";
  field "Prefixes" reflect.Slice "prefixes" "-";
  field "ImportCommunities" reflect.Slice "import-communities" "-";
  field "ExportCommunities" reflect.Slice "export-communities" "-";
  field "AnnounceCommunities" reflect.Slice "announce-communities" "-";
  field "RemoveCommunities" reflect.Slice "remove-communities" "-";
  field "ProtocolName" reflect.String "-" "-";
  field "BooleanOptions" reflect.Slice "-" "-";
  field "PrefixSet4" reflect.Slice "-" "-";
  field "PrefixSet6" reflect.Slice "-" "-";
  field "ImportStandardCommunities" reflect.Slice "-" "-";
  field "ImportLargeCommunities" reflect.Slice "-" "-";
  field "ExportStandardCommunities" reflect.Slice "-" "-";
  field "ExportLargeCommunities" reflect.Slice "-" "-";
  field "AnnounceStandardCommunities" reflect.Slice "-" "-";
  field "AnnounceLargeCommunities" reflect.Slice "-" "-";
  field "RemoveStandardCommunities" reflect.Slice "-" "-";
  field "RemoveLargeCommunities" reflect.Slice "-" "-" ].

(** A field's default can be applied: the tag is there, and it is "-" or
    a literal of the field's kind, which is string, int or bool. *)
Definition default_ok (sf : StructField) : bool :=
  bool_decide (Tag_default sf ≠ "") &&
  (bool_decide (Tag_default sf = "-") ||
   match Elem_Kind sf with
   | reflect.String => true
   | reflect.Int => bool_decide (is_Some (strconv.Atoi (Tag_default sf)))
   | reflect.Bool => bool_decide (is_Some (strconv.ParseBool (Tag_default sf)))
   | _ => false
   end).

Record schema_ok (t : list StructField) : Prop := {
  schema_names : NoDup (Name <$> t);
  schema_keys : NoDup (Tag_yaml <$> filter (λ sf, Tag_yaml sf ≠ "-") t);
  schema_special : special_fields ⊆ t;
  schema_defaults : Forall (λ sf, default_ok sf = true) t;
}.

(** A decoded peer or template, with its name. *)
Definition decoded_entry (t : list StructField) (Σ : list string) (h : heap)
    (nd : string * gmap string value) (np : string * Peer) : Prop :=
  nd.1 = np.1 ∧ tagged Σ np.2 ∧ decoded t h nd.2 np.2.

(** What the first loop makes of a decoded peer [np0]: the peer [np1]. *)
Definition resolved1 (t : list StructField) (templates : list (string * Peer))
    (Σ : list string) (h : heap) (np0 np1 : string * Peer) : Prop :=
  np0.1 = np1.1 ∧ tagged Σ np0.2 ∧ tagged Σ np1.2 ∧
  (* pointers that were set stay *)
  (∀ f l, f ≠ "ProtocolName" → f ≠ "BooleanOptions" →
     np0.2 !! f = Some l → np1.2 !! f = Some l) ∧
  (* where a pointer comes from *)
  (∀ f l, np1.2 !! f = Some l →
     f = "ProtocolName" ∨ f = "BooleanOptions" ∨ np0.2 !! f = Some l ∨
     (∃ tn tmpl, list_to_map (M := gmap string Peer) templates !! tn = Some tmpl ∧
                 tmpl !! f = Some l ∧ f ≠ "Template") ∨
     (∃ sf, sf ∈ t ∧ Name sf = f ∧ Tag_default sf ≠ "-")) ∧
  (* the peer has neighbors of its own *)
  (∃ l ips, np0.2 !! "NeighborIPs" = Some l ∧ h !! l = Some (VSlice ips) ∧
            ips ≠ []) ∧
  (* the fields of the template *)
  match np0.2 !! "Template" with
  | None => True
  | Some lt =>
      ∃ tn, h !! lt = Some (VString tn) ∧
        (tn ≠ "" →
         ∃ tmpl, list_to_map (M := gmap string Peer) templates !! tn = Some tmpl ∧
           ∀ sf l, sf ∈ t →
             Name sf ∉ ["Template"; "ProtocolName"; "BooleanOptions"] →
             np0.2 !! Name sf = None → tmpl !! Name sf = Some l →
             np1.2 !! Name sf = Some l)
  end ∧
  (* the defaults *)
  (∀ sf, sf ∈ t → Tag_default sf ≠ "-" → is_Some (np1.2 !! Name sf)).

Definition has_NVRS (np : string * Peer) : bool :=
  bool_decide (is_Some (np.2 !! "FilterNeverViaRouteServers")).

(** The list field [f] of [p] holds [x]; a nil field holds the empty
    list. *)
Definition holds (h : heap) (p : Peer) (f : string) (x : list string) : Prop :=
  match p !! f with
  | None => x = []
  | Some l => h !! l = Some (VSlice x)
  end.

(** Cells made for other fields than those of [X] keep their value. *)
Definition writes_only (X : list string) (Σ : list string) (h h' : heap) : Prop :=
  ∀ l v g, h !! l = Some v → Σ !! l = Some g → g ∉ X → h' !! l = Some v.

(** What the second loop makes of a peer [np1] of the first loop: the
    peer [np2]. *)
Definition resolved2 (rt : Runtime) (prefixes : list string)
    (Σ : list string) (h : heap) (np1 np2 : string * Peer) : Prop :=
  np1.1 = np2.1 ∧ tagged Σ np2.2 ∧
  (∀ f, f ∉ derived_fields → np2.2 !! f = np1.2 !! f) ∧
  (* the static prefix filters *)
  match np1.2 !! "Prefixes" with
  | None => np2.2 !! "PrefixSet4" = None ∧ np2.2 !! "PrefixSet6" = None
  | Some l =>
      ∃ ps, h !! l = Some (VSlice ps) ∧
        Forall (λ x, is_Some (ParseCIDR rt x)) ps ∧
        holds h np2.2 "PrefixSet4" (filter (is_v4 rt) ps) ∧
        holds h np2.2 "PrefixSet6" (filter (is_v6 rt) ps)
  end ∧
  (* the communities *)
  Forall (λ '(what, src, std, lrg),
    match np1.2 !! src with
    | None => np2.2 !! std = None ∧ np2.2 !! lrg = None
    | Some l =>
        ∃ cs, h !! l = Some (VSlice cs) ∧
          Forall (λ c, categorizeCommunity c ≠ "") cs ∧
          holds h np2.2 std (filter is_standard cs) ∧
          holds h np2.2 lrg
            ((λ c, strings.ReplaceAll c ":" ",") <$> filter is_large cs)
    end) community_fields ∧
  (* announce-originated *)
  (prefixes = [] →
   ∃ l, np1.2 !! "AnnounceOriginated" = Some l ∧ h !! l = Some (VBool false)).

(** An early return of [Load] is a return of nil and an error. *)
Definition returns_errors {A} (m : M LoadResult A) : Prop :=
  ∀ h r, m h = Return r → r.1 = None ∧ is_Some r.2.

(** A computation that leaves the store alone. *)
Definition heap_pure {R A} (m : M R A) : Prop :=
  ∀ h a h', m h = Ok (a, h') → h' = h.

(** A template of the document that names a template. *)
Definition names_template (nd : string * gmap string value) : bool :=
  match nd.2 !! "template" with
  | Some (VString s) => bool_decide (s ≠ "")
  | _ => false
  end.

(** The message of the fatal error for a template that names a
    template. *)
Definition template_error (templateName : string) : string :=
  "Templates must not have a template field set, but " +:+ templateName
  +:+ " does".

(** ** What the first loop makes of each field *)

(** The value a default tag stands for, at the kind of the field: the
    defaulting sets strings, ints and bools, and nothing else. *)
Definition default_value (sf : StructField) : option value :=
  match Elem_Kind sf with
  | reflect.String => Some (VString (Tag_default sf))
  | reflect.Int => VInt <$> strconv.Atoi (Tag_default sf)
  | reflect.Bool => VBool <$> strconv.ParseBool (Tag_default sf)
  | _ => None
  end.

(** The template that the first loop assigns to the peer [p] from: none
    when the peer has no template field or an empty one, and the
    template of that name otherwise. *)
Definition merged_from (templates : list (string * Peer)) (h : heap)
    (p : Peer) (tmpl : option Peer) : Prop :=
  match p !! "Template" with
  | None => tmpl = None
  | Some lt =>
      ∃ tn, h !! lt = Some (VString tn) ∧
        if decide (tn = "") then tmpl = None
        else is_Some tmpl ∧
             tmpl = list_to_map (M := gmap string Peer) templates !! tn
  end.

(** The pointer that the peer gets from the template for a field that it
    has not set itself. *)
Definition inherited (tmpl : option Peer) (f : string) : option loc :=
  if decide (f = "Template") then None else tm ← tmpl; tm !! f.

(** A boolean field with a default that is set before the defaults are:
    by the peer or by its template. *)
Definition boolean_option (p0 : Peer) (tmpl : option Peer) (sf : StructField)
  : bool :=
  bool_decide (Elem_Kind sf = reflect.Bool) &&
  bool_decide (Tag_default sf ≠ "-") &&
  (bool_decide (is_Some (p0 !! Name sf)) ||
   bool_decide (is_Some (inherited tmpl (Name sf)))).

(** The same test in one round of the defaulting loop, on the peer as the
    round finds it. *)
Definition counts_as_option (p : Peer) (sf : StructField) : bool :=
  bool_decide (Elem_Kind sf = reflect.Bool) &&
  bool_decide (Tag_default sf ≠ "-") &&
  bool_decide (is_Some (p !! Name sf)).

(** What the first loop makes of the decoded peer [np0], field by field:
    the peer [np1], in the store [h]. *)
Definition resolved_fields (rt : Runtime) (t : list StructField) (h : heap)
    (np0 np1 : string * Peer) (tmpl : option Peer) : Prop :=
  (∃ l, np1.2 !! "ProtocolName" = Some l ∧
        h !! l = Some (VString (Sanitize rt np0.1))) ∧
  (∃ lb, np1.2 !! "BooleanOptions" = Some lb ∧
         h !! lb = Some (VSlice (Tag_yaml <$>
                                 filter (boolean_option np0.2 tmpl) t))) ∧
  ∀ sf, sf ∈ t → Name sf ≠ "ProtocolName" → Name sf ≠ "BooleanOptions" →
    match np0.2 !! Name sf, inherited tmpl (Name sf) with
    | Some l, _ => np1.2 !! Name sf = Some l
    | None, Some l => np1.2 !! Name sf = Some l
    | None, None =>
        if decide (Tag_default sf = "-") then np1.2 !! Name sf = None
        else match default_value sf with
             | Some v => ∃ l, np1.2 !! Name sf = Some l ∧ h !! l = Some v
             | None => np1.2 !! Name sf = None
             end
    end.

(** ** The document's view of a peer *)

(** The template of the document that a peer of the document names. *)
Definition template_doc (d : Doc.Document) (pd : gmap string value)
  : option (gmap string value) :=
  match pd !! "template" with
  | Some (VString tn) =>
      if decide (tn = "") then None
      else list_to_map (M := gmap string (gmap string value))
             (Doc.Templates d) !! tn
  | _ => None
  end.

(** The value that the document gives a field of a peer: the peer's own,
    or else the one of its template. *)
Definition configured_value (d : Doc.Document) (pd : gmap string value)
    (sf : StructField) : option value :=
  match pd !! Tag_yaml sf with
  | Some v => Some v
  | None =>
      if decide (Name sf = "Template") then None
      else td ← template_doc d pd; td !! Tag_yaml sf
  end.

(** A boolean option that the document configures for the peer. *)
Definition listed_option (d : Doc.Document) (pd : gmap string value)
    (sf : StructField) : bool :=
  bool_decide (Elem_Kind sf = reflect.Bool) &&
  bool_decide (Tag_default sf ≠ "-") &&
  bool_decide (is_Some (configured_value d pd sf)).

(** ** The names in the generated documentation *)

(** [strings.ReplaceAll(s, old, new)] for a string [old] that is not
    empty: the instances of [old] are found from left to right and do not
    overlap.  [skip] counts the bytes of an instance that are still to be
    passed over. *)
Fixpoint replace_from (skip : nat) (old new s : string) : string :=
  match s with
  | EmptyString => EmptyString
  | String c s' =>
      match skip with
      | S k => replace_from k old new s'
      | O =>
          if String.prefix old s then
            new +:+ replace_from (String.length old - 1) old new s'
          else String c (replace_from 0 old new s')
      end
  end.

Definition ReplaceAll_string (s old new : string) : string :=
  replace_from 0 old new s.

Definition sanitizeConfigName (s : string) : string :=
  let out := s in
  let out := ReplaceAll_string out "*" "" in
  let out := ReplaceAll_string out "config." "" in
  out.

(** ** A document with all the sections that [Load] reads *)

Module Site.

Definition vrrp : VRRPInstance := {|
  State := "primary";
  VIPs := ["192.0.2.1/32"; "2001:db8::1/128"];
  VIPs4 := [];
  VIPs6 := [] |}.

Definition bfd : BFDInstance := {|
  Neighbor := Some "192.0.2.1";
  BFD_ProtocolName := None |}.

Definition router : Doc.Document := {|
  Doc.Hostname := "";
  Doc.Prefixes := Demo.origin;
  Doc.RTRServer := "rtr.example:8282";
  Doc.Peers := [("a", Demo.peer_a); ("b", Demo.peer_b)];
  Doc.Templates := [("t", Demo.template_t)];
  Doc.VRRPInstances := [("vrrp 1", vrrp)];
  Doc.BFDInstances := [("bfd 1", bfd)];
  Doc.SRDCommunities := ["65000,1"; "65000:1:2"];
  Doc.Statics := [("198.51.100.0/24", "192.0.2.1");
                  ("2001:db8::/32", "2001:db8::1")] |}.

(** A peer that leaves [announce-originated] to its template, in a
    document without origin prefixes. *)
Definition peer_d : gmap string value :=
  list_to_map [
    ("asn", VInt 65004);
    ("neighbors", VSlice ["192.0.2.1"]);
    ("template", VString "t") ].

Definition no_origin : Doc.Document :=
  Demo.with_peers [] [("t", Demo.template_t)] [("d", peer_d)].

End Site.

(** ** The fatal errors of [Load] *)

(** A computation whose fatal errors all have a message in [S]. *)
Definition fatal_only {A} (S : string → Prop) (m : M LoadResult A) : Prop :=
  ∀ h msg, m h = Fatal msg → S msg.

(** The messages of the fatal errors that [Load] can end with on a
    document. *)
Definition load_fatal (msg : string) : Prop :=
  (∃ templateName, msg = template_error templateName) ∨
  (∃ err, msg = "Hostname is not defined and unable to get system hostname: "
                +:+ err) ∨
  (∃ peerName, msg = "[" +:+ peerName +:+ "] has no neighbors defined") ∨
  (∃ name, msg = "Template " +:+ name +:+ " not found") ∨
  String.prefix "Invalid rtr-server '" msg = true ∨
  String.prefix "Invalid RTR server port " msg = true.

(** ** Null entries

    [Peers], [Templates], [VRRPInstances] and [BFDInstances] are maps of
    pointers ([map[string]*Peer] and so on).  A key of the document with
    nothing under it (a YAML null) decodes to a nil pointer, without an
    error.  [Load] dereferences every template in the check of the
    templates ([templateData.Template]), every peer at the start of its
    round of the first loop ([peerData.ProtocolName = ...]), and every
    BFD and VRRP instance in its round: on a nil pointer it panics
    there.

    [Doc.Document] has no such entries.  [Raw.Document] is the document
    with them, and [Load_raw] is [Load] on it. *)
Module Raw.

Record Document := {
  Hostname : string;
  Prefixes : list string;
  RTRServer : string;
  Peers : list (string * option (gmap string value));
  Templates : list (string * option (gmap string value));
  VRRPInstances : list (string * option VRRPInstance);
  BFDInstances : list (string * option BFDInstance);
  SRDCommunities : list string;
  Statics : list (string * string);
}.

(** The entries that are not nil. *)
Definition entries {A} (l : list (string * option A)) : list (string * A) :=
  omap (λ no, (λ x, (no.1, x)) <$> no.2) l.

(** A list without a nil entry. *)
Definition pointers {A} (l : list (string * A)) : list (string * option A) :=
  (λ nx, (nx.1, Some nx.2)) <$> l.

(** The document without its null entries. *)
Definition document (r : Document) : Doc.Document := {|
  Doc.Hostname := Hostname r;
  Doc.Prefixes := Prefixes r;
  Doc.RTRServer := RTRServer r;
  Doc.Peers := entries (Peers r);
  Doc.Templates := entries (Templates r);
  Doc.VRRPInstances := entries (VRRPInstances r);
  Doc.BFDInstances := entries (BFDInstances r);
  Doc.SRDCommunities := SRDCommunities r;
  Doc.Statics := Statics r |}.

(** A document that has no null entry. *)
Definition of_document (d : Doc.Document) : Document := {|
  Hostname := Doc.Hostname d;
  Prefixes := Doc.Prefixes d;
  RTRServer := Doc.RTRServer d;
  Peers := pointers (Doc.Peers d);
  Templates := pointers (Doc.Templates d);
  VRRPInstances := pointers (Doc.VRRPInstances d);
  BFDInstances := pointers (Doc.BFDInstances d);
  SRDCommunities := Doc.SRDCommunities d;
  Statics := Doc.Statics d |}.

End Raw.

(** yaml.UnmarshalStrict on an entry of [Peers] or [Templates]: a null
    is a nil pointer, anything else a pointer to the decoded [Peer]. *)
Definition Unmarshal_entry (t : list StructField)
    (no : string * option (gmap string value))
  : M string (string * option Peer) :=
  match no.2 with
  | None => ret (no.1, None)
  | Some m => let* np := Unmarshal_Peer t (no.1, m) in ret (np.1, Some np.2)
  end.

Definition Unmarshal_raw (t : list StructField) (r : Raw.Document)
  : M string (list (string * option Peer) * list (string * option Peer)) :=
  let* peers := forM (Unmarshal_entry t) (Raw.Peers r) in
  let* templates := forM (Unmarshal_entry t) (Raw.Templates r) in
  ret (peers, templates).

(** Check for invalid templates: [templateData.Template] reads a field
    of the template through its pointer. *)
Definition check_template_entry (nt : string * option Peer)
  : M LoadResult unit :=
  match nt.2 with
  | None => panic nil_dereference
  | Some templateData => check_template (nt.1, templateData)
  end.

(** One round of the first loop over the peers: its first statement
    assigns to a field of the peer through its pointer. *)
Definition resolve_peer_entry (rt : Runtime) (t : list StructField)
    (templates : list (string * Peer)) (st : string * option Peer * bool)
  : M LoadResult (string * Peer * bool) :=
  let '(peerName, peerData, queryNVRS) := st in
  match peerData with
  | None => panic nil_dereference
  | Some peerData => resolve_peer rt t templates (peerName, peerData, queryNVRS)
  end.

Fixpoint peers_loop_raw (rt : Runtime) (t : list StructField)
    (templates : list (string * Peer)) (peers : list (string * option Peer))
    (queryNVRS : bool) : M LoadResult (list (string * Peer) * bool) :=
  match peers with
  | [] => ret ([], queryNVRS)
  | (peerName, peerData) :: rest =>
      let* (_, peerData', q) :=
        resolve_peer_entry rt t templates (peerName, peerData, queryNVRS) in
      let* (rest', q') := peers_loop_raw rt t templates rest q in
      ret ((peerName, peerData') :: rest', q')
  end.

(** Parse BFD configs: [*bfdInstance.Neighbor] reads a field of the
    instance through its pointer. *)
Definition parse_BFD_entry (rt : Runtime) (nb : string * option BFDInstance)
  : M LoadResult (string * BFDInstance) :=
  match nb.2 with
  | None => panic nil_dereference
  | Some bfdInstance => parse_BFD rt (nb.1, bfdInstance)
  end.

(** Parse VRRP configs: [vrrpInstance.VIPs] does. *)
Definition parse_VRRP_entry (rt : Runtime) (nv : string * option VRRPInstance)
  : M LoadResult (string * VRRPInstance) :=
  match nv.2 with
  | None => panic nil_dereference
  | Some vrrpInstance => parse_VRRP rt (nv.1, vrrpInstance)
  end.

(** [Load], from the end of the first loop over the peers on: no peer
    and no template is nil there. *)
Definition resolve_rest (rt : Runtime) (r : Raw.Document) (hostname : string)
    (templates peers : list (string * Peer)) (queryNVRS : bool)
  : M LoadResult Empty_set :=
  let d := Raw.document r in
  let* (prefixes4, prefixes6) :=
    by_family rt "origin prefix" (Doc.Prefixes d) [] [] in
  let* (srdStandard, srdLarge) :=
    categorize_SRD (Doc.SRDCommunities d) [] [] in
  let* (statics4, statics6) := parse_statics rt (Doc.Statics d) ∅ ∅ in
  let* bfdInstances := forM (parse_BFD_entry rt) (Raw.BFDInstances r) in
  let* vrrpInstances := forM (parse_VRRP_entry rt) (Raw.VRRPInstances r) in
  let* (rtrServerHost, rtrServerPort) := parse_RTR (Doc.RTRServer d) in
  let* peers := forM (finish_peer rt (Doc.Prefixes d)) peers in
  let c := {|
    Hostname := hostname;
    Prefixes := Doc.Prefixes d;
    RTRServer := Doc.RTRServer d;
    Peers := peers;
    Templates := templates;
    VRRPInstances := vrrpInstances;
    BFDInstances := bfdInstances;
    Augments_ := {|
      SRDCommunities := Doc.SRDCommunities d;
      Statics := Doc.Statics d;
      SRDStandardCommunities := srdStandard;
      SRDLargeCommunities := srdLarge;
      Statics4 := statics4;
      Statics6 := statics6 |};
    RTRServerHost := rtrServerHost;
    RTRServerPort := rtrServerPort;
    Prefixes4 := prefixes4;
    Prefixes6 := prefixes6;
    QueryNVRS := queryNVRS |} in
  λ h, Return (Some (c, h), None).

(** [Load], from the decoded configuration on. *)
Definition resolve_raw (rt : Runtime) (t : list StructField)
    (r : Raw.Document) (peers templates : list (string * option Peer))
  : M LoadResult Empty_set :=
  (* Check for invalid templates *)
  let* _ := iterM check_template_entry templates in
  (* Set hostname if empty *)
  let* hostname :=
    if decide (Raw.Hostname r = "") then
      match os_Hostname rt with
      | inl hostname => ret hostname
      | inr err =>
          fatal ("Hostname is not defined and unable to get system hostname: "
                 +:+ err)
      end
    else ret (Raw.Hostname r) in
  let* (peers, queryNVRS) :=
    peers_loop_raw rt t (Raw.entries templates) peers false in
  resolve_rest rt r hostname (Raw.entries templates) peers queryNVRS.

(** [Load] on a document that may have null entries.  The validator
    sees the decoded configuration with its nil pointers: [validate] is
    what it answers on the document. *)
Definition Load_raw (rt : Runtime) (validate : Raw.Document → option string)
    (t : list StructField) (r : Raw.Document) : Outcome :=
  match Unmarshal_raw t r [] with
  | Ok ((peers, templates), h) =>
      match validate r with
      | Some err => Returns None (Some ("Validation: " +:+ err))
      | None => finish (resolve_raw rt t r peers templates h)
      end
  | Return err => Returns None (Some ("YAML unmarshal: " +:+ err))
  | Fatal msg => Exits msg
  | Panic msg => Panics msg
  end.

(** What stops the check of the templates: a null template, or one that
    names a template. *)
Definition stops_check (nt : string * option (gmap string value)) : bool :=
  match nt.2 with
  | None => true
  | Some td => names_template (nt.1, td)
  end.

(** A peer that the first loop finds without neighbors. *)
Definition no_neighbors (h : heap) (peerData : Peer) : Prop :=
  match peerData !! "NeighborIPs" with
  | None => True
  | Some l => h !! l = Some (VSlice [])
  end.

Definition neighbors_error (peerName : string) : string :=
  "[" +:+ peerName +:+ "] has no neighbors defined".

(** The document [Demo.nested_templates] with a null template [t]: the
    template [u] names a template, and comes after the null one. *)
Definition null_template_first : Raw.Document := {|
  Raw.Hostname := "";
  Raw.Prefixes := Demo.origin;
  Raw.RTRServer := "rtr.rpki.cloudflare.com:8282";
  Raw.Peers := [("a", Some Demo.peer_a)];
  Raw.Templates := [("t", None); ("u", Some Demo.template_u)];
  Raw.VRRPInstances := [];
  Raw.BFDInstances := [];
  Raw.SRDCommunities := [];
  Raw.Statics := [] |}.

(** Does [Load] get to the first loop with the one peer [name] of the
    document, and is that peer without neighbors of its own? *)
Definition reaches_without_neighbors (rt : Runtime) (d : Doc.Document)
    (name : string) : bool :=
  match Unmarshal Peer_type d [], validate_Struct rt d with
  | Ok (([(n, p)], templates), h0), None =>
      match iterM check_template templates h0 with
      | Ok (_, _) =>
          bool_decide (n = name) &&
          bool_decide (p !! "NeighborIPs" = None) &&
          (if os_Hostname rt is inl _ then true else false)
      | _ => false
      end
  | _, _ => false
  end.
Example categorize_std : categorizeCommunity "100,200" = "standard".
Proof. reflexivity. Qed.
Example categorize_large : categorizeCommunity "100:200:300" = "large".
Proof. reflexivity. Qed.
Example categorize_range : categorizeCommunity "65536,0" = "".
Proof. reflexivity. Qed.
Example categorize_signed : categorizeCommunity "+7,-0" = "standard".
Proof. reflexivity. Qed.

Example rtr_three_parts :
  parse_RTR "a:b:c" [] =
  Fatal "Invalid rtr-server '[a b c]' format should be host:port".
Proof. vm_compute. reflexivity. Qed.
Example rtr_no_port :
  parse_RTR "rtr.example" [] =
  Fatal "Invalid rtr-server '[rtr.example]' format should be host:port".
Proof. vm_compute. reflexivity. Qed.
Example null_peer_panics :
  peers_loop_raw Demo.rt Peer_type [] [("a", None)] false [] =
  Panic nil_dereference.
Proof. reflexivity. Qed.

(** * Properties *)

(** ** Reasoning about computations *)

Lemma bind_Ok_inv {R A B} (m : M R A) (k : A → M R B) h b h' :
  bind m k h = Ok (b, h') →
  ∃ a h1, m h = Ok (a, h1) ∧ k a h1 = Ok (b, h').
Proof.
  unfold bind. destruct (m h) as [[a h1]| | |]; [|done..].
  intros H. exists a, h1. by split.
Qed.

Lemma bind_Return_inv {R A B} (m : M R A) (k : A → M R B) h r :
  bind m k h = Return r →
  m h = Return r ∨ ∃ a h1, m h = Ok (a, h1) ∧ k a h1 = Return r.
Proof.
  unfold bind. destruct (m h) as [[a h1]|r'| |] eqn:E.
  - intros H. right. exists a, h1. by split.
  - intros [= ->]. by left.
  - done.
  - done.
Qed.

Lemma bind_Ok_eq {R A B} (m : M R A) (k : A → M R B) h a h1 :
  m h = Ok (a, h1) → bind m k h = k a h1.
Proof. unfold bind. by intros ->. Qed.

Lemma new_inv {R} v h l h' :
  new (R := R) v h = Ok (l, h') → l = length h ∧ h' = h ++ [v].
Proof. unfold new. by intros [= <- <-]. Qed.

Lemma load_inv {R} l h v h' :
  load (R := R) l h = Ok (v, h') → h !! l = Some v ∧ h' = h.
Proof. unfold load. destruct (h !! l); [|done]. by intros [= <- <-]. Qed.

Lemma store_inv {R} l v h u h' :
  store (R := R) l v h = Ok (u, h') → (l < length h)%nat ∧ h' = <[l := v]> h.
Proof. unfold store. case_decide; [|done]. by intros [= <- <-]. Qed.

Lemma load_string_inv {R} l h s h' :
  load_string (R := R) l h = Ok (s, h') → h !! l = Some (VString s) ∧ h' = h.
Proof.
  unfold load_string, bind, load. destruct (h !! l) as [[]|]; try done.
  by intros [= <- <-].
Qed.

Lemma load_bool_inv {R} l h b h' :
  load_bool (R := R) l h = Ok (b, h') → h !! l = Some (VBool b) ∧ h' = h.
Proof.
  unfold load_bool, bind, load. destruct (h !! l) as [[]|]; try done.
  by intros [= <- <-].
Qed.

Lemma load_slice_inv {R} l h x h' :
  load_slice (R := R) l h = Ok (x, h') → h !! l = Some (VSlice x) ∧ h' = h.
Proof.
  unfold load_slice, bind, load. destruct (h !! l) as [[]|]; try done.
  by intros [= <- <-].
Qed.

Lemma load_string_Ok {R} l h s :
  h !! l = Some (VString s) → load_string (R := R) l h = Ok (s, h).
Proof. intros H. unfold load_string, bind, load. by rewrite H. Qed.

Lemma load_bool_Ok {R} l h b :
  h !! l = Some (VBool b) → load_bool (R := R) l h = Ok (b, h).
Proof. intros H. unfold load_bool, bind, load. by rewrite H. Qed.

Lemma load_slice_Ok {R} l h x :
  h !! l = Some (VSlice x) → load_slice (R := R) l h = Ok (x, h).
Proof. intros H. unfold load_slice, bind, load. by rewrite H. Qed.

(** The primitive operations never make the enclosing function return. *)
Lemma load_string_not_Return {R} l h r : load_string (R := R) l h ≠ Return r.
Proof. unfold load_string, bind, load. by destruct (h !! l) as [[]|]. Qed.

Lemma load_bool_not_Return {R} l h r : load_bool (R := R) l h ≠ Return r.
Proof. unfold load_bool, bind, load. by destruct (h !! l) as [[]|]. Qed.

Lemma load_slice_not_Return {R} l h r : load_slice (R := R) l h ≠ Return r.
Proof. unfold load_slice, bind, load. by destruct (h !! l) as [[]|]. Qed.

Lemma store_not_Return {R} l v h r : store (R := R) l v h ≠ Return r.
Proof. unfold store. by case_decide. Qed.

(** Taking a computation in the hypothesis [H] apart, one step at a
    time. *)
Ltac inv_step H :=
  lazymatch type of H with
  | bind _ _ _ = Ok _ =>
      let a := fresh "a" in let h := fresh "h" in let H1 := fresh "Hm" in
      apply bind_Ok_inv in H as (a & h & H1 & H)
  | ret _ _ = Ok _ => unfold ret in H; simplify_eq
  | new _ _ = Ok _ => apply new_inv in H as [? ?]; subst
  | load_string _ _ = Ok _ => apply load_string_inv in H as [H ?]; subst
  | load_bool _ _ = Ok _ => apply load_bool_inv in H as [H ?]; subst
  | load_slice _ _ = Ok _ => apply load_slice_inv in H as [H ?]; subst
  | store _ _ _ = Ok _ => apply store_inv in H as [H ?]; subst
  | fatal _ _ = Ok _ => discriminate H
  | panic _ _ = Ok _ => discriminate H
  | return_ _ _ = Ok _ => discriminate H
  end.

Ltac inv_M :=
  repeat match goal with
         | H : bind _ _ _ = Ok _ |- _ => inv_step H
         | H : ret _ _ = Ok _ |- _ => inv_step H
         | H : new _ _ = Ok _ |- _ => inv_step H
         | H : load_string _ _ = Ok _ |- _ => inv_step H
         | H : load_bool _ _ = Ok _ |- _ => inv_step H
         | H : load_slice _ _ = Ok _ |- _ => inv_step H
         | H : store _ _ _ = Ok _ |- _ => inv_step H
         | H : fatal _ _ = Ok _ |- _ => inv_step H
         | H : panic _ _ = Ok _ |- _ => inv_step H
         | H : return_ _ _ = Ok _ |- _ => inv_step H
         end.

(** ** The store *)

Lemma tagged_mono Σ Σ' p : tagged Σ p → Σ `prefix_of` Σ' → tagged Σ' p.
Proof. intros Hp Hpre f l Hf. eapply prefix_lookup_Some; eauto. Qed.

Lemma tagged_empty Σ : tagged Σ ∅.
Proof. intros f l. by rewrite lookup_empty. Qed.

Lemma tagged_insert Σ (p : Peer) f l :
  tagged Σ p → Σ !! l = Some f → tagged Σ (<[f := l]> p).
Proof.
  intros Hp Hl f' l'. rewrite lookup_insert. case_decide; naive_solver.
Qed.

Lemma tagged_valid Σ (h : heap) (p : Peer) f l :
  tagged Σ p → length Σ = length h → p !! f = Some l → is_Some (h !! l).
Proof.
  intros Hp Hlen Hf. apply lookup_lt_is_Some. rewrite <- Hlen.
  eapply lookup_lt_Some, Hp, Hf.
Qed.

(** Two pointers to one cell belong to the same field. *)
Lemma tagged_same_field Σ (p q : Peer) f g l :
  tagged Σ p → tagged Σ q → p !! f = Some l → q !! g = Some l → f = g.
Proof. intros Hp Hq Hf Hg. apply Hp in Hf. apply Hq in Hg. congruence. Qed.

Lemma extends_refl w Σ h : store_ok Σ h → extends w Σ h Σ h.
Proof. intros Hok. split_and!; [done|apply Hok|done|auto]. Qed.

Lemma extends_store_ok w Σ h Σ' h' : extends w Σ h Σ' h' → store_ok Σ' h'.
Proof. by intros (_ & _ & H & _). Qed.

Lemma extends_prefix w Σ h Σ' h' : extends w Σ h Σ' h' → Σ `prefix_of` Σ'.
Proof. by intros (H & _). Qed.

Lemma extends_length w Σ h Σ' h' :
  extends w Σ h Σ' h' → (length h ≤ length h')%nat.
Proof.
  intros (Hpre & Hlen & [Hlen' _] & _).
  rewrite <- Hlen, <- Hlen'. by apply prefix_length.
Qed.

Lemma extends_trans w Σ1 h1 Σ2 h2 Σ3 h3 :
  extends w Σ1 h1 Σ2 h2 → extends w Σ2 h2 Σ3 h3 → extends w Σ1 h1 Σ3 h3.
Proof.
  intros (Hp1 & Hl1 & Hok2 & Hf1) (Hp2 & Hl2 & Hok3 & Hf2).
  split_and!; [by etrans|done|done|].
  intros l v Hl. destruct (Hf1 l v Hl) as [Hv|(Hw & Ht & Hv)].
  - destruct (Hf2 l v Hv) as [?|(Hw & Ht & Hv')]; [by left|].
    right. split_and!; [done| |done].
    apply lookup_lt_Some in Hl. rewrite <- Hl1 in Hl.
    apply lookup_lt_is_Some in Hl as [g Hg].
    rewrite (prefix_lookup_Some _ _ _ _ Hg Hp1) in Ht. congruence.
  - right. split_and!; [done..|].
    destruct (Hf2 l _ Hv) as [?|(_ & _ & ?)]; done.
Qed.

Lemma extends_weaken w Σ h Σ' h' :
  extends false Σ h Σ' h' → extends w Σ h Σ' h'.
Proof.
  intros (Hp & Hl & Hok & Hf). split_and!; [done..|].
  intros l v Hv. destruct (Hf l v Hv) as [?|(? & _)]; [by left|done].
Qed.

(** A cell that the store had at the start, and that was not made for
    [AnnounceOriginated], still holds its value. *)
Lemma extends_lookup w Σ h Σ' h' l v f :
  extends w Σ h Σ' h' → h !! l = Some v → Σ !! l = Some f →
  f ≠ "AnnounceOriginated" ∨ w = false → h' !! l = Some v.
Proof.
  intros (_ & _ & _ & Hf) Hl Ht Hne.
  destruct (Hf l v Hl) as [?|(Hw & Ht' & _)]; [done|].
  destruct Hne; congruence.
Qed.

(** A cell that holds false keeps holding false. *)
Lemma extends_lookup_false w Σ h Σ' h' l :
  extends w Σ h Σ' h' → h !! l = Some (VBool false) →
  h' !! l = Some (VBool false).
Proof. intros (_ & _ & _ & Hf) Hl. destruct (Hf l _ Hl) as [?|(_ & _ & ?)]; done. Qed.

(** A new cell, made for the field [f]. *)
Lemma extends_new w Σs hs Σ h f v :
  extends w Σs hs Σ h →
  (f = "AnnounceOriginated" → ∃ b, v = VBool b) →
  extends w Σs hs (Σ ++ [f]) (h ++ [v]) ∧ (Σ ++ [f]) !! length h = Some f.
Proof.
  intros (Hp & Hl & [Hlen Hty] & Hf) Hv. split.
  - split_and!; [by apply prefix_app_r|done| |].
    + split; [by rewrite !length_app, Hlen|].
      intros l Hl'. destruct (decide (l < length Σ)%nat) as [Hlt|Hge].
      * rewrite lookup_app_l in Hl' by done.
        destruct (Hty l Hl') as [b Hb]. exists b.
        rewrite lookup_app_l; [done|]. by rewrite <- Hlen.
      * rewrite lookup_app_r in Hl' by lia.
        destruct (l - length Σ)%nat eqn:E; [|done]. simpl in Hl'.
        simplify_eq. destruct Hv as [b ->]; [done|]. exists b.
        rewrite lookup_app_r by lia.
        replace (l - length h)%nat with 0%nat by lia. done.
    + intros l v' Hl'. destruct (Hf l v' Hl') as [Hv'|(? & ? & Hv')].
      * left. rewrite lookup_app_l; [done|]. by eapply lookup_lt_Some.
      * right. split_and!; [done..|].
        rewrite lookup_app_l; [done|]. by eapply lookup_lt_Some.
  - rewrite <- Hlen. by rewrite lookup_app_r, Nat.sub_diag.
Qed.

(** Writing to a cell that was made since the start, for another field
    than [AnnounceOriginated]. *)
Lemma extends_store_new w Σs hs Σ h l f v :
  extends w Σs hs Σ h →
  (length hs ≤ l)%nat → Σ !! l = Some f → f ≠ "AnnounceOriginated" →
  extends w Σs hs Σ (<[l := v]> h).
Proof.
  intros (Hp & Hl & [Hlen Hty] & Hf) Hge Ht Hne.
  split_and!; [done..| |].
  - split; [by rewrite length_insert|].
    intros l' Hl'. destruct (Hty l' Hl') as [b Hb]. exists b.
    rewrite list_lookup_insert_ne; [done|]. congruence.
  - intros l' v' Hl'.
    assert (l ≠ l') by (apply lookup_lt_Some in Hl'; lia).
    rewrite list_lookup_insert_ne by done. by apply Hf.
Qed.

(** Writing false to a cell made for [AnnounceOriginated]. *)
Lemma extends_store_false Σs hs Σ h l :
  extends true Σs hs Σ h → Σ !! l = Some "AnnounceOriginated" →
  extends true Σs hs Σ (<[l := VBool false]> h) ∧
  <[l := VBool false]> h !! l = Some (VBool false).
Proof.
  intros (Hp & Hl & [Hlen Hty] & Hf) Ht.
  assert (l < length h)%nat as Hlt.
  { rewrite <- Hlen. by eapply lookup_lt_Some. }
  split; [|by apply list_lookup_insert_eq].
  split_and!; [done..| |].
  - split; [by rewrite length_insert|].
    intros l' Hl'. destruct (decide (l = l')) as [<-|Hne].
    + exists false. by apply list_lookup_insert_eq.
    + rewrite list_lookup_insert_ne by done. by apply Hty.
  - intros l' v' Hl'. destruct (decide (l = l')) as [<-|Hne].
    + right. split_and!; [done| |by apply list_lookup_insert_eq].
      apply lookup_lt_Some in Hl'. rewrite <- Hl in Hl'.
      apply lookup_lt_is_Some in Hl' as [g Hg].
      rewrite (prefix_lookup_Some _ _ _ _ Hg Hp) in Ht. congruence.
    + rewrite list_lookup_insert_ne by done. by apply Hf.
Qed.

(** ** Loops *)

Lemma forM_length {R A B} (f : A → M R B) l h l' h' :
  forM f l h = Ok (l', h') → length l' = length l.
Proof.
  revert h l'. induction l as [|x l IH]; intros h l' H; simpl in H.
  - inv_step H. done.
  - inv_step H. inv_step H. inv_step H. simpl. f_equal. eauto.
Qed.

(** A loop over a list of elements that satisfy [P] establishes [Q]
    between each element and its result, when every round does, and what
    [P] and [Q] say stays true in later rounds. *)
Lemma forM_spec {R A B} (f : A → M R B) (w : bool)
    (P : list string → heap → A → Prop)
    (Q : list string → heap → A → B → Prop) :
  (∀ Σ h Σ' h' a, P Σ h a → extends w Σ h Σ' h' → P Σ' h' a) →
  (∀ Σ h Σ' h' a b, Q Σ h a b → extends w Σ h Σ' h' → Q Σ' h' a b) →
  (∀ Σ h a b h', store_ok Σ h → P Σ h a → f a h = Ok (b, h') →
     ∃ Σ', extends w Σ h Σ' h' ∧ Q Σ' h' a b) →
  ∀ l Σ h l' h', store_ok Σ h → Forall (P Σ h) l → forM f l h = Ok (l', h') →
    ∃ Σ', extends w Σ h Σ' h' ∧ Forall2 (Q Σ' h') l l'.
Proof.
  intros HP HQ Hstep l.
  induction l as [|x l IH]; intros Σ h l' h' Hok Hall H; simpl in H.
  - inv_step H. exists Σ. split; [by apply extends_refl|constructor].
  - apply bind_Ok_inv in H as (y & h1 & Hm & H).
    apply bind_Ok_inv in H as (ys & h2 & Hms & H). inv_M.
    apply Forall_cons in Hall as [Hx Hall].
    destruct (Hstep _ _ _ _ _ Hok Hx Hm) as (Σ1 & He1 & HQ1).
    assert (Hall1 : Forall (P Σ1 h1) l).
    { eapply Forall_impl; [exact Hall|]. intros a Ha. by eapply HP. }
    destruct (IH Σ1 h1 ys h' (extends_store_ok _ _ _ _ _ He1) Hall1 Hms)
      as (Σ2 & He2 & HF).
    exists Σ2. split; [exact (extends_trans _ _ _ _ _ _ _ He1 He2)|].
    constructor; [by eapply HQ|done].
Qed.

(** ** Decoding *)

Lemma find_field_Some t name sf :
  find_field t name = Some sf → sf ∈ t ∧ Name sf = name.
Proof.
  unfold find_field. intros H. apply find_some in H as [Hin Hb].
  split; [by apply list_elem_of_In|]. by apply bool_decide_eq_true in Hb.
Qed.

(** With unique field names, a field is determined by its name. *)
Lemma field_unique t sf1 sf2 :
  NoDup (Name <$> t) → sf1 ∈ t → sf2 ∈ t → Name sf1 = Name sf2 → sf1 = sf2.
Proof.
  induction t as [|x t IH]; intros Hnd H1 H2 Hn; [by apply elem_of_nil in H1|].
  rewrite fmap_cons in Hnd. apply NoDup_cons in Hnd as [Hx Hnd].
  apply elem_of_cons in H1 as [->|H1]; apply elem_of_cons in H2 as [->|H2].
  - done.
  - destruct Hx. rewrite Hn. by apply list_elem_of_fmap_2.
  - destruct Hx. rewrite <- Hn. by apply list_elem_of_fmap_2.
  - by apply IH.
Qed.

(** With unique yaml keys, a key selects the field that carries it. *)
Lemma lookup_yaml_elem t sf :
  NoDup (Tag_yaml <$> filter (λ sf, Tag_yaml sf ≠ "-") t) →
  sf ∈ t → Tag_yaml sf ≠ "-" → lookup_yaml t (Tag_yaml sf) = Some sf.
Proof.
  unfold lookup_yaml.
  induction t as [|x t IH]; intros Hnd Hin Hv; [by apply elem_of_nil in Hin|].
  simpl. case_bool_decide as Hx.
  - destruct Hx as [Hx _]. f_equal.
    apply elem_of_cons in Hin as [->|Hin]; [done|].
    rewrite filter_cons_True in Hnd by congruence.
    rewrite fmap_cons in Hnd. apply NoDup_cons in Hnd as [Hnot _].
    destruct Hnot. rewrite Hx.
    apply list_elem_of_fmap_2. apply list_elem_of_filter. done.
  - apply elem_of_cons in Hin as [->|Hin]; [naive_solver|].
    apply IH; [|done..].
    destruct (decide (Tag_yaml x ≠ "-")).
    + rewrite filter_cons_True in Hnd by done. rewrite fmap_cons in Hnd.
      by apply NoDup_cons in Hnd as [_ ?].
    + by rewrite filter_cons_False in Hnd.
Qed.

Lemma decode_fields_spec (d : gmap string value) ts :
  ∀ (p : Peer) Σ h p' h',
    NoDup (Name <$> ts) →
    (∀ sf, sf ∈ ts → p !! Name sf = None) →
    (∀ sf v, sf ∈ ts → Name sf = "AnnounceOriginated" →
       d !! Tag_yaml sf = Some v → ∃ b, v = VBool b) →
    store_ok Σ h → tagged Σ p →
    foldM (decode_field d) ts p h = Ok (p', h') →
    ∃ Σ', extends false Σ h Σ' h' ∧ tagged Σ' p' ∧
      (∀ f l, p !! f = Some l → p' !! f = Some l) ∧
      (∀ f l, p' !! f = Some l →
         p !! f = Some l ∨
         ∃ sf v, sf ∈ ts ∧ Name sf = f ∧ Tag_yaml sf ≠ "-" ∧
                 d !! Tag_yaml sf = Some v ∧ h' !! l = Some v) ∧
      (∀ sf v, sf ∈ ts → Tag_yaml sf ≠ "-" → d !! Tag_yaml sf = Some v →
         ∃ l, p' !! Name sf = Some l ∧ h' !! l = Some v).
Proof.
  induction ts as [|sf ts IH]; intros p Σ h p' h' Hnd Hfresh Hty Hok Htag H;
    simpl in H.
  { inv_step H. exists Σ. split_and!; [by apply extends_refl|done|auto| |].
    - intros f l Hf. by left.
    - intros sf v Hin. by apply elem_of_nil in Hin. }
  rewrite fmap_cons in Hnd. apply NoDup_cons in Hnd as [Hsf Hnd].
  apply bind_Ok_inv in H as (p1 & h1 & Hm & H).
  assert (Hty' : ∀ sf' v, sf' ∈ ts → Name sf' = "AnnounceOriginated" →
                   d !! Tag_yaml sf' = Some v → ∃ b, v = VBool b).
  { intros sf' v Hin. apply Hty. by right. }
  assert (Hstep : (p1 = p ∧ h1 = h ∧
                   (Tag_yaml sf = "-" ∨ d !! Tag_yaml sf = None)) ∨
                  (∃ v, Tag_yaml sf ≠ "-" ∧ d !! Tag_yaml sf = Some v ∧
                        p1 = <[Name sf := length h]> p ∧ h1 = h ++ [v])).
  { unfold decode_field in Hm. case_decide.
    - inv_step Hm. left. auto.
    - destruct (d !! Tag_yaml sf) as [v|].
      + inv_step Hm. inv_step Hm. inv_step Hm0. right. by exists v.
      + inv_step Hm. left. auto. }
  clear Hm. destruct Hstep as [(-> & -> & Hno)|(v & Hvis & Hd & -> & ->)].
  - assert (Hfresh1 : ∀ sf', sf' ∈ ts → p !! Name sf' = None).
    { intros sf' Hin. apply Hfresh. by right. }
    destruct (IH _ _ _ _ _ Hnd Hfresh1 Hty' Hok Htag H)
      as (Σ' & He' & Htag' & Hkeep & Hfrom & Hto).
    exists Σ'. split_and!; [done..| |].
    + intros f l Hf. destruct (Hfrom f l Hf) as [?|(sf' & v & ? & ?)]; [by left|].
      right. exists sf', v. split; [by right|done].
    + intros sf' v Hin Hv Hd. apply elem_of_cons in Hin as [->|Hin].
      * destruct Hno; congruence.
      * by eapply Hto.
  - assert (Hfresh1 : ∀ sf', sf' ∈ ts →
                        <[Name sf := length h]> p !! Name sf' = None).
    { intros sf' Hin. rewrite lookup_insert_ne.
      - apply Hfresh. by right.
      - intros Heq. destruct Hsf. rewrite Heq. by apply list_elem_of_fmap_2. }
    destruct (extends_new false Σ h Σ h (Name sf) v) as [He1 Hl1].
    { by apply extends_refl. }
    { intros Hn. eapply Hty; [by left|done..]. }
    assert (Htag1 : tagged (Σ ++ [Name sf]) (<[Name sf := length h]> p)).
    { apply tagged_insert; [|done].
      eapply tagged_mono; [done|]. by apply prefix_app_r. }
    destruct (IH _ _ _ _ _ Hnd Hfresh1 Hty' (extends_store_ok _ _ _ _ _ He1)
                Htag1 H)
      as (Σ' & He' & Htag' & Hkeep & Hfrom & Hto).
    assert (Hnew : p' !! Name sf = Some (length h) ∧ h' !! length h = Some v).
    { split; [apply Hkeep, lookup_insert_eq|].
      eapply (extends_lookup false (Σ ++ [Name sf]) (h ++ [v]));
        [done|by apply list_lookup_middle|done|by right]. }
    exists Σ'. split_and!; [by eapply extends_trans|done| | |].
    + intros f l Hf. apply Hkeep. rewrite lookup_insert_ne; [done|].
      intros <-. rewrite Hfresh in Hf; [done|by left].
    + intros f l Hf. destruct (Hfrom f l Hf) as [Hf'|(sf' & v' & ? & ?)].
      * rewrite lookup_insert in Hf'. case_decide as Heq; [|by left].
        simplify_eq. right. exists sf, v. split_and!; [by left|done..|].
        apply Hnew.
      * right. exists sf', v'. split; [by right|done].
    + intros sf' v' Hin Hv Hd'. apply elem_of_cons in Hin as [->|Hin].
      * simplify_eq. by exists (length h).
      * by eapply Hto.
Qed.

Lemma extends_false_lookup Σ h Σ' h' l v :
  extends false Σ h Σ' h' → h !! l = Some v → h' !! l = Some v.
Proof. intros (_ & _ & _ & Hf) Hl. destruct (Hf l v Hl) as [?|(? & _)]; done. Qed.

Lemma decoded_mono t Σ h Σ' h' d p :
  decoded t h d p → extends false Σ h Σ' h' → decoded t h' d p.
Proof.
  intros (Hfrom & Hto & Hkeys) He. split_and!; [| |done].
  - intros f l Hf. destruct (Hfrom f l Hf) as (sf & v & ? & ? & ? & ? & Hv).
    exists sf, v. split_and!; [done..|]. by eapply extends_false_lookup.
  - intros sf v Hin Hvis Hd. destruct (Hto sf v Hin Hvis Hd) as (l & ? & Hv).
    exists l. split; [done|]. by eapply extends_false_lookup.
Qed.

Lemma decoded_entry_mono t Σ h Σ' h' nd np :
  decoded_entry t Σ h nd np → extends false Σ h Σ' h' →
  decoded_entry t Σ' h' nd np.
Proof.
  intros (Hn & Htag & Hdec) He. split_and!; [done| |].
  - eapply tagged_mono; [done|]. by eapply extends_prefix.
  - by eapply decoded_mono.
Qed.

Lemma key_ok_inv t k v :
  key_ok t (k, v) = true →
  ∃ sf, lookup_yaml t k = Some sf ∧ kind_of v = Elem_Kind sf.
Proof.
  unfold key_ok. simpl. destruct (lookup_yaml t k) as [sf|]; [|done].
  intros H. apply bool_decide_eq_true in H. eauto.
Qed.

Lemma lookup_yaml_Some t k sf :
  lookup_yaml t k = Some sf → sf ∈ t ∧ Tag_yaml sf = k ∧ k ≠ "-".
Proof.
  unfold lookup_yaml. intros H. apply find_some in H as [Hin Hb].
  apply bool_decide_eq_true in Hb as [? ?].
  split; [by apply list_elem_of_In|done].
Qed.

(** The value a document gives to a field has the field's kind. *)
Lemma decoded_kind t d p h sf v :
  schema_ok t → decoded t h d p → sf ∈ t → Tag_yaml sf ≠ "-" →
  d !! Tag_yaml sf = Some v → kind_of v = Elem_Kind sf.
Proof.
  intros Hs (_ & _ & Hkeys) Hin Hvis Hd.
  destruct (key_ok_inv _ _ _ (Hkeys _ _ Hd)) as (sf' & Hl & Hk).
  rewrite lookup_yaml_elem in Hl; [|apply Hs|done..]. by simplify_eq.
Qed.

Lemma special_field t sf :
  schema_ok t → sf ∈ special_fields → sf ∈ t.
Proof. intros Hs Hin. by apply (schema_special _ Hs). Qed.

(** A field of the type that has the name of one of the fields the code
    names is that field. *)
Lemma special_field_eq t sf sf' :
  schema_ok t → sf' ∈ special_fields → sf ∈ t → Name sf = Name sf' → sf = sf'.
Proof.
  intros Hs Hin' Hin Hn.
  eapply field_unique; [apply Hs|done|by eapply special_field|done].
Qed.

Lemma Unmarshal_Peer_spec t nd Σ h np h' :
  schema_ok t → store_ok Σ h →
  Unmarshal_Peer t nd h = Ok (np, h') →
  ∃ Σ', extends false Σ h Σ' h' ∧ decoded_entry t Σ' h' nd np.
Proof.
  intros Hs Hok H. unfold Unmarshal_Peer in H.
  destruct (find _ _) as [kv|] eqn:Hfind; [done|].
  inv_step H. inv_step H.
  assert (Hkeys : ∀ k v, nd.2 !! k = Some v → key_ok t (k, v) = true).
  { intros k v Hk. apply elem_of_map_to_list in Hk.
    apply list_elem_of_In in Hk.
    pose proof (find_none _ _ Hfind _ Hk) as Hb. simpl in Hb.
    by apply negb_false_iff in Hb. }
  destruct (decode_fields_spec nd.2 t ∅ Σ h a h') as
    (Σ' & He & Htag & _ & Hfrom & Hto); [apply Hs|done| |done|apply tagged_empty|done|].
  { intros sf v Hin Hn Hd.
    assert (sf = field "AnnounceOriginated" reflect.Bool
                   "announce-originated" "true") as ->.
    { eapply special_field_eq; [done| |done..]. set_solver. }
    destruct (key_ok_inv _ _ _ (Hkeys _ _ Hd)) as (sf' & Hl & Hk).
    rewrite lookup_yaml_elem in Hl; [|apply Hs|done..]. simplify_eq.
    destruct v; try done. eauto. }
  exists Σ'. split; [done|]. split_and!; [done..|].
  split_and!; [|done..].
  intros f l Hf. destruct (Hfrom f l Hf) as [Hf'|?]; [|done].
  by rewrite lookup_empty in Hf'.
Qed.

Lemma Unmarshal_spec t d peers templates h :
  schema_ok t →
  Unmarshal t d [] = Ok ((peers, templates), h) →
  ∃ Σ, store_ok Σ h ∧
    Forall2 (decoded_entry t Σ h) (Doc.Peers d) peers ∧
    Forall2 (decoded_entry t Σ h) (Doc.Templates d) templates.
Proof.
  intros Hs H. unfold Unmarshal in H.
  apply bind_Ok_inv in H as (ps & h1 & Hp & H).
  apply bind_Ok_inv in H as (ts & h2 & Ht & H). inv_M.
  assert (Hok0 : store_ok [] []).
  { split; [done|]. intros l Hl. by rewrite lookup_nil in Hl. }
  assert (Hstep : ∀ Σ h1 nd np h1', store_ok Σ h1 → True →
            Unmarshal_Peer t nd h1 = Ok (np, h1') →
            ∃ Σ', extends false Σ h1 Σ' h1' ∧ decoded_entry t Σ' h1' nd np).
  { intros Σ hx nd np hx' Hok _ Hu. by eapply Unmarshal_Peer_spec. }
  assert (Hmono : ∀ Σ h1 Σ' h1' nd np, decoded_entry t Σ h1 nd np →
            extends false Σ h1 Σ' h1' → decoded_entry t Σ' h1' nd np).
  { intros. by eapply decoded_entry_mono. }
  destruct (forM_spec (Unmarshal_Peer t) false (λ _ _ _, True)
              (decoded_entry t) ltac:(done) Hmono Hstep
              (Doc.Peers d) [] [] peers h1 Hok0) as (Σ1 & He1 & HF1);
    [by apply Forall_true|done|].
  destruct (forM_spec (Unmarshal_Peer t) false (λ _ _ _, True)
              (decoded_entry t) ltac:(done) Hmono Hstep
              (Doc.Templates d) Σ1 h1 templates h
              (extends_store_ok _ _ _ _ _ He1)) as (Σ2 & He2 & HF2);
    [by apply Forall_true|done|].
  exists Σ2. split_and!; [by eapply extends_store_ok| |done].
  eapply Forall2_impl; [done|]. intros nd np Hd.
  by eapply decoded_entry_mono.
Qed.

(** The type [Peer] of the package is as [Load] needs it. *)
Lemma Peer_type_ok : schema_ok Peer_type.
Proof.
  split.
  - apply (bool_decide_unpack _). by vm_compute.
  - apply (bool_decide_unpack _). by vm_compute.
  - intros sf Hin. unfold special_fields in Hin.
    repeat (apply elem_of_cons in Hin as [->|Hin];
            [apply (bool_decide_unpack _); by vm_compute|]).
    by apply elem_of_nil in Hin.
  - apply (bool_decide_unpack _). by vm_compute.
Qed.

(** ** The first loop over the peers *)

(** Assigning from the template: pointers that are set stay, and a
    pointer that was nil becomes the template's. *)
Lemma merge_fields_spec (template : Peer) ts :
  ∀ p : Peer,
    let p' := fold_left (merge_field template) ts p in
    (∀ f l, p !! f = Some l → p' !! f = Some l) ∧
    (∀ f l, p' !! f = Some l →
       p !! f = Some l ∨ (template !! f = Some l ∧ f ≠ "Template")) ∧
    (∀ sf l, sf ∈ ts → Name sf ≠ "Template" → p !! Name sf = None →
       template !! Name sf = Some l → p' !! Name sf = Some l).
Proof.
  induction ts as [|sf ts IH]; intros p; simpl.
  { split_and!; [auto|auto|]. intros sf l Hin. by apply elem_of_nil in Hin. }
  destruct (IH (merge_field template p sf)) as (Hkeep & Hfrom & Hmerge).
  assert (Hk1 : ∀ f l, p !! f = Some l → merge_field template p sf !! f = Some l).
  { intros f l Hf. unfold merge_field. case_decide; [|done].
    destruct (template !! Name sf) as [tl|]; [|done].
    destruct (p !! Name sf) eqn:E; [done|].
    rewrite lookup_insert_ne; [done|]. congruence. }
  assert (Hf1 : ∀ f l, merge_field template p sf !! f = Some l →
                  p !! f = Some l ∨ (template !! f = Some l ∧ f ≠ "Template")).
  { intros f l. unfold merge_field. case_decide; [|auto].
    destruct (template !! Name sf) as [tl|] eqn:Et; [|auto].
    destruct (p !! Name sf) eqn:E; [auto|].
    rewrite lookup_insert. case_decide; [|auto].
    intros [= <-]. subst f. auto. }
  split_and!.
  - intros f l Hf. by apply Hkeep, Hk1.
  - intros f l Hf. destruct (Hfrom f l Hf) as [Hf'|?]; [|by right].
    by apply Hf1.
  - intros sf' l Hin Hne Hnil Ht. apply elem_of_cons in Hin as [->|Hin].
    + apply Hkeep. unfold merge_field. rewrite decide_True by done.
      rewrite Ht, Hnil. apply lookup_insert_eq.
    + destruct (merge_field template p sf !! Name sf') as [l'|] eqn:E.
      * apply Hkeep. destruct (Hf1 _ _ E) as [?|[? _]]; congruence.
      * by apply Hmerge.
Qed.

Lemma assign_template_spec t templates (p : Peer) h p' h' :
  assign_template t templates p h = Ok (p', h') →
  h' = h ∧
  (∀ f l, p !! f = Some l → p' !! f = Some l) ∧
  (∀ f l, p' !! f = Some l →
     p !! f = Some l ∨
     ∃ tn tmpl, list_to_map (M := gmap string Peer) templates !! tn = Some tmpl ∧
                tmpl !! f = Some l ∧ f ≠ "Template") ∧
  match p !! "Template" with
  | None => p' = p
  | Some lt =>
      ∃ tn, h !! lt = Some (VString tn) ∧
        if decide (tn = "") then p' = p
        else ∃ tmpl,
          list_to_map (M := gmap string Peer) templates !! tn = Some tmpl ∧
          ∀ sf l, sf ∈ t → Name sf ≠ "Template" → p !! Name sf = None →
            tmpl !! Name sf = Some l → p' !! Name sf = Some l
  end.
Proof.
  unfold assign_template. intros H.
  destruct (p !! "Template") as [lt|] eqn:Et.
  2:{ inv_M. auto. }
  apply bind_Ok_inv in H as (a & h1 & Hm & H).
  apply load_string_inv in Hm as [Hm ->].
  destruct (decide (a ≠ "")) as [Hne|Heq].
  2:{ inv_M. split_and!; [done|auto|auto|].
      exists a. split; [done|]. rewrite decide_True; [done|].
      by destruct (decide (a = "")). }
  destruct (list_to_map templates !! a) as [tmpl|] eqn:Elook; [|done].
  inv_M.
  destruct (merge_fields_spec tmpl t p) as (Hkeep & Hfrom & Hmerge).
  split_and!; [done|done| |].
  - intros f l Hf. destruct (Hfrom f l Hf) as [?|[? ?]]; [by left|].
    right. by exists a, tmpl.
  - exists a. split; [done|]. rewrite decide_False by done.
    exists tmpl. split; [done|]. exact Hmerge.
Qed.

(** Setting the defaults.  Writes go to the cell of [BooleanOptions],
    which the round of this peer has made. *)
Lemma set_defaults_spec w Σs hs ts :
  ∀ (p : Peer) Σ h p' h',
    (∀ sf, sf ∈ ts → Name sf = "AnnounceOriginated" →
       Elem_Kind sf = reflect.Bool) →
    extends w Σs hs Σ h → tagged Σ p →
    (∀ lb, p !! "BooleanOptions" = Some lb → (length hs ≤ lb)%nat) →
    foldM set_default ts p h = Ok (p', h') →
    ∃ Σ', extends w Σs hs Σ' h' ∧ Σ `prefix_of` Σ' ∧ tagged Σ' p' ∧
      (∀ f l, p !! f = Some l → p' !! f = Some l) ∧
      (∀ f l, p' !! f = Some l →
         p !! f = Some l ∨
         ∃ sf, sf ∈ ts ∧ Name sf = f ∧ Tag_default sf ≠ "-") ∧
      (∀ sf, sf ∈ ts → Tag_default sf ≠ "-" → default_ok sf = true →
         is_Some (p' !! Name sf)) ∧
      (∀ sf, sf ∈ ts → Tag_default sf ≠ "").
Proof.
  induction ts as [|sf ts IH]; intros p Σ h p' h' Hao He Htag Hbo H; simpl in H.
  { inv_step H. exists Σ. split_and!; [done..|auto|auto| |].
    - intros sf Hin. by apply elem_of_nil in Hin.
    - intros sf Hin. by apply elem_of_nil in Hin. }
  apply bind_Ok_inv in H as (p1 & h1 & Hm & H).
  assert (Hao' : ∀ sf', sf' ∈ ts → Name sf' = "AnnounceOriginated" →
                   Elem_Kind sf' = reflect.Bool).
  { intros sf' Hin. apply Hao. by right. }
  (* one round *)
  pose proof (extends_length _ _ _ _ _ He) as Hlen.
  assert (Hstep : Tag_default sf ≠ "" ∧
            ∃ Σ1, extends w Σs hs Σ1 h1 ∧ Σ `prefix_of` Σ1 ∧ tagged Σ1 p1 ∧
              (∀ f l, p !! f = Some l → p1 !! f = Some l) ∧
              (∀ f l, p1 !! f = Some l →
                 p !! f = Some l ∨
                 (Name sf = f ∧ Tag_default sf ≠ "-" ∧ (length hs ≤ l)%nat)) ∧
              (Tag_default sf ≠ "-" → default_ok sf = true →
                 is_Some (p1 !! Name sf))).
  { unfold set_default in Hm.
    destruct (decide (Tag_default sf = "")) as [|Hne]; [done|]. split; [done|].
    destruct (decide (Tag_default sf ≠ "-")) as [Hdef|Hnodef].
    2:{ inv_M. exists Σ. split_and!; [done..|auto|auto|done]. }
    destruct (p !! Name sf) as [l0|] eqn:Ef.
    { (* the field is set *)
      assert (p1 = p ∧ ∃ Σ1, extends w Σs hs Σ1 h1 ∧ Σ `prefix_of` Σ1)
        as [-> (Σ1 & He1 & Hpre)].
      { destruct (decide (Elem_Kind sf = reflect.Bool)).
        - destruct (p !! "BooleanOptions") as [lb|] eqn:Eb; [|done].
          inv_M. split; [done|]. exists Σ. split; [|done].
          eapply extends_store_new; [done|by apply Hbo|by apply Htag|done].
        - inv_M. split; [done|]. by exists Σ. }
      exists Σ1. split_and!; [done|done|by eapply tagged_mono|auto|auto|].
      intros _ _. by rewrite Ef. }
    (* the field is nil: a new cell for the default *)
    assert (Hnew : ∀ v, (Name sf = "AnnounceOriginated" → ∃ b, v = VBool b) →
              p1 = <[Name sf := length h]> p → h1 = h ++ [v] →
              ∃ Σ1, extends w Σs hs Σ1 h1 ∧ Σ `prefix_of` Σ1 ∧ tagged Σ1 p1 ∧
                (∀ f l, p !! f = Some l → p1 !! f = Some l) ∧
                (∀ f l, p1 !! f = Some l →
                   p !! f = Some l ∨
                   (Name sf = f ∧ Tag_default sf ≠ "-" ∧ (length hs ≤ l)%nat)) ∧
                (Tag_default sf ≠ "-" → default_ok sf = true →
                   is_Some (p1 !! Name sf))).
    { intros v Hv -> ->.
      destruct (extends_new w Σs hs Σ h (Name sf) v He Hv) as [He1 Hl1].
      exists (Σ ++ [Name sf]). split_and!; [done|by apply prefix_app_r| | | |].
      - apply tagged_insert; [|done].
        eapply tagged_mono; [done|by apply prefix_app_r].
      - intros f l Hf. rewrite lookup_insert_ne; [done|congruence].
      - intros f l. rewrite lookup_insert. case_decide; [|auto].
        intros [= <-]. auto.
      - intros _ _. rewrite lookup_insert_eq. eauto. }
    destruct (Elem_Kind sf) eqn:Ek.
    - inv_M.
      eapply Hnew; [|done..]. intros Hn. rewrite Hao in Ek; [done|by left|done].
    - destruct (strconv.Atoi (Tag_default sf)) as [n|]; [|done].
      inv_M.
      eapply Hnew; [|done..]. intros Hn. rewrite Hao in Ek; [done|by left|done].
    - done.
    - destruct (strconv.ParseBool (Tag_default sf)) as [b|]; [|done].
      inv_M.
      eapply Hnew; [|done..]. eauto.
    - inv_M. exists Σ. split_and!; [done..|auto|auto|].
      intros _. unfold default_ok. rewrite Ek.
      rewrite (bool_decide_eq_false_2 (Tag_default sf = "-")) by done.
      by rewrite andb_false_r.
    - done.
    - inv_M. exists Σ. split_and!; [done..|auto|auto|].
      intros _. unfold default_ok. rewrite Ek.
      rewrite (bool_decide_eq_false_2 (Tag_default sf = "-")) by done.
      by rewrite andb_false_r. }
  clear Hm. destruct Hstep as (Hd & Σ1 & He1 & Hpre1 & Htag1 & Hkeep1 & Hfrom1 & Hdef1).
  assert (Hbo1 : ∀ lb, p1 !! "BooleanOptions" = Some lb → (length hs ≤ lb)%nat).
  { intros lb Hlb. destruct (Hfrom1 _ _ Hlb) as [?|(_ & _ & ?)]; [by apply Hbo|done]. }
  destruct (IH _ _ _ _ _ Hao' He1 Htag1 Hbo1 H)
    as (Σ' & He' & Hpre' & Htag' & Hkeep' & Hfrom' & Hdef' & Hall').
  exists Σ'. split_and!; [done|by etrans|done|auto| | |].
  - intros f l Hf. destruct (Hfrom' f l Hf) as [Hf'|(sf' & ? & ? & ?)].
    + destruct (Hfrom1 f l Hf') as [?|(? & ? & ?)]; [by left|].
      right. exists sf. split; [by left|done].
    + right. exists sf'. split; [by right|done].
  - intros sf' Hin Hdf Hdok. apply elem_of_cons in Hin as [->|Hin].
    + destruct (Hdef1 Hdf Hdok) as [l Hl]. exists l. by apply Hkeep'.
    + by apply Hdef'.
  - intros sf' Hin. apply elem_of_cons in Hin as [->|Hin]; [done|by apply Hall'].
Qed.

Lemma resolved1_mono t templates Σ h Σ' h' np0 np1 :
  resolved1 t templates Σ h np0 np1 → extends false Σ h Σ' h' →
  resolved1 t templates Σ' h' np0 np1.
Proof.
  intros (Hn & Ht0 & Ht1 & Hkeep & Hfrom & Hnb & Htm & Hdef) He.
  pose proof (extends_prefix _ _ _ _ _ He) as Hpre.
  split_and!; [done|by eapply tagged_mono|by eapply tagged_mono|done|done| | |done].
  - destruct Hnb as (l & ips & ? & Hl & ?). exists l, ips.
    split_and!; [done| |done]. by eapply extends_false_lookup.
  - destruct (np0.2 !! "Template") as [lt|]; [|done].
    destruct Htm as (tn & Hl & Htm). exists tn. split; [|done].
    by eapply extends_false_lookup.
Qed.

Lemma resolve_peer_spec rt t templates Σ h n (p : Peer) q n' p' q' h' :
  schema_ok t → store_ok Σ h → tagged Σ p →
  Forall (λ nt : string * Peer, tagged Σ nt.2) templates →
  resolve_peer rt t templates (n, p, q) h = Ok ((n', p', q'), h') →
  ∃ Σ', extends false Σ h Σ' h' ∧
        resolved1 t templates Σ' h' (n, p) (n', p') ∧
        q' = q || has_NVRS (n, p).
Proof.
  intros Hs Hok Htag Htmpl H. unfold resolve_peer in H.
  apply bind_Ok_inv in H as (lname & h1 & Hm & H).
  apply new_inv in Hm as [-> ->].
  apply bind_Ok_inv in H as ([] & h2 & Hnb & H).
  apply bind_Ok_inv in H as (lopts & h3 & Hm & H).
  apply new_inv in Hm as [-> ->].
  apply bind_Ok_inv in H as (pc & h4 & Hat & H).
  apply bind_Ok_inv in H as (pd & h5 & Hdf & H).
  inv_M.
  set (pa := <["ProtocolName" := length h]> p) in *.
  set (pb := <["BooleanOptions" := length h2]> pa) in *.
  assert (Hvalid : ∀ f l, p !! f = Some l → (l < length h)%nat).
  { intros f l Hf. destruct Hok as [<- _]. eapply lookup_lt_Some, Htag, Hf. }
  (* the neighbors *)
  assert (Hnb' : h2 = h ++ [VString (Sanitize rt n')] ∧
            ∃ l ips, p !! "NeighborIPs" = Some l ∧
                     h !! l = Some (VSlice ips) ∧ ips ≠ []).
  { destruct (pa !! "NeighborIPs") as [l|] eqn:El; [|done].
    apply bind_Ok_inv in Hnb as (ips & hx & Hl & Hnb).
    apply load_slice_inv in Hl as [Hl ->].
    case_decide; [done|]. inv_M. split; [done|].
    unfold pa in El. rewrite lookup_insert_ne in El by done.
    exists l, ips. split_and!; [done| |].
    - rewrite lookup_app_l in Hl; [done|by eapply Hvalid].
    - intros ->. simpl in *. lia. }
  destruct Hnb' as [-> (ln & ips & Hln & Hips & Hne)].
  (* the two new cells *)
  destruct (extends_new false Σ h Σ h "ProtocolName" (VString (Sanitize rt n')))
    as [He1 Hl1]; [by apply extends_refl|done|].
  destruct (extends_new false Σ h _ _ "BooleanOptions" (VSlice []) He1)
    as [He2 Hl2]; [done|].
  set (Σ2 := (Σ ++ ["ProtocolName"]) ++ ["BooleanOptions"]) in *.
  assert (Hpre2 : Σ `prefix_of` Σ2) by by eapply extends_prefix.
  assert (Htagb : tagged Σ2 pb).
  { apply tagged_insert; [|done]. apply tagged_insert.
    - by eapply tagged_mono.
    - eapply prefix_lookup_Some; [done|]. by apply prefix_app_r. }
  (* the template *)
  apply assign_template_spec in Hat as (-> & Hkeepc & Hfromc & Htc).
  assert (Htagc : tagged Σ2 pc).
  { intros f l Hf. destruct (Hfromc f l Hf) as [?|(tn & tmpl & Hlook & Hf' & _)].
    - by apply Htagb.
    - apply elem_of_list_to_map_2 in Hlook.
      rewrite Forall_forall in Htmpl. apply Htmpl in Hlook.
      eapply tagged_mono; [exact Hlook|done|done]. }
  (* the defaults *)
  assert (Hbo : pc !! "BooleanOptions"
                = Some (length (h ++ [VString (Sanitize rt n')]))).
  { apply Hkeepc. apply lookup_insert_eq. }
  assert (Hao : ∀ sf, sf ∈ t → Name sf = "AnnounceOriginated" →
                  Elem_Kind sf = reflect.Bool).
  { intros sf Hin Hn.
    assert (sf = field "AnnounceOriginated" reflect.Bool
                   "announce-originated" "true") as ->; [|done].
    eapply special_field_eq; [done| |done..]. set_solver. }
  assert (Hbo' : ∀ lb, pc !! "BooleanOptions" = Some lb → (length h ≤ lb)%nat).
  { intros lb Hlb. rewrite Hbo in Hlb. simplify_eq.
    rewrite length_app. lia. }
  destruct (set_defaults_spec false Σ h t pc Σ2 _ p' h' Hao He2 Htagc Hbo' Hdf)
    as (Σ' & He' & Hpre' & Htagd & Hkeepd & Hfromd & Hdefd & _).
  exists Σ'. split_and!; [done| |].
  2:{ unfold has_NVRS, pa. simpl. rewrite lookup_insert_ne by done.
      destruct (p !! "FilterNeverViaRouteServers") eqn:E.
      - rewrite bool_decide_eq_true_2 by eauto. by rewrite orb_true_r.
      - rewrite bool_decide_eq_false_2; [by rewrite orb_false_r|].
        by intros [? ?]. }
  assert (Hpb : ∀ f, f ≠ "ProtocolName" → f ≠ "BooleanOptions" →
                  pb !! f = p !! f).
  { intros f ? ?. unfold pb, pa. by rewrite !lookup_insert_ne. }
  split_and!; simpl.
  - done.
  - eapply tagged_mono; [done|]. by eapply extends_prefix.
  - done.
  - intros f l ? ? Hf. apply Hkeepd, Hkeepc. by rewrite Hpb.
  - intros f l Hf.
    destruct (decide (f = "ProtocolName")); [by left|].
    destruct (decide (f = "BooleanOptions")); [by right; left|].
    destruct (Hfromd f l Hf) as [Hf'|?]; [|by right; right; right; right].
    destruct (Hfromc f l Hf') as [Hf''|?]; [|by right; right; right; left].
    right; right; left. by rewrite <- Hpb.
  - exists ln, ips. split_and!; [done| |done].
    by eapply extends_false_lookup.
  - rewrite Hpb in Htc by done.
    destruct (p !! "Template") as [lt|] eqn:Et; [|done].
    destruct Htc as (tn & Hlt & Htc). exists tn. split.
    + eapply extends_false_lookup; [done|].
      rewrite !lookup_app_l in Hlt; [done|by eapply Hvalid|].
      rewrite length_app. apply Hvalid in Et. lia.
    + intros Hne'. rewrite decide_False in Htc by done.
      destruct Htc as (tmpl & Hlook & Hmerge). exists tmpl. split; [done|].
      intros sf l Hin Hnot Hnil Ht. apply Hkeepd.
      apply Hmerge; [done| |by rewrite Hpb by set_solver|done].
      set_solver.
  - intros sf Hin Hd. apply Hdefd; [done..|].
    pose proof (schema_defaults _ Hs) as Hall.
    rewrite Forall_forall in Hall. by apply Hall.
Qed.

Arguments resolve_peer : simpl never.

(** The first loop: every peer is resolved, and the flag is set when a
    peer has [FilterNeverViaRouteServers] set. *)
Lemma peers_loop_spec rt t templates :
  schema_ok t →
  ∀ peers Σ h q peers' q' h',
    store_ok Σ h →
    Forall (λ np : string * Peer, tagged Σ np.2) peers →
    Forall (λ nt : string * Peer, tagged Σ nt.2) templates →
    peers_loop rt t templates peers q h = Ok ((peers', q'), h') →
    ∃ Σ', extends false Σ h Σ' h' ∧
          Forall2 (resolved1 t templates Σ' h') peers peers' ∧
          q' = q || existsb has_NVRS peers.
Proof.
  intros Hs peers.
  induction peers as [|[n p] peers IH]; intros Σ h q peers' q' h' Hok Hp Ht H;
    simpl in H.
  { inv_M. exists Σ. split_and!; [by apply extends_refl|constructor|].
    by rewrite orb_false_r. }
  apply bind_Ok_inv in H as ([[n1 p1] q1] & h1 & Hm & H).
  apply bind_Ok_inv in H as ([rest q2] & h2 & Hrest & H).
  inv_M.
  apply Forall_cons in Hp as [Hp Hps].
  destruct (resolve_peer_spec _ _ _ _ _ _ _ _ _ _ _ _ Hs Hok Hp Ht Hm)
    as (Σ1 & He1 & HQ1 & ->).
  pose proof (extends_prefix _ _ _ _ _ He1) as Hpre1.
  assert (Hps1 : Forall (λ np : string * Peer, tagged Σ1 np.2) peers).
  { eapply Forall_impl; [exact Hps|]. intros np Hnp.
    exact (tagged_mono _ _ _ Hnp Hpre1). }
  assert (Ht1 : Forall (λ np : string * Peer, tagged Σ1 np.2) templates).
  { eapply Forall_impl; [exact Ht|]. intros np Hnp.
    exact (tagged_mono _ _ _ Hnp Hpre1). }
  destruct (IH Σ1 h1 _ _ _ _ (extends_store_ok _ _ _ _ _ He1) Hps1 Ht1 Hrest)
    as (Σ2 & He2 & HF & ->).
  exists Σ2. split_and!; [exact (extends_trans _ _ _ _ _ _ _ He1 He2)| |].
  - constructor; [|done].
    eapply resolved1_mono in HQ1; [|done].
    destruct HQ1 as (Hn & ?). split; [|done]. done.
  - simpl. by rewrite orb_assoc.
Qed.

(** ** The second loop over the peers *)

Lemma holds_deref_list h p f x : holds h p f x → deref_list h p f = x.
Proof.
  unfold holds, deref_list, deref. destruct (p !! f) as [l|]; simpl.
  - by intros ->.
  - by intros ->.
Qed.

Lemma writes_only_refl X Σ h : writes_only X Σ h h.
Proof. by intros l v g. Qed.

Lemma writes_only_trans X Σ Σ' h1 h2 h3 :
  Σ `prefix_of` Σ' →
  writes_only X Σ h1 h2 → writes_only X Σ' h2 h3 → writes_only X Σ h1 h3.
Proof.
  intros Hpre H1 H2 l v g Hl Hg Hx. eapply H2; [by eapply H1| |done].
  by eapply prefix_lookup_Some.
Qed.

Lemma writes_only_mono X Y Σ h h' :
  X ⊆ Y → writes_only X Σ h h' → writes_only Y Σ h h'.
Proof. intros Hsub H l v g Hl Hg Hy. eapply H; [done..|]. set_solver. Qed.

(** A list field keeps holding what it holds when the writes go to the
    cells of other fields. *)
Lemma holds_writes_only X Σ h h' (p : Peer) f x :
  tagged Σ p → f ∉ X → writes_only X Σ h h' → holds h p f x → holds h' p f x.
Proof.
  unfold holds. intros Htag Hf Hw. destruct (p !! f) as [l|] eqn:E; [|done].
  intros Hl. eapply Hw; [done|by apply Htag|done].
Qed.

Lemma holds_extends w Σ h Σ' h' (p : Peer) f x :
  tagged Σ p → f ≠ "AnnounceOriginated" → extends w Σ h Σ' h' →
  holds h p f x → holds h' p f x.
Proof.
  unfold holds. intros Htag Hf He. destruct (p !! f) as [l|] eqn:E; [|done].
  intros Hl. eapply extends_lookup; [done|done|by apply Htag|by left].
Qed.

Lemma append_to_spec w Σs hs Σ h f (p : Peer) x xs p' h' :
  extends w Σs hs Σ h → tagged Σ p →
  (∀ l, p !! f = Some l → (length hs ≤ l)%nat) →
  f ≠ "AnnounceOriginated" → holds h p f xs →
  append_to f p x h = Ok (p', h') →
  ∃ Σ', extends w Σs hs Σ' h' ∧ Σ `prefix_of` Σ' ∧ tagged Σ' p' ∧
    (∀ g, g ≠ f → p' !! g = p !! g) ∧
    (∃ l, p' !! f = Some l ∧ (length hs ≤ l)%nat) ∧
    holds h' p' f (xs ++ [x]) ∧
    writes_only [f] Σ h h'.
Proof.
  intros He Htag Hb Hf Hx H. unfold append_to in H.
  pose proof (extends_length _ _ _ _ _ He) as Hlen.
  apply bind_Ok_inv in H as ([l p1] & h1 & Hm & H).
  apply bind_Ok_inv in H as (old & h2 & Hl & H).
  apply load_slice_inv in Hl as [Hl ->].
  apply bind_Ok_inv in H as ([] & h3 & Hst & H).
  apply store_inv in Hst as [Hlt ->]. inv_M.
  unfold holds in Hx. destruct (p !! f) as [l0|] eqn:Ef.
  - inv_M.
    exists Σ. split_and!; [|done|done|done| | |].
    + eapply extends_store_new; [done|by apply Hb|by apply Htag|done].
    + eexists. split; [done|by apply Hb].
    + unfold holds. rewrite Ef. by apply list_lookup_insert_eq.
    + intros l' v g Hl' Hg Hne. rewrite list_lookup_insert_ne; [done|].
      intros <-. apply Htag in Ef. set_solver.
  - inv_M.
    destruct (extends_new w Σs hs Σ h f (VSlice []) He) as [He1 Ht1]; [done|].
    rewrite lookup_app_r, Nat.sub_diag in Hl by done. simpl in Hl. simplify_eq.
    exists (Σ ++ [f]). split_and!; [|by apply prefix_app_r| | | | |].
    + eapply extends_store_new; [done|lia|done|done].
    + apply tagged_insert; [|done].
      eapply tagged_mono; [done|by apply prefix_app_r].
    + intros g Hg. by rewrite lookup_insert_ne.
    + exists (length h). split; [apply lookup_insert_eq|lia].
    + unfold holds. rewrite lookup_insert_eq.
      apply list_lookup_insert_eq. rewrite length_app. simpl. lia.
    + intros l' v g Hl' Hg Hne.
      assert (l' < length h)%nat by by eapply lookup_lt_Some.
      rewrite list_lookup_insert_ne by lia. by rewrite lookup_app_l.
Qed.

Lemma add_communities_spec w Σs hs what std lrg cs :
  std ≠ lrg → std ≠ "AnnounceOriginated" → lrg ≠ "AnnounceOriginated" →
  ∀ (p : Peer) Σ h xs xl p' h',
    extends w Σs hs Σ h → tagged Σ p →
    (∀ l, p !! std = Some l → (length hs ≤ l)%nat) →
    (∀ l, p !! lrg = Some l → (length hs ≤ l)%nat) →
    holds h p std xs → holds h p lrg xl →
    foldM (add_community what std lrg) cs p h = Ok (p', h') →
    ∃ Σ', extends w Σs hs Σ' h' ∧ Σ `prefix_of` Σ' ∧ tagged Σ' p' ∧
      (∀ g, g ≠ std → g ≠ lrg → p' !! g = p !! g) ∧
      Forall (λ c, categorizeCommunity c ≠ "") cs ∧
      holds h' p' std (xs ++ filter is_standard cs) ∧
      holds h' p' lrg
        (xl ++ ((λ c, strings.ReplaceAll c ":" ",") <$> filter is_large cs)) ∧
      writes_only [std; lrg] Σ h h'.
Proof.
  intros Hsl Hs Hl.
  induction cs as [|c cs IH]; intros p Σ h xs xl p' h' He Htag Hbs Hbl Hxs Hxl H;
    simpl in H.
  { inv_M. exists Σ. rewrite !filter_nil, fmap_nil, !app_nil_r.
    split_and!; [done..|constructor|done|done|apply writes_only_refl]. }
  apply bind_Ok_inv in H as (p1 & h1 & Hm & H).
  unfold add_community in Hm.
  destruct (decide (categorizeCommunity c = "standard")) as [Hstd|Hnstd];
    [|destruct (decide (categorizeCommunity c = "large")) as [Hlrg|]; [|done]].
  - destruct (append_to_spec _ _ _ _ _ _ _ _ _ _ _ He Htag Hbs Hs Hxs Hm)
      as (Σ1 & He1 & Hpre1 & Htag1 & Hoth1 & (ls & Hls & Hlsb) & Hxs1 & Hw1).
    assert (Hxl1 : holds h1 p1 lrg xl).
    { assert (lrg ∉ [std]) as Hnin by set_solver.
      pose proof (holds_writes_only _ _ _ _ _ _ _ Htag Hnin Hw1 Hxl) as Hxl0.
      unfold holds in *. by rewrite Hoth1. }
    destruct (IH p1 Σ1 h1 (xs ++ [c]) xl p' h' He1 Htag1) as
      (Σ' & He' & Hpre' & Htag' & Hoth' & Hall & Hxs' & Hxl' & Hw'); [..|done|].
    { intros l. rewrite Hls. by intros [= <-]. }
    { intros l. rewrite Hoth1 by done. apply Hbl. }
    { done. }
    { done. }
    exists Σ'. split_and!; [done|by etrans|done| | | | |].
    + intros g ? ?. rewrite Hoth' by done. by apply Hoth1.
    + constructor; [by rewrite Hstd|done].
    + rewrite filter_cons_True by (by apply bool_decide_pack).
      by rewrite <- (assoc_L (++)) in Hxs'.
    + rewrite filter_cons_False; [done|].
      intros Hx%bool_decide_unpack. congruence.
    + eapply writes_only_trans; [done| |done].
      eapply writes_only_mono; [|done]. set_solver.
  - destruct (append_to_spec _ _ _ _ _ _ _ _ _ _ _ He Htag Hbl Hl Hxl Hm)
      as (Σ1 & He1 & Hpre1 & Htag1 & Hoth1 & (ll & Hll & Hllb) & Hxl1 & Hw1).
    assert (Hxs1 : holds h1 p1 std xs).
    { assert (std ∉ [lrg]) as Hnin by set_solver.
      pose proof (holds_writes_only _ _ _ _ _ _ _ Htag Hnin Hw1 Hxs) as Hxs0.
      unfold holds in *. by rewrite Hoth1. }
    destruct (IH p1 Σ1 h1 xs (xl ++ [strings.ReplaceAll c ":" ","]) p' h'
                He1 Htag1) as
      (Σ' & He' & Hpre' & Htag' & Hoth' & Hall & Hxs' & Hxl' & Hw'); [..|done|].
    { intros l. rewrite Hoth1 by done. apply Hbs. }
    { intros l. rewrite Hll. by intros [= <-]. }
    { done. }
    { done. }
    exists Σ'. split_and!; [done|by etrans|done| | | | |].
    + intros g ? ?. rewrite Hoth' by done. by apply Hoth1.
    + constructor; [by rewrite Hlrg|done].
    + rewrite filter_cons_False; [done|].
      by intros Hx%bool_decide_unpack.
    + rewrite filter_cons_True by (by apply bool_decide_pack).
      rewrite fmap_cons. by rewrite <- (assoc_L (++)) in Hxl'.
    + eapply writes_only_trans; [done| |done].
      eapply writes_only_mono; [|done]. set_solver.
Qed.

Ltac solve_names :=
  first [ done | apply (bool_decide_unpack _); vm_compute; exact I ].

Lemma add_prefix_spec rt w Σs hs Σ h (p : Peer) prefix p' h' :
  extends w Σs hs Σ h → tagged Σ p →
  add_prefix rt p prefix h = Ok (p', h') →
  ∃ pfx set Σ',
    ParseCIDR rt prefix = Some pfx ∧
    set = (if net.To4 pfx is None then "PrefixSet6" else "PrefixSet4") ∧
    extends w Σs hs Σ' h' ∧ Σ `prefix_of` Σ' ∧ tagged Σ' p' ∧
    (∀ g, g ≠ set → p' !! g = p !! g) ∧
    (∀ x, holds h p set x → holds h' p' set (x ++ [prefix])) ∧
    writes_only [] Σ h h'.
Proof.
  intros He Htag H. unfold add_prefix in H.
  destruct (ParseCIDR rt prefix) as [pfx|] eqn:Ep; [|done].
  set (set := if net.To4 pfx is None then "PrefixSet6" else "PrefixSet4") in *.
  assert (Hset : set ≠ "AnnounceOriginated").
  { unfold set. by destruct (net.To4 pfx). }
  apply bind_Ok_inv in H as (l & h1 & Hm & H).
  apply bind_Ok_inv in H as (old & h2 & Hl & H).
  apply load_slice_inv in Hl as [Hl ->].
  apply bind_Ok_inv in H as (l' & h3 & Hn & H).
  apply new_inv in Hn as [-> ->]. inv_M.
  exists pfx, set.
  destruct (p !! set) as [l0|] eqn:Es.
  - inv_M.
    destruct (extends_new w Σs hs Σ h1 set (VSlice (old ++ [prefix])) He)
      as [He1 Ht1]; [done|].
    exists (Σ ++ [set]). split_and!; [done|done|done|by apply prefix_app_r| | | |].
    + apply tagged_insert; [|done].
      eapply tagged_mono; [done|by apply prefix_app_r].
    + intros g Hg. by rewrite lookup_insert_ne.
    + intros x. unfold holds. rewrite Es, lookup_insert_eq. intros Hx.
      simplify_eq. by rewrite lookup_app_r, Nat.sub_diag.
    + intros l1 v g Hl1 _ _. rewrite lookup_app_l; [done|].
      by eapply lookup_lt_Some.
  - inv_M. rewrite lookup_app_r, Nat.sub_diag in Hl by done.
    simpl in Hl. simplify_eq.
    destruct (extends_new w Σs hs Σ h set (VSlice []) He) as [He1 Ht1]; [done|].
    destruct (extends_new w Σs hs _ _ set (VSlice ([] ++ [prefix])) He1)
      as [He2 Ht2]; [done|].
    exists ((Σ ++ [set]) ++ [set]).
    split_and!; [done|done|done| | | | |].
    + etrans; by apply prefix_app_r.
    + apply tagged_insert; [|done].
      eapply tagged_mono; [done|]. etrans; by apply prefix_app_r.
    + intros g Hg. by rewrite lookup_insert_ne.
    + intros x. unfold holds. rewrite Es, lookup_insert_eq. intros ->.
      by rewrite lookup_app_r, Nat.sub_diag.
    + intros l1 v g Hl1 _ _. apply lookup_lt_Some in Hl1 as Hlt.
      rewrite !lookup_app_l; [done|done|]. rewrite length_app. lia.
Qed.

Lemma add_prefixes_spec rt w Σs hs ps :
  ∀ (p : Peer) Σ h x4 x6 p' h',
    extends w Σs hs Σ h → tagged Σ p →
    holds h p "PrefixSet4" x4 → holds h p "PrefixSet6" x6 →
    foldM (add_prefix rt) ps p h = Ok (p', h') →
    ∃ Σ', extends w Σs hs Σ' h' ∧ Σ `prefix_of` Σ' ∧ tagged Σ' p' ∧
      (∀ g, g ≠ "PrefixSet4" → g ≠ "PrefixSet6" → p' !! g = p !! g) ∧
      Forall (λ x, is_Some (ParseCIDR rt x)) ps ∧
      holds h' p' "PrefixSet4" (x4 ++ filter (is_v4 rt) ps) ∧
      holds h' p' "PrefixSet6" (x6 ++ filter (is_v6 rt) ps) ∧
      writes_only [] Σ h h'.
Proof.
  induction ps as [|x ps IH]; intros p Σ h x4 x6 p' h' He Htag H4 H6 H;
    simpl in H.
  { inv_M. exists Σ. rewrite !filter_nil, !app_nil_r.
    split_and!; [done..|constructor|done|done|apply writes_only_refl]. }
  apply bind_Ok_inv in H as (p1 & h1 & Hm & H).
  destruct (add_prefix_spec _ _ _ _ _ _ _ _ _ _ He Htag Hm)
    as (pfx & set & Σ1 & Hp & Hset & He1 & Hpre1 & Htag1 & Hoth1 & Hadd & Hw1).
  assert (Hv4 : is_v4 rt x = bool_decide (is_Some (net.To4 pfx))).
  { unfold is_v4. by rewrite Hp. }
  assert (Hv6 : is_v6 rt x = bool_decide (net.To4 pfx = None)).
  { unfold is_v6. by rewrite Hp. }
  assert (Hkeep : ∀ g y, g ≠ set → holds h p g y → holds h1 p1 g y).
  { intros g y Hg Hy.
    assert (g ∉ @nil string) as Hnin by apply not_elem_of_nil.
    pose proof (holds_writes_only _ _ _ _ _ _ _ Htag Hnin Hw1 Hy) as Hy1.
    unfold holds in *. by rewrite Hoth1. }
  destruct (net.To4 pfx) as [ip4|] eqn:E4; subst set.
  - destruct (IH p1 Σ1 h1 (x4 ++ [x]) x6 p' h' He1 Htag1) as
      (Σ' & He' & Hpre' & Htag' & Hoth' & Hall & H4' & H6' & Hw');
      [by apply Hadd|by apply Hkeep|done|].
    exists Σ'. split_and!; [done|by etrans|done| | | | |].
    + intros g ? ?. rewrite Hoth' by done. by apply Hoth1.
    + constructor; [by rewrite Hp|done].
    + rewrite filter_cons_True.
      * by rewrite <- (assoc_L (++)) in H4'.
      * rewrite Hv4. apply bool_decide_pack. eauto.
    + rewrite filter_cons_False; [done|].
      rewrite Hv6. by intros Hx%bool_decide_unpack.
    + by eapply writes_only_trans.
  - destruct (IH p1 Σ1 h1 x4 (x6 ++ [x]) p' h' He1 Htag1) as
      (Σ' & He' & Hpre' & Htag' & Hoth' & Hall & H4' & H6' & Hw');
      [by apply Hkeep|by apply Hadd|done|].
    exists Σ'. split_and!; [done|by etrans|done| | | | |].
    + intros g ? ?. rewrite Hoth' by done. by apply Hoth1.
    + constructor; [by rewrite Hp|done].
    + rewrite filter_cons_False; [done|].
      rewrite Hv4. intros Hx%bool_decide_unpack. by destruct Hx.
    + rewrite filter_cons_True.
      * by rewrite <- (assoc_L (++)) in H6'.
      * rewrite Hv6. by apply bool_decide_pack.
    + by eapply writes_only_trans.
Qed.

Lemma check_originated_spec w Σs hs Σ h prefixes (p : Peer) u h' :
  extends w Σs hs Σ h → tagged Σ p →
  (prefixes = [] → w = true) →
  check_originated prefixes p h = Ok (u, h') →
  extends w Σs hs Σ h' ∧ writes_only ["AnnounceOriginated"] Σ h h' ∧
  (prefixes = [] →
   ∃ l, p !! "AnnounceOriginated" = Some l ∧ h' !! l = Some (VBool false)).
Proof.
  intros He Htag Hw H. unfold check_originated in H.
  destruct (decide (length prefixes < 1)%nat) as [Hlen|Hlen].
  2:{ inv_M. split_and!; [done|apply writes_only_refl|].
      intros ->. simpl in Hlen. lia. }
  assert (prefixes = []) as -> by (destruct prefixes; [done|simpl in Hlen; lia]).
  rewrite Hw in He by done.  rewrite Hw by done.
  destruct (p !! "AnnounceOriginated") as [l|] eqn:El; [|done].
  apply bind_Ok_inv in H as (b & h1 & Hb & H).
  apply load_bool_inv in Hb as [Hb ->].
  destruct b.
  - apply store_inv in H as [Hlt ->].
    destruct (extends_store_false Σs hs Σ h l He) as [He' Hl']; [by apply Htag|].
    split_and!; [done| |by eauto].
    intros l' v g Hl1 Hg Hne. rewrite list_lookup_insert_ne; [done|].
    intros <-. apply Htag in El. set_solver.
  - inv_M. split_and!; [done|apply writes_only_refl|by eauto].
Qed.

Lemma categorize_field_spec w Σs hs Σ h what src std lrg (p : Peer) p' h' :
  std ≠ lrg → std ≠ "AnnounceOriginated" → lrg ≠ "AnnounceOriginated" →
  extends w Σs hs Σ h → tagged Σ p →
  p !! std = None → p !! lrg = None →
  categorize_field what src std lrg p h = Ok (p', h') →
  ∃ Σ', extends w Σs hs Σ' h' ∧ Σ `prefix_of` Σ' ∧ tagged Σ' p' ∧
    (∀ g, g ≠ std → g ≠ lrg → p' !! g = p !! g) ∧
    writes_only [std; lrg] Σ h h' ∧
    match p !! src with
    | None => p' !! std = None ∧ p' !! lrg = None
    | Some l =>
        ∃ cs, h !! l = Some (VSlice cs) ∧
          Forall (λ c, categorizeCommunity c ≠ "") cs ∧
          holds h' p' std (filter is_standard cs) ∧
          holds h' p' lrg
            ((λ c, strings.ReplaceAll c ":" ",") <$> filter is_large cs)
    end.
Proof.
  intros Hsl Hs Hl He Htag Hns Hnl H. unfold categorize_field in H.
  destruct (p !! src) as [l|] eqn:Esrc.
  2:{ inv_M. exists Σ. split_and!; [done..|apply writes_only_refl|done|done]. }
  apply bind_Ok_inv in H as (cs & h1 & Hcs & H).
  apply load_slice_inv in Hcs as [Hcs ->].
  destruct (add_communities_spec w Σs hs what std lrg cs Hsl Hs Hl
              p Σ h [] [] p' h' He Htag) as
    (Σ' & He' & Hpre' & Htag' & Hoth' & Hall & Hxs & Hxl & Hw');
    [by rewrite Hns|by rewrite Hnl|
     by unfold holds; rewrite Hns|by unfold holds; rewrite Hnl|done|].
  exists Σ'. split_and!; [done..|]. by exists cs.
Qed.

Arguments categorize_field : simpl never.
Arguments check_originated : simpl never.

Lemma resolved2_mono rt prefixes w Σ h Σ' h' np1 np2 :
  resolved2 rt prefixes Σ h np1 np2 → extends w Σ h Σ' h' →
  resolved2 rt prefixes Σ' h' np1 np2.
Proof.
  intros (Hn & Htag & Hoth & Hpfx & Hcomm & Hao) He.
  assert (Hsrc : ∀ f l v, f ∉ derived_fields → f ≠ "AnnounceOriginated" →
                   np1.2 !! f = Some l → h !! l = Some v → h' !! l = Some v).
  { intros f l v Hf Hne Hl Hv. rewrite <- Hoth in Hl by done.
    eapply extends_lookup; [done|done|by apply Htag|by left]. }
  split_and!; [done|by eapply tagged_mono, extends_prefix|done| | |].
  - destruct (np1.2 !! "Prefixes") as [l|] eqn:El; [|done].
    destruct Hpfx as (ps & Hl & Hall & H4 & H6). exists ps.
    split_and!; [|done| |].
    + eapply Hsrc; [| |done..]; solve_names.
    + by eapply holds_extends.
    + by eapply holds_extends.
  - unfold community_fields in *.
    repeat (apply Forall_cons in Hcomm as [?Hc Hcomm]).
    repeat (apply Forall_cons; split); [..|done].
    all: match goal with
         | H : match ?o with _ => _ end |- match ?o with _ => _ end =>
             destruct o as [l|] eqn:El; [|done];
             destruct H as (cs & Hl & Hall & Hs & Hg); exists cs;
             split_and!;
             [eapply Hsrc; [| |done..]; solve_names | done
             |by eapply holds_extends|by eapply holds_extends]
         end.
  - intros Hp. destruct (Hao Hp) as (l & Hl & Hv). exists l.
    split; [done|]. by eapply extends_lookup_false.
Qed.

(** Transporting what a field holds over a step that writes to the cells
    of other fields and leaves the pointer of the field alone. *)
Lemma holds_step X Σ h h' (p p' : Peer) f x :
  tagged Σ p → writes_only X Σ h h' → f ∉ X → p' !! f = p !! f →
  holds h p f x → holds h' p' f x.
Proof.
  intros Htag Hw Hf Hp Hx.
  pose proof (holds_writes_only _ _ _ _ _ _ _ Htag Hf Hw Hx) as Hx'.
  unfold holds in *. by rewrite Hp.
Qed.

Lemma finish_peer_spec rt prefixes w Σ h n (p : Peer) n' p' h' :
  (prefixes = [] → w = true) →
  store_ok Σ h → tagged Σ p →
  (∀ f, f ∈ derived_fields → p !! f = None) →
  finish_peer rt prefixes (n, p) h = Ok ((n', p'), h') →
  ∃ Σ', extends w Σ h Σ' h' ∧ resolved2 rt prefixes Σ' h' (n, p) (n', p').
Proof.
  intros Hw Hok Htag Hnil H. unfold finish_peer in H.
  apply bind_Ok_inv in H as (p0 & h0 & H0 & H).
  apply bind_Ok_inv in H as (p1 & h1 & H1 & H).
  apply bind_Ok_inv in H as (p2 & h2 & H2 & H).
  apply bind_Ok_inv in H as (p3 & h3 & H3 & H).
  apply bind_Ok_inv in H as (p4 & h4 & H4 & H).
  apply bind_Ok_inv in H as ([] & h5 & H5 & H).
  inv_M.
  pose proof (extends_refl w Σ h Hok) as He.
  assert (Hd : ∀ f, f ∈ derived_fields → p !! f = None) by done.
  (* the static prefix filters *)
  assert (S0 : ∃ Σ0, extends w Σ h Σ0 h0 ∧ Σ `prefix_of` Σ0 ∧ tagged Σ0 p0 ∧
            (∀ g, g ≠ "PrefixSet4" → g ≠ "PrefixSet6" → p0 !! g = p !! g) ∧
            writes_only [] Σ h h0 ∧
            match p !! "Prefixes" with
            | None => p0 !! "PrefixSet4" = None ∧ p0 !! "PrefixSet6" = None
            | Some l =>
                ∃ ps, h !! l = Some (VSlice ps) ∧
                  Forall (λ x, is_Some (ParseCIDR rt x)) ps ∧
                  holds h0 p0 "PrefixSet4" (filter (is_v4 rt) ps) ∧
                  holds h0 p0 "PrefixSet6" (filter (is_v6 rt) ps)
            end).
  { destruct (p !! "Prefixes") as [l|] eqn:El.
    - apply bind_Ok_inv in H0 as (ps & hx & Hps & H0).
      apply load_slice_inv in Hps as [Hps ->].
      destruct (add_prefixes_spec rt w Σ h ps p Σ h [] [] p0 h0 He Htag)
        as (Σ0 & He0 & Hpre0 & Htag0 & Hoth0 & Hall & Hx4 & Hx6 & Hw0);
        [unfold holds; rewrite Hd; solve_names
        |unfold holds; rewrite Hd; solve_names|done|].
      exists Σ0. split_and!; [done..|]. by exists ps.
    - inv_M. exists Σ.
      split_and!; [done|reflexivity|done|done|apply writes_only_refl|..];
        apply Hd; solve_names. }
  destruct S0 as (Σ0 & He0 & Hpre0 & Htag0 & Hoth0 & Hw0 & Hpfx).
  clear H0.
  (* the communities *)
  destruct (categorize_field_spec w Σ h Σ0 h0 "import" "ImportCommunities"
              "ImportStandardCommunities" "ImportLargeCommunities" p0 p1 h1
              ltac:(done) ltac:(done) ltac:(done) He0 Htag0)
    as (Σ1 & He1 & Hpre1 & Htag1 & Hoth1 & Hw1 & Hc1); [..|exact H1|].
  { rewrite Hoth0 by done. apply Hd. solve_names. }
  { rewrite Hoth0 by done. apply Hd. solve_names. }
  destruct (categorize_field_spec w Σ h Σ1 h1 "export" "ExportCommunities"
              "ExportStandardCommunities" "ExportLargeCommunities" p1 p2 h2
              ltac:(done) ltac:(done) ltac:(done) He1 Htag1)
    as (Σ2 & He2 & Hpre2 & Htag2 & Hoth2 & Hw2 & Hc2); [..|exact H2|].
  { rewrite Hoth1, Hoth0 by done. apply Hd. solve_names. }
  { rewrite Hoth1, Hoth0 by done. apply Hd. solve_names. }
  destruct (categorize_field_spec w Σ h Σ2 h2 "announce" "AnnounceCommunities"
              "AnnounceStandardCommunities" "AnnounceLargeCommunities" p2 p3 h3
              ltac:(done) ltac:(done) ltac:(done) He2 Htag2)
    as (Σ3 & He3 & Hpre3 & Htag3 & Hoth3 & Hw3 & Hc3); [..|exact H3|].
  { rewrite Hoth2, Hoth1, Hoth0 by done. apply Hd. solve_names. }
  { rewrite Hoth2, Hoth1, Hoth0 by done. apply Hd. solve_names. }
  destruct (categorize_field_spec w Σ h Σ3 h3 "remove" "RemoveCommunities"
              "RemoveStandardCommunities" "RemoveLargeCommunities" p3 p' h4
              ltac:(done) ltac:(done) ltac:(done) He3 Htag3)
    as (Σ4 & He4 & Hpre4 & Htag4 & Hoth4 & Hw4 & Hc4); [..|exact H4|].
  { rewrite Hoth3, Hoth2, Hoth1, Hoth0 by done. apply Hd. solve_names. }
  { rewrite Hoth3, Hoth2, Hoth1, Hoth0 by done. apply Hd. solve_names. }
  clear H1 H2 H3 H4.
  (* announce-originated *)
  destruct (check_originated_spec w Σ h Σ4 h4 prefixes p' () h' He4 Htag4 Hw H5)
    as (He5 & Hw5 & Hao).
  clear H5.
  exists Σ4. split; [done|].
  (* the pointers of the fields that are not derived *)
  assert (Hp1 : ∀ g, g ∉ derived_fields → p1 !! g = p !! g).
  { intros g Hg. unfold derived_fields in Hg.
    rewrite Hoth1, Hoth0; [done|set_solver..]. }
  assert (Hp2 : ∀ g, g ∉ derived_fields → p2 !! g = p !! g).
  { intros g Hg. rewrite Hoth2; [by apply Hp1|unfold derived_fields in Hg; set_solver..]. }
  assert (Hp3 : ∀ g, g ∉ derived_fields → p3 !! g = p !! g).
  { intros g Hg. rewrite Hoth3; [by apply Hp2|unfold derived_fields in Hg; set_solver..]. }
  assert (Hp4 : ∀ g, g ∉ derived_fields → p' !! g = p !! g).
  { intros g Hg. rewrite Hoth4; [by apply Hp3|unfold derived_fields in Hg; set_solver..]. }
  (* a cell of a source list keeps its value *)
  assert (Hsrc : ∀ g l v, g ∉ derived_fields → p !! g = Some l →
                   h !! l = Some v →
                   h0 !! l = Some v ∧ h1 !! l = Some v ∧ h2 !! l = Some v ∧
                   h3 !! l = Some v).
  { intros g l v Hg Hl Hv. unfold derived_fields in Hg.
    assert (Σ !! l = Some g) as Ht by by apply Htag.
    assert (Σ0 !! l = Some g) as Ht0 by by eapply prefix_lookup_Some.
    assert (Σ1 !! l = Some g) as Ht1 by by eapply prefix_lookup_Some.
    assert (Σ2 !! l = Some g) as Ht2 by by eapply prefix_lookup_Some.
    assert (h0 !! l = Some v) as Hv0.
    { apply (Hw0 l v g Hv Ht). apply not_elem_of_nil. }
    assert (h1 !! l = Some v) as Hv1.
    { apply (Hw1 l v g Hv0 Ht0). set_solver. }
    assert (h2 !! l = Some v) as Hv2.
    { apply (Hw2 l v g Hv1 Ht1). set_solver. }
    assert (h3 !! l = Some v) as Hv3.
    { apply (Hw3 l v g Hv2 Ht2). set_solver. }
    done. }
  split_and!; simpl.
  - done.
  - done.
  - done.
  - (* prefixes *)
    destruct (p !! "Prefixes") as [l|] eqn:El.
    + destruct Hpfx as (ps & Hl & Hall & Hx4 & Hx6). exists ps.
      destruct (Hsrc "Prefixes" l _ ltac:(solve_names) El Hl) as (_ & _ & _ & _).
      split_and!; [|done| |].
      * eapply extends_lookup; [exact He5|done|by apply Htag|by left].
      * eapply (holds_step _ Σ4 h4 h' p'); [done|done|solve_names|done|].
        eapply (holds_step _ Σ3 h3 h4 p3); [done|done|solve_names|by apply Hoth4|].
        eapply (holds_step _ Σ2 h2 h3 p2); [done|done|solve_names|by apply Hoth3|].
        eapply (holds_step _ Σ1 h1 h2 p1); [done|done|solve_names|by apply Hoth2|].
        eapply (holds_step _ Σ0 h0 h1 p0); [done|done|solve_names|by apply Hoth1|].
        done.
      * eapply (holds_step _ Σ4 h4 h' p'); [done|done|solve_names|done|].
        eapply (holds_step _ Σ3 h3 h4 p3); [done|done|solve_names|by apply Hoth4|].
        eapply (holds_step _ Σ2 h2 h3 p2); [done|done|solve_names|by apply Hoth3|].
        eapply (holds_step _ Σ1 h1 h2 p1); [done|done|solve_names|by apply Hoth2|].
        eapply (holds_step _ Σ0 h0 h1 p0); [done|done|solve_names|by apply Hoth1|].
        done.
    + destruct Hpfx as [Hn4 Hn6].
      rewrite !Hoth4, !Hoth3, !Hoth2, !Hoth1 by done. done.
  - (* communities *)
    unfold community_fields. repeat (apply Forall_cons; split); [| | | |done].
    + rewrite Hoth0 in Hc1 by done.
      destruct (p !! "ImportCommunities") as [l|] eqn:El.
      * destruct Hc1 as (cs & Hl & Hall & Hs & Hg). exists cs.
        assert (h !! l = Some (VSlice cs)) as Hl0.
        { destruct (tagged_valid Σ h p _ _ Htag (proj1 Hok) El) as [v Hv].
          destruct (Hsrc "ImportCommunities" l _ ltac:(solve_names) El Hv)
            as (Hv0 & _). congruence. }
        split_and!; [|done| |].
        -- eapply extends_lookup; [exact He5|done|by apply Htag|by left].
        -- eapply (holds_step _ Σ4 h4 h' p'); [done|done|solve_names|done|].
           eapply (holds_step _ Σ3 h3 h4 p3); [done|done|solve_names|by apply Hoth4|].
           eapply (holds_step _ Σ2 h2 h3 p2); [done|done|solve_names|by apply Hoth3|].
           eapply (holds_step _ Σ1 h1 h2 p1); [done|done|solve_names|by apply Hoth2|].
           done.
        -- eapply (holds_step _ Σ4 h4 h' p'); [done|done|solve_names|done|].
           eapply (holds_step _ Σ3 h3 h4 p3); [done|done|solve_names|by apply Hoth4|].
           eapply (holds_step _ Σ2 h2 h3 p2); [done|done|solve_names|by apply Hoth3|].
           eapply (holds_step _ Σ1 h1 h2 p1); [done|done|solve_names|by apply Hoth2|].
           done.
      * destruct Hc1 as [Hns Hnl].
        rewrite !Hoth4, !Hoth3, !Hoth2 by done. done.
    + rewrite Hp1 in Hc2 by solve_names.
      destruct (p !! "ExportCommunities") as [l|] eqn:El.
      * destruct Hc2 as (cs & Hl & Hall & Hs & Hg). exists cs.
        assert (h !! l = Some (VSlice cs)) as Hl0.
        { destruct (tagged_valid Σ h p _ _ Htag (proj1 Hok) El) as [v Hv].
          destruct (Hsrc "ExportCommunities" l _ ltac:(solve_names) El Hv)
            as (_ & Hv1 & _). congruence. }
        split_and!; [|done| |].
        -- eapply extends_lookup; [exact He5|done|by apply Htag|by left].
        -- eapply (holds_step _ Σ4 h4 h' p'); [done|done|solve_names|done|].
           eapply (holds_step _ Σ3 h3 h4 p3); [done|done|solve_names|by apply Hoth4|].
           eapply (holds_step _ Σ2 h2 h3 p2); [done|done|solve_names|by apply Hoth3|].
           done.
        -- eapply (holds_step _ Σ4 h4 h' p'); [done|done|solve_names|done|].
           eapply (holds_step _ Σ3 h3 h4 p3); [done|done|solve_names|by apply Hoth4|].
           eapply (holds_step _ Σ2 h2 h3 p2); [done|done|solve_names|by apply Hoth3|].
           done.
      * destruct Hc2 as [Hns Hnl].
        rewrite !Hoth4, !Hoth3 by done. done.
    + rewrite Hp2 in Hc3 by solve_names.
      destruct (p !! "AnnounceCommunities") as [l|] eqn:El.
      * destruct Hc3 as (cs & Hl & Hall & Hs & Hg). exists cs.
        assert (h !! l = Some (VSlice cs)) as Hl0.
        { destruct (tagged_valid Σ h p _ _ Htag (proj1 Hok) El) as [v Hv].
          destruct (Hsrc "AnnounceCommunities" l _ ltac:(solve_names) El Hv)
            as (_ & _ & Hv2 & _). congruence. }
        split_and!; [|done| |].
        -- eapply extends_lookup; [exact He5|done|by apply Htag|by left].
        -- eapply (holds_step _ Σ4 h4 h' p'); [done|done|solve_names|done|].
           eapply (holds_step _ Σ3 h3 h4 p3); [done|done|solve_names|by apply Hoth4|].
           done.
        -- eapply (holds_step _ Σ4 h4 h' p'); [done|done|solve_names|done|].
           eapply (holds_step _ Σ3 h3 h4 p3); [done|done|solve_names|by apply Hoth4|].
           done.
      * destruct Hc3 as [Hns Hnl].
        rewrite !Hoth4 by done. done.
    + rewrite Hp3 in Hc4 by solve_names.
      destruct (p !! "RemoveCommunities") as [l|] eqn:El.
      * destruct Hc4 as (cs & Hl & Hall & Hs & Hg). exists cs.
        assert (h !! l = Some (VSlice cs)) as Hl0.
        { destruct (tagged_valid Σ h p _ _ Htag (proj1 Hok) El) as [v Hv].
          destruct (Hsrc "RemoveCommunities" l _ ltac:(solve_names) El Hv)
            as (_ & _ & _ & Hv3). congruence. }
        split_and!; [|done| |].
        -- eapply extends_lookup; [exact He5|done|by apply Htag|by left].
        -- eapply (holds_step _ Σ4 h4 h' p'); [done|done|solve_names|done|].
           done.
        -- eapply (holds_step _ Σ4 h4 h' p'); [done|done|solve_names|done|].
           done.
      * done.
  - (* announce-originated *)
    intros Hp. destruct (Hao Hp) as (l & Hl & Hv). exists l. split; [|done].
    rewrite <- Hp4; [done|solve_names].
Qed.
(** *** Facts about splitting and parsing *)

Ltac gtb_to_ltb :=
  repeat match goal with
         | H : context [Z.gtb _ _] |- _ => rewrite Z.gtb_ltb in H
         | |- context [Z.gtb _ _] => rewrite Z.gtb_ltb
         end.

Lemma Split_not_nil s sep : strings.Split s sep ≠ [].
Proof.
  destruct s as [|c s]; simpl; [done|].
  destruct (Ascii.eqb c sep); [done|].
  by destruct (strings.Split s sep).
Qed.

(** A split has one component more than the string has separators, so two
    components or more mean that the separator occurs. *)
Lemma Split_length_contains s sep :
  (2 <= length (strings.Split s sep))%nat → strings.contains s sep = true.
Proof.
  induction s as [|c s IH]; simpl; [lia|].
  destruct (Ascii.eqb c sep) eqn:E; [done|]. simpl.
  destruct (strings.Split s sep) as [|x xs] eqn:Hs; simpl in *; [lia|].
  exact IH.
Qed.

(** A byte other than the separator that occurs in the string occurs in
    one of the components. *)
Lemma Split_contains s sep c :
  c ≠ sep → strings.contains s c = true →
  ∃ part, part ∈ strings.Split s sep ∧ strings.contains part c = true.
Proof.
  intros Hne. induction s as [|d s IH]; simpl; [done|].
  intros H. destruct (Ascii.eqb d sep) eqn:Ed.
  - apply Ascii.eqb_eq in Ed. subst d.
    destruct (Ascii.eqb sep c) eqn:Ec.
    { apply Ascii.eqb_eq in Ec. congruence. }
    simpl in H. destruct (IH H) as (p & Hp & Hc).
    exists p. split; [by right|done].
  - destruct (strings.Split s sep) as [|x xs] eqn:Hs.
    { by destruct (Split_not_nil s sep). }
    destruct (Ascii.eqb d c) eqn:Ec.
    + exists (String d x). split; [left|]. simpl. by rewrite Ec.
    + simpl in H. destruct (IH H) as (p & Hp & Hc).
      apply elem_of_cons in Hp as [->|Hp].
      * exists (String d x). split; [left|]. simpl. by rewrite Hc, orb_true_r.
      * exists p. split; [by right|done].
Qed.

Lemma Join_cons x y ys sep :
  strings.Join (x :: y :: ys) sep = x +:+ String sep (strings.Join (y :: ys) sep).
Proof. done. Qed.

Lemma Join_Split s sep : strings.Join (strings.Split s sep) sep = s.
Proof.
  induction s as [|c s IH]; [done|].
  cbn [strings.Split].
  destruct (strings.Split s sep) as [|x xs] eqn:Hs.
  { by destruct (Split_not_nil s sep). }
  destruct (Ascii.eqb c sep) eqn:E.
  - apply Ascii.eqb_eq in E. subst c.
    rewrite Join_cons, IH. done.
  - destruct xs as [|y ys].
    + simpl in *. by rewrite IH.
    + rewrite Join_cons. rewrite Join_cons in IH. by rewrite <- IH.
Qed.

Lemma digit_not_comma c d : strconv.digit c = Some d → c ≠ ","%char.
Proof. intros H ->. discriminate H. Qed.

Lemma digits_no_comma s acc n :
  strconv.digits s acc = Some n → strings.contains s "," = false.
Proof.
  revert acc. induction s as [|c s IH]; intros acc; simpl; [done|].
  destruct (strconv.digit c) as [d|] eqn:Hd; [|done].
  intros H. rewrite (IH _ H), orb_false_r.
  apply Ascii.eqb_neq. by eapply digit_not_comma.
Qed.

(** A string that [Atoi] accepts holds no comma. *)
Lemma Atoi_no_comma s n :
  strconv.Atoi s = Some n → strings.contains s "," = false.
Proof.
  destruct s as [|c rest]; [done|]. unfold strconv.Atoi.
  destruct (Ascii.eqb c "-" || Ascii.eqb c "+") eqn:Hsign.
  - destruct rest as [|c' rest']; [done|].
    destruct (strconv.digits (String c' rest') 0) as [m|] eqn:Hd; [|done].
    intros _. apply digits_no_comma in Hd.
    change (strings.contains (String c (String c' rest')) ",")
      with (Ascii.eqb c "," || strings.contains (String c' rest') ",").
    rewrite Hd, orb_false_r.
    apply orb_true_iff in Hsign as [E|E]; apply Ascii.eqb_eq in E; by subst c.
  - destruct (strconv.digits (String c rest) 0) as [m|] eqn:Hd; [|done].
    intros _. by apply digits_no_comma in Hd.
Qed.

(** [Atoi] accepts exactly the decimal numerals of the [int] range. *)
Lemma Atoi_range s n :
  strconv.Atoi s = Some n → strconv.minInt <= n <= strconv.maxInt.
Proof.
  destruct s as [|c rest]; [done|]. unfold strconv.Atoi.
  destruct (if _ : bool then rest else _); [done|].
  destruct (strconv.digits _ 0); [|done].
  destruct (_ && _) eqn:E; [|done].
  intros [= <-]. lia.
Qed.

(** A token with two comma-separated components cannot have three
    colon-separated components that all parse: the comma ends up in one
    of them. *)
Lemma large_form_not_two_commas token :
  large_form token → length (strings.Split token ",") ≠ 2%nat.
Proof.
  intros (a & b & c & x & y & z & Hs & Ha & Hb & Hc & _) Hlen.
  assert (Hin : strings.contains token "," = true).
  { apply Split_length_contains. lia. }
  destruct (Split_contains token ":" "," ltac:(done) Hin) as (p & Hp & Hpc).
  rewrite Hs in Hp.
  apply Atoi_no_comma in Ha, Hb, Hc.
  set_unfold in Hp. destruct Hp as [->| [->| [->|[]]]]; congruence.
Qed.

Lemma categorize_standard_iff token :
  categorizeCommunity token = "standard" ↔ standard_form token.
Proof.
  unfold categorizeCommunity, standard_form. split.
  - case_bool_decide as Hlen.
    + destruct (strings.Split token ",") as [|a [|b [|? ?]]]; try done.
      simpl. destruct (strconv.Atoi a) as [x|] eqn:Ha; [|done].
      destruct (strconv.Atoi b) as [y|] eqn:Hb; [|done].
      destruct (_ || _) eqn:E1; [done|].
      destruct ((y <? 0) || _) eqn:E2; [done|].
      intros _. gtb_to_ltb. exists a, b, x, y. split_and!; try done; lia.
    + case_bool_decide; [|done].
      repeat (destruct (strconv.Atoi _); [|done]).
      repeat (destruct (_ || _); [done|]). done.
  - intros (a & b & x & y & -> & Ha & Hb & Hx & Hy). simpl.
    rewrite Ha, Hb.
    replace ((x <? 0) || (x >? 65535)) with false by (rewrite Z.gtb_ltb; lia).
    replace ((y <? 0) || (y >? 65535)) with false by (rewrite Z.gtb_ltb; lia). done.
Qed.

Lemma categorize_large_iff token :
  categorizeCommunity token = "large" ↔ large_form token.
Proof.
  split.
  - unfold categorizeCommunity, large_form. case_bool_decide as Hlen.
    + repeat (destruct (strconv.Atoi _); [|done]).
      repeat (destruct (_ || _); [done|]). done.
    + case_bool_decide as Hlen'; [|done].
      destruct (strings.Split token ":") as [|a [|b [|c [|? ?]]]]; try done.
      simpl. destruct (strconv.Atoi a) as [x|] eqn:Ha; [|done].
      destruct (strconv.Atoi b) as [y|] eqn:Hb; [|done].
      destruct (strconv.Atoi c) as [z|] eqn:Hc; [|done].
      destruct (_ || _) eqn:E1; [done|].
      destruct ((y <? 0) || _) eqn:E2; [done|].
      destruct ((z <? 0) || _) eqn:E3; [done|].
      intros _. gtb_to_ltb. exists a, b, c, x, y, z. split_and!; try done; lia.
  - intros Hl. pose proof (large_form_not_two_commas _ Hl) as Hlen.
    destruct Hl as (a & b & c & x & y & z & Hs & Ha & Hb & Hc & Hx & Hy & Hz).
    unfold categorizeCommunity. rewrite bool_decide_eq_false_2 by done.
    rewrite Hs. simpl. rewrite Ha, Hb, Hc.
    replace ((x <? 0) || (x >? 4294967295)) with false by (rewrite Z.gtb_ltb; lia).
    replace ((y <? 0) || (y >? 4294967295)) with false by (rewrite Z.gtb_ltb; lia).
    replace ((z <? 0) || (z >? 4294967295)) with false by (rewrite Z.gtb_ltb; lia). done.
Qed.

(** The classifier has three results only. *)
Lemma categorize_cases token :
  categorizeCommunity token = "standard" ∨
  categorizeCommunity token = "large" ∨
  categorizeCommunity token = "".
Proof.
  unfold categorizeCommunity.
  repeat first [ case_bool_decide | destruct (strconv.Atoi _)
               | destruct (_ || _) ]; auto.
Qed.

(** ** Early returns *)

Lemma errs_bind {A B} (m : M LoadResult A) (k : A → M LoadResult B) :
  returns_errors m → (∀ a, returns_errors (k a)) → returns_errors (bind m k).
Proof.
  intros Hm Hk h r H. apply bind_Return_inv in H as [H|(a & h1 & _ & H)].
  - by eapply Hm.
  - by eapply Hk.
Qed.

Lemma errs_ret {A} (a : A) : returns_errors (ret a).
Proof. by intros h r. Qed.
Lemma errs_fatal {A} msg : returns_errors (fatal (A := A) msg).
Proof. by intros h r. Qed.
Lemma errs_panic {A} msg : returns_errors (panic (A := A) msg).
Proof. by intros h r. Qed.
Lemma errs_return {A} msg : returns_errors (return_ (A := A) (None, Some msg)).
Proof. intros h r [= <-]. simpl. eauto. Qed.
Lemma errs_new v : returns_errors (new v).
Proof. by intros h r. Qed.
Lemma errs_store l v : returns_errors (store l v).
Proof. intros h r H. by apply store_not_Return in H. Qed.
Lemma errs_load_string l : returns_errors (load_string l).
Proof. intros h r H. by apply load_string_not_Return in H. Qed.
Lemma errs_load_bool l : returns_errors (load_bool l).
Proof. intros h r H. by apply load_bool_not_Return in H. Qed.
Lemma errs_load_slice l : returns_errors (load_slice l).
Proof. intros h r H. by apply load_slice_not_Return in H. Qed.

Lemma errs_iterM {A} (f : A → M LoadResult unit) l :
  (∀ a, returns_errors (f a)) → returns_errors (iterM f l).
Proof.
  intros Hf. induction l as [|x l IH]; simpl; [apply errs_ret|].
  apply errs_bind; [done|]. by intros _.
Qed.

Lemma errs_forM {A B} (f : A → M LoadResult B) l :
  (∀ a, returns_errors (f a)) → returns_errors (forM f l).
Proof.
  intros Hf. induction l as [|x l IH]; simpl; [apply errs_ret|].
  apply errs_bind; [done|]. intros y.
  apply errs_bind; [done|]. intros ys. apply errs_ret.
Qed.

Lemma errs_foldM {A S} (f : S → A → M LoadResult S) l :
  (∀ s a, returns_errors (f s a)) → ∀ s, returns_errors (foldM f l s).
Proof.
  intros Hf. induction l as [|x l IH]; intros s; simpl; [apply errs_ret|].
  apply errs_bind; [done|]. done.
Qed.

Ltac errs :=
  repeat first
    [ apply errs_ret | apply errs_fatal | apply errs_panic | apply errs_return
    | apply errs_new | apply errs_store | apply errs_load_string
    | apply errs_load_bool | apply errs_load_slice
    | apply errs_bind; [|intros ?]
    | apply errs_iterM; intros ?
    | apply errs_forM; intros ?
    | apply errs_foldM; intros ? ?
    | match goal with
      | |- returns_errors (match ?x with _ => _ end) => destruct x
      end
    | done ].

Lemma errs_check_template nt : returns_errors (check_template nt).
Proof. unfold check_template. errs. Qed.

Lemma errs_set_default p sf : returns_errors (set_default p sf).
Proof. unfold set_default. errs. Qed.

Lemma errs_assign_template t templates p :
  returns_errors (assign_template t templates p).
Proof. unfold assign_template. errs. Qed.

Lemma errs_resolve_peer rt t templates st :
  returns_errors (resolve_peer rt t templates st).
Proof.
  unfold resolve_peer. destruct st as [[n p] q].
  errs; first [apply errs_assign_template | apply errs_set_default].
Qed.

Lemma errs_peers_loop rt t templates peers q :
  returns_errors (peers_loop rt t templates peers q).
Proof.
  revert q. induction peers as [|[n p] peers IH]; intros q; simpl.
  - apply errs_ret.
  - apply errs_bind; [apply errs_resolve_peer|]. intros [[n1 p1] q1].
    apply errs_bind; [apply IH|]. intros [rest q2]. apply errs_ret.
Qed.

Lemma errs_by_family rt what ps v4 v6 :
  returns_errors (by_family rt what ps v4 v6).
Proof.
  revert v4 v6. induction ps as [|x ps IH]; intros v4 v6; simpl.
  - apply errs_ret.
  - destruct (ParseCIDR rt x) as [pfx|]; [|apply errs_return].
    destruct (net.To4 pfx); apply IH.
Qed.

Lemma errs_categorize_SRD cs std lrg : returns_errors (categorize_SRD cs std lrg).
Proof.
  revert std lrg. induction cs as [|c cs IH]; intros std lrg; simpl.
  - apply errs_ret.
  - repeat case_decide; [apply IH..|apply errs_return].
Qed.

Lemma errs_parse_statics rt statics s4 s6 :
  returns_errors (parse_statics rt statics s4 s6).
Proof.
  revert s4 s6. induction statics as [|[x nh] l IH]; intros s4 s6; simpl.
  - apply errs_ret.
  - destruct (ParseCIDR rt x) as [pfx|]; [|apply errs_return].
    destruct (ParseIP rt nh); [|apply errs_return].
    destruct (net.To4 pfx); apply IH.
Qed.

Lemma errs_parse_BFD rt nb : returns_errors (parse_BFD rt nb).
Proof. unfold parse_BFD. errs. Qed.

Lemma errs_parse_VRRP rt nv : returns_errors (parse_VRRP rt nv).
Proof.
  unfold parse_VRRP. destruct nv as [n v].
  apply errs_bind; [apply errs_by_family|]. intros [v4 v6].
  apply errs_bind; [|intros; apply errs_ret].
  repeat case_decide; errs.
Qed.

Lemma errs_parse_RTR s : returns_errors (parse_RTR s).
Proof. unfold parse_RTR. repeat case_decide; errs. Qed.

Lemma errs_add_prefix rt p x : returns_errors (add_prefix rt p x).
Proof. unfold add_prefix. errs. Qed.

Lemma errs_append_to f p x : returns_errors (append_to f p x).
Proof. unfold append_to. errs. Qed.

Lemma errs_add_community what std lrg p c :
  returns_errors (add_community what std lrg p c).
Proof.
  unfold add_community. repeat case_decide;
    [apply errs_append_to..|apply errs_return].
Qed.

Lemma errs_categorize_field what src std lrg p :
  returns_errors (categorize_field what src std lrg p).
Proof.
  unfold categorize_field. destruct (p !! src); [|apply errs_ret].
  apply errs_bind; [apply errs_load_slice|]. intros cs.
  apply errs_foldM. intros. apply errs_add_community.
Qed.

Lemma errs_check_originated prefixes p :
  returns_errors (check_originated prefixes p).
Proof. unfold check_originated. case_decide; errs. Qed.

Lemma errs_finish_peer rt prefixes np : returns_errors (finish_peer rt prefixes np).
Proof.
  unfold finish_peer. destruct np as [n p].
  apply errs_bind.
  { destruct (p !! "Prefixes"); [|apply errs_ret].
    apply errs_bind; [apply errs_load_slice|]. intros ps.
    apply errs_foldM. intros. apply errs_add_prefix. }
  intros p0. repeat (apply errs_bind; [apply errs_categorize_field|intros ?]).
  apply errs_bind; [apply errs_check_originated|]. intros _. apply errs_ret.
Qed.

(** A computation that returns early with a configuration has not
    returned from a step that returns errors only. *)
Lemma bind_Return_Some {A B} (m : M LoadResult A) (k : A → M LoadResult B)
    h x e :
  returns_errors m → bind m k h = Return (Some x, e) →
  ∃ a h1, m h = Ok (a, h1) ∧ k a h1 = Return (Some x, e).
Proof.
  intros Hm H. apply bind_Return_inv in H as [H|?]; [|done].
  by destruct (Hm _ _ H) as [? _].
Qed.

(** ** The steps between the two loops *)

Lemma pure_bind {R A B} (m : M R A) (k : A → M R B) :
  heap_pure m → (∀ a, heap_pure (k a)) → heap_pure (bind m k).
Proof.
  intros Hm Hk h b h' H. apply bind_Ok_inv in H as (a & h1 & H1 & H2).
  apply Hm in H1 as ->. by eapply Hk.
Qed.

Lemma pure_ret {R A} (a : A) : heap_pure (ret (R := R) a).
Proof. by intros h b h' [= _ ->]. Qed.
Lemma pure_fatal {R A} msg : heap_pure (fatal (R := R) (A := A) msg).
Proof. by intros h b h'. Qed.
Lemma pure_panic {R A} msg : heap_pure (panic (R := R) (A := A) msg).
Proof. by intros h b h'. Qed.
Lemma pure_return {R A} r : heap_pure (return_ (R := R) (A := A) r).
Proof. by intros h b h'. Qed.
Lemma pure_load_string {R} l : heap_pure (load_string (R := R) l).
Proof. intros h b h' H. by apply load_string_inv in H as [_ ->]. Qed.

Lemma pure_iterM {R A} (f : A → M R unit) l :
  (∀ a, heap_pure (f a)) → heap_pure (iterM f l).
Proof.
  intros Hf. induction l as [|x l IH]; simpl; [apply pure_ret|].
  apply pure_bind; [done|]. by intros _.
Qed.

Lemma pure_forM {R A B} (f : A → M R B) l :
  (∀ a, heap_pure (f a)) → heap_pure (forM f l).
Proof.
  intros Hf. induction l as [|x l IH]; simpl; [apply pure_ret|].
  apply pure_bind; [done|]. intros y.
  apply pure_bind; [done|]. intros ys. apply pure_ret.
Qed.

Ltac pure :=
  repeat first
    [ apply pure_ret | apply pure_fatal | apply pure_panic | apply pure_return
    | apply pure_load_string
    | apply pure_bind; [|intros ?]
    | match goal with
      | |- heap_pure (match ?x with _ => _ end) => destruct x
      end
    | done ].

(** Sorting by address family, in closed form: the first prefix that
    does not parse ends [Load] with an error that names it; without one,
    the prefixes go to the two lists in order. *)
Lemma by_family_eq rt what ps v4 v6 h :
  by_family rt what ps v4 v6 h =
  match list_find (λ x, ParseCIDR rt x = None) ps with
  | Some (_, x) => Return (None, Some ("Invalid " +:+ what +:+ ": " +:+ x))
  | None => Ok ((v4 ++ filter (is_v4 rt) ps, v6 ++ filter (is_v6 rt) ps), h)
  end.
Proof.
  revert v4 v6. induction ps as [|x ps IH]; intros v4 v6; simpl.
  { by rewrite !filter_nil, !app_nil_r. }
  destruct (ParseCIDR rt x) as [pfx|] eqn:Ep.
  - rewrite decide_False by done.
    assert (Hv4 : is_v4 rt x = bool_decide (is_Some (net.To4 pfx))).
    { unfold is_v4. by rewrite Ep. }
    assert (Hv6 : is_v6 rt x = bool_decide (net.To4 pfx = None)).
    { unfold is_v6. by rewrite Ep. }
    destruct (net.To4 pfx) as [ip4|] eqn:E4; rewrite IH;
      destruct (list_find _ ps) as [[i y]|]; simpl; try done.
    + rewrite filter_cons_True by (rewrite Hv4; apply bool_decide_pack; eauto).
      rewrite filter_cons_False by
        (rewrite Hv6; by intros Hx%bool_decide_unpack).
      by rewrite <- (assoc_L (++)).
    + rewrite filter_cons_False by
        (rewrite Hv4; intros Hx%bool_decide_unpack; by destruct Hx).
      rewrite filter_cons_True by (rewrite Hv6; by apply bool_decide_pack).
      by rewrite <- (assoc_L (++)).
  - by rewrite decide_True by done.
Qed.

Lemma by_family_Ok rt what ps v4 v6 h a b h' :
  by_family rt what ps v4 v6 h = Ok ((a, b), h') →
  h' = h ∧ Forall (λ x, is_Some (ParseCIDR rt x)) ps ∧
  a = v4 ++ filter (is_v4 rt) ps ∧ b = v6 ++ filter (is_v6 rt) ps.
Proof.
  rewrite by_family_eq.
  destruct (list_find _ ps) as [[i y]|] eqn:Ef; [done|].
  intros [= <- <- <-]. split_and!; [done| |done..].
  apply Forall_forall. intros x Hx.
  apply list_find_None in Ef. rewrite Forall_forall in Ef.
  destruct (ParseCIDR rt x) eqn:E; [eauto|]. by destruct (Ef x Hx).
Qed.

Lemma pure_by_family rt what ps v4 v6 : heap_pure (by_family rt what ps v4 v6).
Proof. intros h [a b] h' H. by apply by_family_Ok in H as [-> _]. Qed.

Lemma pure_check_template nt : heap_pure (check_template nt).
Proof. unfold check_template. pure. Qed.

Lemma pure_categorize_SRD cs std lrg : heap_pure (categorize_SRD cs std lrg).
Proof.
  revert std lrg. induction cs as [|c cs IH]; intros std lrg; simpl.
  - apply pure_ret.
  - repeat case_decide; [apply IH..|apply pure_return].
Qed.

Lemma pure_parse_statics rt statics s4 s6 :
  heap_pure (parse_statics rt statics s4 s6).
Proof.
  revert s4 s6. induction statics as [|[x nh] l IH]; intros s4 s6; simpl.
  - apply pure_ret.
  - destruct (ParseCIDR rt x) as [pfx|]; [|apply pure_return].
    destruct (ParseIP rt nh); [|apply pure_return].
    destruct (net.To4 pfx); apply IH.
Qed.

Lemma pure_parse_BFD rt nb : heap_pure (parse_BFD rt nb).
Proof. unfold parse_BFD. pure. Qed.

Lemma pure_parse_VRRP rt nv : heap_pure (parse_VRRP rt nv).
Proof.
  unfold parse_VRRP. destruct nv as [n v].
  apply pure_bind; [apply pure_by_family|]. intros [v4 v6].
  apply pure_bind; [|intros; apply pure_ret].
  repeat case_decide; pure.
Qed.

Lemma pure_parse_RTR s : heap_pure (parse_RTR s).
Proof. unfold parse_RTR. repeat case_decide; pure. Qed.

Arguments check_template : simpl never.

(** The check of the templates passes when no template names a
    template. *)
Lemma check_templates_Ok templates h u h' :
  iterM check_template templates h = Ok (u, h') →
  Forall (λ nt : string * Peer,
            match nt.2 !! "Template" with
            | None => True
            | Some l => h !! l = Some (VString "")
            end) templates.
Proof.
  revert h'. induction templates as [|[n p] ts IH]; intros h' H; simpl in H.
  { constructor. }
  apply bind_Ok_inv in H as ([] & h1 & Hm & H).
  pose proof (pure_check_template (n, p) _ _ _ Hm) as ->.
  constructor; [|by eapply IH]. simpl.
  unfold check_template in Hm. destruct (p !! "Template") as [l|]; [|done].
  apply bind_Ok_inv in Hm as (s & h2 & Hs & Hm).
  apply load_string_inv in Hs as [Hs ->].
  case_decide as Hne; [done|]. destruct (decide (s = "")) as [->|]; done.
Qed.

(** ** Load as a whole *)

Lemma derived_special f :
  f ∈ derived_fields → field f reflect.Slice "-" "-" ∈ special_fields.
Proof.
  unfold derived_fields. intros Hin.
  repeat (apply elem_of_cons in Hin as [->|Hin];
          [apply (bool_decide_unpack _); by vm_compute|]).
  by apply elem_of_nil in Hin.
Qed.

(** A field that no document can set is nil in what the decoder makes. *)
Lemma decoded_hidden t h d (p : Peer) sf :
  schema_ok t → decoded t h d p → sf ∈ special_fields → Tag_yaml sf = "-" →
  p !! Name sf = None.
Proof.
  intros Hs (Hfrom & _) Hin Hy.
  destruct (p !! Name sf) as [l|] eqn:E; [|done].
  destruct (Hfrom _ _ E) as (sf' & v & Hin' & Hn & Hvis & _).
  rewrite (special_field_eq t sf' sf Hs Hin Hin' Hn) in Hvis. done.
Qed.

(** After the first loop the derived fields of a peer are still nil. *)
Lemma resolved1_derived_nil t Σ0 h0 tdocs templates Σ h nd np0 np1 f :
  schema_ok t →
  Forall2 (decoded_entry t Σ0 h0) tdocs templates →
  decoded_entry t Σ0 h0 nd np0 →
  resolved1 t templates Σ h np0 np1 →
  f ∈ derived_fields → np1.2 !! f = None.
Proof.
  intros Hs Ht (_ & _ & Hdec) (_ & _ & _ & _ & Hfrom & _) Hf.
  pose proof (derived_special f Hf) as Hsp.
  destruct (np1.2 !! f) as [l|] eqn:E; [|done].
  destruct (Hfrom f l E) as [->|[->|[H0|[(tn & tmpl & Hlook & Htf & _)|(sf & Hin & Hn & Hd)]]]].
  - apply (bool_decide_pack _) in Hf. by vm_compute in Hf.
  - apply (bool_decide_pack _) in Hf. by vm_compute in Hf.
  - pose proof (decoded_hidden t h0 nd.2 np0.2 _ Hs Hdec Hsp eq_refl) as Hnil.
    simpl in Hnil. congruence.
  - apply elem_of_list_to_map_2 in Hlook.
    apply list_elem_of_lookup in Hlook as [i Hi].
    destruct (Forall2_lookup_r _ _ _ _ _ Ht Hi) as (td & _ & (_ & _ & Hdt)).
    simpl in Hdt.
    pose proof (decoded_hidden t h0 td.2 tmpl _ Hs Hdt Hsp eq_refl) as Hnil.
    simpl in Hnil. congruence.
  - rewrite (special_field_eq t sf _ Hs Hsp Hin Hn) in Hd. done.
Qed.

Lemma Load_inv rt t d c h :
  schema_ok t →
  Load_with rt t (Parsed d) = Returns (Some (c, h)) None →
  ∃ peers0 Σ0 h0 peers1 Σ1 h1 Σ2,
    let w := bool_decide (Doc.Prefixes d = []) in
    validate_Struct rt d = None ∧
    store_ok Σ0 h0 ∧
    Forall2 (decoded_entry t Σ0 h0) (Doc.Peers d) peers0 ∧
    Forall2 (decoded_entry t Σ0 h0) (Doc.Templates d) (Templates c) ∧
    Forall (λ nt : string * Peer,
              match nt.2 !! "Template" with
              | None => True
              | Some l => h0 !! l = Some (VString "")
              end) (Templates c) ∧
    extends false Σ0 h0 Σ1 h1 ∧
    Forall2 (resolved1 t (Templates c) Σ1 h1) peers0 peers1 ∧
    QueryNVRS c = existsb has_NVRS peers0 ∧
    Prefixes c = Doc.Prefixes d ∧
    Forall (λ x, is_Some (ParseCIDR rt x)) (Doc.Prefixes d) ∧
    Prefixes4 c = filter (is_v4 rt) (Doc.Prefixes d) ∧
    Prefixes6 c = filter (is_v6 rt) (Doc.Prefixes d) ∧
    extends w Σ1 h1 Σ2 h ∧
    Forall2 (resolved2 rt (Doc.Prefixes d) Σ2 h) peers1 (Peers c).
Proof.
  intros Hs H. unfold Load_with in H.
  destruct (Unmarshal t d []) as [[[peers0 templates] h0]| | |] eqn:Hu;
    [|done..].
  destruct (validate_Struct rt d) eqn:Hv; [done|].
  destruct (Unmarshal_spec _ _ _ _ _ Hs Hu) as (Σ0 & Hok0 & Hp0 & Ht0).
  destruct (resolve rt t d peers0 templates h0) as [[[] ?]|[c' e]| |] eqn:Hr;
    simpl in H; [|done..].
  injection H as Hc' He'. subst c' e. unfold resolve in Hr.
  apply bind_Return_Some in Hr as ([] & h1 & Hchk & Hr);
    [|apply errs_iterM; intros; apply errs_check_template].
  pose proof (pure_iterM _ _ (λ a, pure_check_template a) _ _ _ Hchk) as ->.
  apply check_templates_Ok in Hchk.
  apply bind_Return_Some in Hr as (hostname & h1 & Hhost & Hr);
    [|case_decide; errs].
  assert (h1 = h0) as ->.
  { revert Hhost. case_decide; [destruct (os_Hostname rt)|]; try done;
      by intros [= _ ->]. }
  apply bind_Return_Some in Hr as ([peers1 q] & h1 & Hloop & Hr);
    [|apply errs_peers_loop].
  apply bind_Return_Some in Hr as ([p4 p6] & h2 & Hfam & Hr);
    [|apply errs_by_family].
  apply by_family_Ok in Hfam as (-> & Hparse & -> & ->).
  apply bind_Return_Some in Hr as ([s1 s2] & h2 & Hsrd & Hr);
    [|apply errs_categorize_SRD].
  apply pure_categorize_SRD in Hsrd as ->.
  apply bind_Return_Some in Hr as ([st4 st6] & h2 & Hst & Hr);
    [|apply errs_parse_statics].
  apply pure_parse_statics in Hst as ->.
  apply bind_Return_Some in Hr as (bfd & h2 & Hbfd & Hr);
    [|apply errs_forM; intros; apply errs_parse_BFD].
  apply (pure_forM _ _ (pure_parse_BFD rt)) in Hbfd as ->.
  apply bind_Return_Some in Hr as (vrrp & h2 & Hvrrp & Hr);
    [|apply errs_forM; intros; apply errs_parse_VRRP].
  apply (pure_forM _ _ (pure_parse_VRRP rt)) in Hvrrp as ->.
  apply bind_Return_Some in Hr as ([host port] & h2 & Hrtr & Hr);
    [|apply errs_parse_RTR].
  apply pure_parse_RTR in Hrtr as ->.
  apply bind_Return_Some in Hr as (peers2 & h2 & Hfin & Hr);
    [|apply errs_forM; intros; apply errs_finish_peer].
  injection Hr as Hc Hh. subst c h. simpl.
  (* the first loop *)
  destruct (peers_loop_spec rt t templates Hs peers0 Σ0 h0 false peers1 q h1
              Hok0) as (Σ1 & He1 & HF1 & ->); [| |done|].
  { eapply Forall2_Forall_r; [exact Hp0|]. apply Forall_forall.
    by intros nd _ np (_ & ? & _). }
  { eapply Forall2_Forall_r; [exact Ht0|]. apply Forall_forall.
    by intros nd _ np (_ & ? & _). }
  (* the second loop *)
  set (w := bool_decide (Doc.Prefixes d = [])).
  destruct (forM_spec (finish_peer rt (Doc.Prefixes d)) w
              (λ Σ _ np, tagged Σ np.2 ∧
                         ∀ f, f ∈ derived_fields → np.2 !! f = None)
              (resolved2 rt (Doc.Prefixes d)))
    with (l := peers1) (Σ := Σ1) (h := h1) (l' := peers2) (h' := h2)
    as (Σ2 & He2 & HF2).
  { intros Σ hx Σ' hx' np [Htag Hnil] He. split; [|done].
    by eapply tagged_mono, extends_prefix. }
  { intros. by eapply resolved2_mono. }
  { intros Σ hx [n p] [n' p'] hx' Hok [Htag Hnil] Hf.
    eapply finish_peer_spec; [|done..].
    intros Hp. unfold w. by apply bool_decide_eq_true. }
  { by eapply extends_store_ok. }
  { apply Forall_forall. intros np1 Hin.
    apply list_elem_of_lookup in Hin as [i Hi].
    destruct (Forall2_lookup_r _ _ _ _ _ HF1 Hi) as (np0 & Hi0 & Hres).
    destruct (Forall2_lookup_r _ _ _ _ _ Hp0 Hi0) as (nd & _ & Hdec).
    split.
    - by destruct Hres as (_ & _ & ? & _).
    - intros f Hf. by eapply resolved1_derived_nil. }
  { done. }
  exists peers0, Σ0, h0, peers1, Σ1, h1, Σ2.
  rewrite orb_false_l. split_and!; done.
Qed.

(** ** From the document to the resolved peer *)

(** A field that a document can set is set in the decoded struct exactly
    when the document has its key. *)
Lemma decoded_is_Some t h d (p : Peer) sf :
  schema_ok t → decoded t h d p → sf ∈ t → Tag_yaml sf ≠ "-" →
  is_Some (p !! Name sf) ↔ is_Some (d !! Tag_yaml sf).
Proof.
  intros Hs (Hfrom & Hto & _) Hin Hvis. split.
  - intros [l Hl]. destruct (Hfrom _ _ Hl) as (sf' & v & Hin' & Hn & _ & Hd & _).
    rewrite (field_unique t sf' sf (schema_names _ Hs) Hin' Hin Hn) in Hd. eauto.
  - intros [v Hv]. destruct (Hto sf v Hin Hvis Hv) as (l & Hl & _). eauto.
Qed.

(** The value of a field in the decoded struct is the value of its key. *)
Lemma decoded_value t h d (p : Peer) sf l :
  schema_ok t → decoded t h d p → sf ∈ t → p !! Name sf = Some l →
  Tag_yaml sf ≠ "-" ∧ ∃ v, d !! Tag_yaml sf = Some v ∧ h !! l = Some v.
Proof.
  intros Hs (Hfrom & _ & _) Hin Hl.
  destruct (Hfrom _ _ Hl) as (sf' & v & Hin' & Hn & Hvis & Hd & Hv).
  rewrite (field_unique t sf' sf (schema_names _ Hs) Hin' Hin Hn) in Hvis, Hd.
  eauto.
Qed.

(** The names of the fields that a document can set are not those the
    code sets itself. *)
Lemma visible_not_hidden t sf sf' :
  schema_ok t → sf ∈ t → Tag_yaml sf ≠ "-" →
  sf' ∈ special_fields → Tag_yaml sf' = "-" → Name sf ≠ Name sf'.
Proof.
  intros Hs Hin Hvis Hin' Hhid Hn.
  rewrite (special_field_eq t sf sf' Hs Hin' Hin Hn) in Hvis. done.
Qed.

Lemma visible_not_derived t sf :
  schema_ok t → sf ∈ t → Tag_yaml sf ≠ "-" → Name sf ∉ derived_fields.
Proof.
  intros Hs Hin Hvis Hd. apply derived_special in Hd.
  by eapply (visible_not_hidden t sf _ Hs Hin Hvis Hd).
Qed.

Lemma visible_not_set_by_code t sf :
  schema_ok t → sf ∈ t → Tag_yaml sf ≠ "-" →
  Name sf ≠ "ProtocolName" ∧ Name sf ≠ "BooleanOptions".
Proof.
  intros Hs Hin Hvis. split.
  - eapply (visible_not_hidden t sf (field "ProtocolName" reflect.String "-" "-"));
      [done..| |done]. apply (bool_decide_unpack _). by vm_compute.
  - eapply (visible_not_hidden t sf (field "BooleanOptions" reflect.Slice "-" "-"));
      [done..| |done]. apply (bool_decide_unpack _). by vm_compute.
Qed.

(** Looking a name up in two lists of named entries that are related
    entry by entry. *)
Lemma Forall2_list_to_map {A B} (R : A → B → Prop)
    (l : list (string * A)) (l' : list (string * B)) k a :
  Forall2 (λ x y, x.1 = y.1 ∧ R x.2 y.2) l l' →
  list_to_map (M := gmap string A) l !! k = Some a →
  ∃ b, list_to_map (M := gmap string B) l' !! k = Some b ∧ R a b.
Proof.
  induction 1 as [|[n x] [n' y] l l' [Hn HR] _ IH]; simpl.
  { by rewrite lookup_empty. }
  simpl in Hn. subst n'. rewrite !lookup_insert. case_decide; [|done].
  intros [= <-]. eauto.
Qed.

Lemma Forall2_list_to_map_r {A B} (R : A → B → Prop)
    (l : list (string * A)) (l' : list (string * B)) k b :
  Forall2 (λ x y, x.1 = y.1 ∧ R x.2 y.2) l l' →
  list_to_map (M := gmap string B) l' !! k = Some b →
  ∃ a, list_to_map (M := gmap string A) l !! k = Some a ∧ R a b.
Proof.
  induction 1 as [|[n x] [n' y] l l' [Hn HR] _ IH]; simpl.
  { by rewrite lookup_empty. }
  simpl in Hn. subst n'. rewrite !lookup_insert. case_decide; [|done].
  intros [= <-]. eauto.
Qed.

(** ** The claims about the classifier and about how [Load] ends *)

(** C1.  [categorizeCommunity] returns "standard" exactly for the tokens
    whose split on a comma has two components that parse as integers of
    0..65535, "large" exactly for the tokens whose split on a colon has
    three components that parse as integers of 0..4294967295, and the
    empty string (invalid) in every other case. *)
Theorem categorizeCommunity_spec token :
  (categorizeCommunity token = "standard" ↔ standard_form token) ∧
  (categorizeCommunity token = "large" ↔ large_form token) ∧
  (¬ standard_form token → ¬ large_form token →
   categorizeCommunity token = "").
Proof.
  split_and!.
  - apply categorize_standard_iff.
  - apply categorize_large_iff.
  - intros Hs Hl. destruct (categorize_cases token) as [H|[H|H]].
    + by apply categorize_standard_iff in H.
    + by apply categorize_large_iff in H.
    + done.
Qed.

(** What [Load] returns from the decoded configuration on: a
    configuration and no error, or no configuration and an error. *)
Lemma resolve_returns rt t d peers templates h c err :
  resolve rt t d peers templates h = Return (c, err) →
  (c = None ∧ is_Some err) ∨ (is_Some c ∧ err = None).
Proof.
  unfold resolve. intros H.
  repeat match type of H with
  | bind ?m _ _ = Return _ =>
      apply bind_Return_inv in H as [H|(? & ? & _ & H)];
      [left;
       assert (returns_errors m) as Herr by
         first [ apply errs_iterM; intros; apply errs_check_template
               | apply errs_peers_loop | apply errs_by_family
               | apply errs_categorize_SRD | apply errs_parse_statics
               | apply errs_forM; intros; apply errs_parse_BFD
               | apply errs_forM; intros; apply errs_parse_VRRP
               | apply errs_parse_RTR
               | apply errs_forM; intros; apply errs_finish_peer
               | case_decide; errs ];
       exact (Herr _ _ H)|]
  | (let '(_, _) := ?x in _) _ = Return _ => destruct x
  end.
  injection H as <- <-. right. eauto.
Qed.

(** C9 (as amended).  Whenever [Load] returns, it returns either a
    configuration with a nil error or no configuration with an error: a
    failure that is reported by returning never comes with a
    configuration, resolved in part or in full.  (A failure can also end
    the process, through [log.Fatalf] or a panic, and then [Load] returns
    nothing at all.) *)
Theorem Load_all_or_nothing rt configBlob :
  match Load rt configBlob with
  | Returns c err => (c = None ∧ is_Some err) ∨ (is_Some c ∧ err = None)
  | Exits _ | Panics _ => True
  end.
Proof.
  unfold Load, Load_with. destruct configBlob as [e|d]; [left; eauto|].
  destruct (Unmarshal Peer_type d []) as [[[peers templates] h0]|e| |];
    [|left; eauto|done..].
  destruct (validate_Struct rt d); [left; eauto|].
  destruct (resolve rt Peer_type d peers templates h0)
    as [[[] ?]|[c err]| |] eqn:Hr; simpl; [|done..].
  by eapply resolve_returns.
Qed.

(** ** The claims about the first loop *)

(** C10.  When [Load] succeeds, the flag [QueryNVRS] is set exactly when
    the document sets [filter-never-via-route-servers] for some peer,
    whatever the value it sets it to; the field of a template and the
    default of the field do not count. *)
Theorem QueryNVRS_iff rt d c h
    (Hload : Load rt (Parsed d) = Returns (Some (c, h)) None) :
  QueryNVRS c = true ↔
  ∃ name pd, (name, pd) ∈ Doc.Peers d ∧
             is_Some (pd !! "filter-never-via-route-servers").
Proof.
  destruct (Load_inv rt Peer_type d c h Peer_type_ok Hload)
    as (peers0 & Σ0 & h0 & peers1 & Σ1 & h1 & Σ2 & _ & _ & Hp0 & _ & _ & _ &
        _ & Hq & _).
  rewrite Hq. clear Hq Hload.
  set (sf := field "FilterNeverViaRouteServers" reflect.Bool
               "filter-never-via-route-servers" "false").
  assert (Hsf : sf ∈ Peer_type).
  { apply (bool_decide_unpack _). by vm_compute. }
  assert (Hiff : ∀ nd np, decoded_entry Peer_type Σ0 h0 nd np →
            has_NVRS np = true ↔
            is_Some (nd.2 !! "filter-never-via-route-servers")).
  { intros nd np (_ & _ & Hdec). unfold has_NVRS.
    rewrite bool_decide_eq_true.
    by apply (decoded_is_Some Peer_type h0 nd.2 np.2 sf Peer_type_ok). }
  rewrite existsb_exists. split.
  - intros (np & Hin & Hn). apply list_elem_of_In in Hin.
    apply list_elem_of_lookup in Hin as [i Hi].
    destruct (Forall2_lookup_r _ _ _ _ _ Hp0 Hi) as ([name pd] & Hid & Hdec).
    exists name, pd. split; [by eapply list_elem_of_lookup_2|].
    by apply (Hiff _ _ Hdec).
  - intros (name & pd & Hin & Hk).
    apply list_elem_of_lookup in Hin as [i Hi].
    destruct (Forall2_lookup_l _ _ _ _ _ Hp0 Hi) as (np & Hi0 & Hdec).
    exists np. split; [by eapply list_elem_of_In, list_elem_of_lookup_2|].
    by apply (Hiff _ _ Hdec).
Qed.

(** A peer without neighbors of its own ends its round of the first loop
    with the fatal error about its neighbors, before its template is
    looked at. *)
Lemma resolve_peer_no_neighbors rt t templates n (p : Peer) q h :
  no_neighbors h p →
  resolve_peer rt t templates (n, p, q) h = Fatal (neighbors_error n).
Proof.
  intros Hno. unfold no_neighbors in Hno.
  unfold resolve_peer, bind, new.
  rewrite lookup_insert_ne; [|discriminate].
  destruct (p !! "NeighborIPs") as [l|]; [|reflexivity].
  unfold load_slice, bind, load.
  rewrite (lookup_app_l_Some _ _ _ _ Hno). reflexivity.
Qed.

(** The loop ends with that error at the first such peer that it
    reaches. *)
Lemma peers_loop_no_neighbors rt t templates pre n (p : Peer) post :
  ∀ q h pre' q' h',
    peers_loop rt t templates pre q h = Ok ((pre', q'), h') →
    no_neighbors h' p →
    peers_loop rt t templates (pre ++ (n, p) :: post) q h =
    Fatal (neighbors_error n).
Proof.
  induction pre as [|[m pm] pre IH]; intros q h pre' q' h' Hpre Hno.
  - unfold peers_loop, ret in Hpre. injection Hpre as <- <- <-.
    cbn [app peers_loop]. unfold bind at 1.
    by rewrite resolve_peer_no_neighbors.
  - cbn [app peers_loop] in Hpre |- *.
    apply bind_Ok_inv in Hpre as ([[m1 pm1] q1] & h1 & Hm & Hpre).
    apply bind_Ok_inv in Hpre as ([rest1 q2] & h2 & Hrest & Hpre).
    unfold ret in Hpre. injection Hpre as <- <- <-.
    unfold bind at 1. rewrite Hm. unfold bind at 1.
    by rewrite (IH _ _ _ _ _ Hrest Hno).
Qed.

(** C6 (as amended).  The neighbors of a peer are checked before the
    fields of its template are assigned.  [Load] succeeds only if every
    peer of the document sets a list of neighbors of its own that is not
    empty, whatever its template sets.  The round of the first loop for
    a peer whose own list of neighbors is nil or empty ends with the
    fatal error "[<peer>] has no neighbors defined", whatever the
    templates are; the loop ends with that error when it reaches such a
    peer, and so does [Load] when the steps before that round have not
    ended it.  A peer of the document without the key "neighbors" is
    such a peer. *)
Theorem neighbors_are_the_peers_own rt d c h name pd
    (Hload : Load rt (Parsed d) = Returns (Some (c, h)) None)
    (Hpeer : (name, pd) ∈ Doc.Peers d) :
  (∃ ips, pd !! "neighbors" = Some (VSlice ips) ∧ ips ≠ []) ∧
  (∀ t templates peerName (peerData : Peer) queryNVRS hp,
     no_neighbors hp peerData →
     resolve_peer rt t templates (peerName, peerData, queryNVRS) hp =
     Fatal ("[" +:+ peerName +:+ "] has no neighbors defined")) ∧
  (∀ t templates before peerName (peerData : Peer) after queryNVRS h0
     before' queryNVRS' hp,
     peers_loop rt t templates before queryNVRS h0 =
       Ok ((before', queryNVRS'), hp) →
     no_neighbors hp peerData →
     peers_loop rt t templates (before ++ (peerName, peerData) :: after)
       queryNVRS h0 =
     Fatal ("[" +:+ peerName +:+ "] has no neighbors defined")) ∧
  (∀ d' before peerName (peerData : Peer) after templates h0 h1
     before' queryNVRS' hp,
     Unmarshal Peer_type d' [] =
       Ok ((before ++ (peerName, peerData) :: after, templates), h0) →
     validate_Struct rt d' = None →
     iterM check_template templates h0 = Ok ((), h1) →
     (Doc.Hostname d' = "" → ∃ hostname, os_Hostname rt = inl hostname) →
     peers_loop rt Peer_type templates before false h1 =
       Ok ((before', queryNVRS'), hp) →
     no_neighbors hp peerData →
     Load rt (Parsed d') =
     Exits ("[" +:+ peerName +:+ "] has no neighbors defined")) ∧
  (∀ d' peers templates h0 i peerName pd',
     Unmarshal Peer_type d' [] = Ok ((peers, templates), h0) →
     Doc.Peers d' !! i = Some (peerName, pd') →
     pd' !! "neighbors" = None →
     ∃ peerData, peers !! i = Some (peerName, peerData) ∧
                 ∀ hp, no_neighbors hp peerData).
Proof.
  split_and!.
  - destruct (Load_inv rt Peer_type d c h Peer_type_ok Hload)
      as (peers0 & Σ0 & h0 & peers1 & Σ1 & h1 & Σ2 & _ & Hok0 & Hp0 & _ & _ &
          He1 & Hp1 & _).
    apply list_elem_of_lookup in Hpeer as [i Hi].
    destruct (Forall2_lookup_l _ _ _ _ _ Hp0 Hi)
      as (np0 & Hi0 & _ & Htag0 & Hdec).
    destruct (Forall2_lookup_l _ _ _ _ _ Hp1 Hi0)
      as (np1 & _ & _ & _ & _ & _ & _ & (l & ips & Hl & Hips & Hne) & _).
    set (sf := field "NeighborIPs" reflect.Slice "neighbors" "-").
    assert (Hsf : sf ∈ Peer_type).
    { apply (bool_decide_unpack _). by vm_compute. }
    destruct (decoded_value Peer_type h0 pd np0.2 sf l Peer_type_ok Hdec Hsf Hl)
      as (_ & v & Hv & Hlv).
    exists ips. split; [|done]. simpl in Hv. rewrite Hv. f_equal.
    pose proof (extends_false_lookup _ _ _ _ _ _ He1 Hlv). congruence.
  - intros. by apply resolve_peer_no_neighbors.
  - intros. by eapply peers_loop_no_neighbors.
  - intros d' before n p after templates h0 h1 before' q' hp
      Hdec Hval Hcheck Hhost Hloop Hno.
    unfold Load, Load_with. rewrite Hdec, Hval.
    unfold resolve. unfold bind at 1. rewrite Hcheck.
    assert (Hhn : ∃ hostname,
      (if decide (Doc.Hostname d' = "") then
         match os_Hostname rt with
         | inl hostname => ret hostname
         | inr err =>
             fatal ("Hostname is not defined and unable to get system hostname: "
                    +:+ err)
         end
       else ret (Doc.Hostname d')) h1 =
      (Ok (hostname, h1) : result LoadResult (string * heap))).
    { destruct (decide (Doc.Hostname d' = "")) as [He|_]; [|by eexists].
      destruct (Hhost He) as [hn ->]. by eexists. }
    destruct Hhn as [hn Hhn]. unfold bind at 1. rewrite Hhn.
    unfold bind at 1.
    by rewrite (peers_loop_no_neighbors _ _ _ _ _ _ _ _ _ _ _ _ Hloop Hno).
  - intros d' peers templates h0 i n pd' Hu Hi Hnone.
    destruct (Unmarshal_spec _ _ _ _ _ Peer_type_ok Hu) as (Σ0 & _ & Hp0 & _).
    destruct (Forall2_lookup_l _ _ _ _ _ Hp0 Hi)
      as ([n' p] & Hi0 & Hn & _ & Hdec).
    simpl in Hn, Hdec. subst n'. exists p. split; [done|]. intros hp.
    unfold no_neighbors. destruct (p !! "NeighborIPs") as [l|] eqn:Hl; [|done].
    set (sf := field "NeighborIPs" reflect.Slice "neighbors" "-").
    assert (Hsf : sf ∈ Peer_type).
    { apply (bool_decide_unpack _). by vm_compute. }
    destruct (decoded_value Peer_type h0 pd' p sf l Peer_type_ok Hdec Hsf Hl)
      as (_ & v & Hv & _).
    simpl in Hv. by rewrite Hnone in Hv.
Qed.

(** Setting a default is a fatal error for a field without the tag, and
    leaves alone a field whose tag is "-". *)
Lemma set_default_missing (p : Peer) sf h :
  Tag_default sf = "" →
  set_default p sf h =
  Fatal ("Code error: field " +:+ Name sf +:+ " has no default value").
Proof. intros Hd. unfold set_default. by rewrite decide_True. Qed.

Lemma set_default_none (p : Peer) sf h :
  Tag_default sf = "-" → set_default p sf h = Ok (p, h).
Proof.
  intros Hd. unfold set_default.
  destruct (decide (Tag_default sf = "")) as [He|_]; [by rewrite Hd in He|].
  destruct (decide (Tag_default sf ≠ "-")) as [Hne|_]; done.
Qed.

(** The loop over the fields stops at the first field without the tag:
    it does not get past it. *)
Lemma set_defaults_missing ts :
  ∀ (p : Peer) h r,
    foldM set_default ts p h = Ok r → Forall (λ sf, Tag_default sf ≠ "") ts.
Proof.
  induction ts as [|sf ts IH]; intros p h [p' h'] H; simpl in H; [constructor|].
  apply bind_Ok_inv in H as (p1 & h1 & Hm & H).
  constructor; [|by eapply IH].
  intros Hd. by rewrite set_default_missing in Hm.
Qed.

(** C3.  After a successful [Load], every field of every peer that has a
    default other than "-" is set, and points to a value.  A field whose
    default is "-" is left as it is by the defaulting, so it may remain
    unset.  A field without a default tag is a fatal error of the
    defaulting, which never gets past such a field. *)
Theorem defaults_applied rt d c h name p sf
    (Hload : Load rt (Parsed d) = Returns (Some (c, h)) None)
    (Hpeer : (name, p) ∈ Peers c)
    (Hsf : sf ∈ Peer_type) :
  (Tag_default sf ≠ "-" → is_Some (deref h p (Name sf))) ∧
  (Tag_default sf = "-" → ∀ (q : Peer) hq, set_default q sf hq = Ok (q, hq)) ∧
  (∀ sf' : StructField, Tag_default sf' = "" →
     (∀ (q : Peer) hq,
        set_default q sf' hq =
        Fatal ("Code error: field " +:+ Name sf' +:+ " has no default value")) ∧
     (∀ t (q : Peer) hq r, sf' ∈ t → foldM set_default t q hq ≠ Ok r)).
Proof.
  split_and!.
  - intros Hdef.
    destruct (Load_inv rt Peer_type d c h Peer_type_ok Hload)
      as (peers0 & Σ0 & h0 & peers1 & Σ1 & h1 & Σ2 & _ & _ & _ & _ & _ & _ &
          Hp1 & _ & _ & _ & _ & _ & He2 & Hp2).
    apply list_elem_of_lookup in Hpeer as [i Hi].
    destruct (Forall2_lookup_r _ _ _ _ _ Hp2 Hi)
      as (np1 & Hi1 & _ & Htag2 & Hoth & _).
    destruct (Forall2_lookup_r _ _ _ _ _ Hp1 Hi1)
      as (np0 & _ & _ & _ & _ & _ & _ & _ & _ & Hdefd).
    destruct (Hdefd sf Hsf Hdef) as [l Hl]. simpl in *.
    assert (Name sf ∉ derived_fields) as Hnd.
    { intros Hin. apply derived_special in Hin.
      by rewrite (special_field_eq Peer_type sf _ Peer_type_ok Hin Hsf eq_refl)
        in Hdef. }
    rewrite <- Hoth in Hl by done.
    unfold deref. rewrite Hl. simpl.
    eapply tagged_valid; [done| |done].
    by destruct (extends_store_ok _ _ _ _ _ He2).
  - intros Hd q hq. by apply set_default_none.
  - intros sf' Hd. split.
    + intros q hq. by apply set_default_missing.
    + intros t q hq r Hin H. apply set_defaults_missing in H.
      rewrite Forall_forall in H. by apply (H sf').
Qed.

(** The value that a cell of the decoded configuration holds at the end:
    the value it held at the start, unless the cell was made for
    [AnnounceOriginated] and there are no origin prefixes. *)
Lemma Load_cell_kept (w : bool) Σ0 h0 Σ1 h1 Σ2 h (p : Peer) f l v :
  extends false Σ0 h0 Σ1 h1 → extends w Σ1 h1 Σ2 h →
  tagged Σ0 p → p !! f = Some l → h0 !! l = Some v →
  f ≠ "AnnounceOriginated" ∨ w = false → h !! l = Some v.
Proof.
  intros He1 He2 Htag Hl Hv Hf.
  eapply (extends_lookup w Σ1 h1); [done|by eapply extends_false_lookup| |done].
  eapply prefix_lookup_Some; [by apply Htag|by eapply extends_prefix].
Qed.

(** C2 (as amended).  For a peer that names a template, and a field that
    a document can set, other than the template field: when the peer sets
    the field the resolved peer has the peer's value, whatever the
    template sets, and when the peer does not set it and the template
    does, the resolved peer has the template's value.  For
    [AnnounceOriginated] this holds when the list of origin prefixes is
    not empty (otherwise the field is forced to false). *)
Theorem template_merge rt d c h i name pd tn td sf
    (Hload : Load rt (Parsed d) = Returns (Some (c, h)) None)
    (Hpeer : Doc.Peers d !! i = Some (name, pd))
    (Href : pd !! "template" = Some (VString tn))
    (Hne : tn ≠ "")
    (Htmpl : list_to_map (M := gmap string (gmap string value))
               (Doc.Templates d) !! tn = Some td)
    (Hsf : sf ∈ Peer_type)
    (Hvis : Tag_yaml sf ≠ "-")
    (Hnt : Name sf ≠ "Template")
    (Hao : Name sf = "AnnounceOriginated" → Doc.Prefixes d ≠ []) :
  ∃ p, Peers c !! i = Some (name, p) ∧
    (∀ W, pd !! Tag_yaml sf = Some W → deref h p (Name sf) = Some W) ∧
    (∀ V, pd !! Tag_yaml sf = None → td !! Tag_yaml sf = Some V →
          deref h p (Name sf) = Some V).
Proof.
  destruct (Load_inv rt Peer_type d c h Peer_type_ok Hload)
    as (peers0 & Σ0 & h0 & peers1 & Σ1 & h1 & Σ2 & _ & Hok0 & Hp0 & Ht0 & _ &
        He1 & Hp1 & _ & _ & _ & _ & _ & He2 & Hp2).
  pose proof Peer_type_ok as Hs.
  destruct (Forall2_lookup_l _ _ _ _ _ Hp0 Hpeer)
    as ([n0 p0] & Hi0 & Hn0 & Htag0 & Hdec).
  destruct (Forall2_lookup_l _ _ _ _ _ Hp1 Hi0)
    as ([n1 p1] & Hi1 & Hn1 & _ & Htag1 & Hkeep & _ & _ & Htm & _).
  destruct (Forall2_lookup_l _ _ _ _ _ Hp2 Hi1)
    as ([n2 p2] & Hi2 & Hn2 & Htag2 & Hoth & _).
  simpl in *. subst n0 n1 n2.
  exists p2. split; [done|].
  destruct (visible_not_set_by_code Peer_type sf Hs Hsf Hvis) as [Hpn Hbo].
  pose proof (visible_not_derived Peer_type sf Hs Hsf Hvis) as Hnd.
  assert (Hw : Name sf ≠ "AnnounceOriginated" ∨
               bool_decide (Doc.Prefixes d = []) = false).
  { destruct (decide (Name sf = "AnnounceOriginated")) as [Heq|]; [|by left].
    right. apply bool_decide_eq_false. by apply Hao. }
  destruct Hdec as (Hfrom & Hto & Hkeys).
  split.
  - (* the peer sets the field *)
    intros W HW. destruct (Hto sf W Hsf Hvis HW) as (l & Hl & Hv).
    unfold deref. rewrite Hoth by done. rewrite (Hkeep _ _ Hpn Hbo Hl). simpl.
    by eapply (Load_cell_kept _ Σ0 h0 Σ1 h1 Σ2 h p0).
  - (* the template sets it *)
    intros V Hnone HV.
    assert (p0 !! Name sf = None) as Hnil.
    { destruct (p0 !! Name sf) as [l|] eqn:E; [|done].
      destruct (Hfrom _ _ E) as (sf' & v & Hin' & Hn & _ & Hd & _).
      rewrite (field_unique _ sf' sf (schema_names _ Hs) Hin' Hsf Hn) in Hd.
      congruence. }
    (* the template of the peer *)
    set (tf := field "Template" reflect.String "template" "-").
    assert (tf ∈ Peer_type) as Htf.
    { apply (bool_decide_unpack _). by vm_compute. }
    destruct (Hto tf _ Htf ltac:(done) Href) as (lt & Hlt & Hvt). simpl in Hlt.
    rewrite Hlt in Htm. destruct Htm as (tn' & Hvt' & Htm).
    pose proof (extends_false_lookup _ _ _ _ _ _ He1 Hvt) as Hvt1.
    assert (tn' = tn) as -> by congruence.
    destruct (Htm Hne) as (tmpl & Hlook & Hmerge).
    destruct (Forall2_list_to_map_r
                (λ td tmpl, tagged Σ0 tmpl ∧ decoded Peer_type h0 td tmpl)
                (Doc.Templates d) (Templates c) tn tmpl)
      as (td' & Hlook' & Htagt & Hdect); [|done|].
    { eapply Forall2_impl; [exact Ht0|]. by intros x y (? & ? & ?). }
    assert (td' = td) as -> by congruence.
    destruct Hdect as (_ & Htot & _).
    destruct (Htot sf V Hsf Hvis HV) as (l & Hl & Hv).
    unfold deref. rewrite Hoth by done.
    assert (Name sf ∉ ["Template"; "ProtocolName"; "BooleanOptions"]) as Hnin.
    { rewrite !not_elem_of_cons. split_and!; [done..|apply not_elem_of_nil]. }
    rewrite (Hmerge sf l Hsf Hnin Hnil Hl). simpl.
    by eapply (Load_cell_kept _ Σ0 h0 Σ1 h1 Σ2 h tmpl).
Qed.

(** ** The claims about the second loop *)

Lemma check_originated_empty (q : Peer) hq l b :
  q !! "AnnounceOriginated" = Some l → hq !! l = Some (VBool b) →
  check_originated [] q hq = Ok ((), <[l := VBool false]> hq).
Proof.
  intros Hq Hl. unfold check_originated.
  destruct (decide (length (@nil string) < 1)%nat) as [_|Hn];
    [|simpl in Hn; lia].
  rewrite Hq.
  rewrite (bind_Ok_eq _ _ _ _ _ (load_bool_Ok l hq b Hl)).
  destruct b.
  - unfold store. rewrite decide_True; [done|]. by eapply lookup_lt_Some.
  - unfold ret. by rewrite list_insert_id.
Qed.

(** C8.  When the list of origin prefixes of the document is empty, every
    peer of a successful [Load] has [AnnounceOriginated] false, whether it
    was set to true by the document, by the template or by the default.
    Forcing it is no error: on a peer whose field is set, the check
    returns normally, with the field false. *)
Theorem announce_originated_forced rt d c h name p
    (Hload : Load rt (Parsed d) = Returns (Some (c, h)) None)
    (Hempty : Doc.Prefixes d = [])
    (Hpeer : (name, p) ∈ Peers c) :
  deref h p "AnnounceOriginated" = Some (VBool false) ∧
  ∀ (q : Peer) hq l b,
    q !! "AnnounceOriginated" = Some l → hq !! l = Some (VBool b) →
    check_originated (Doc.Prefixes d) q hq = Ok ((), <[l := VBool false]> hq) ∧
    deref (<[l := VBool false]> hq) q "AnnounceOriginated" = Some (VBool false).
Proof.
  split.
  - destruct (Load_inv rt Peer_type d c h Peer_type_ok Hload)
      as (peers0 & Σ0 & h0 & peers1 & Σ1 & h1 & Σ2 & _ & _ & _ & _ & _ & _ &
          _ & _ & _ & _ & _ & _ & _ & Hp2).
    apply list_elem_of_lookup in Hpeer as [i Hi].
    destruct (Forall2_lookup_r _ _ _ _ _ Hp2 Hi)
      as (np1 & Hi1 & _ & _ & Hoth & _ & _ & Hao).
    destruct (Hao Hempty) as (l & Hl & Hv). simpl in *.
    rewrite <- Hoth in Hl by solve_names.
    unfold deref. by rewrite Hl.
  - intros q hq l b Hq Hl. rewrite Hempty. split.
    + by eapply check_originated_empty.
    + unfold deref. rewrite Hq. simpl. apply list_lookup_insert_eq.
      by eapply lookup_lt_Some.
Qed.

(** ** The claim about templates that name a template *)

(** Decoding ends with a value or with an error. *)
Lemma decode_fields_total (d : gmap string value) ts :
  ∀ (p : Peer) h, ∃ p' h', foldM (decode_field d) ts p h = Ok (p', h').
Proof.
  induction ts as [|sf ts IH]; intros p h; simpl; [by eexists _, _|].
  unfold bind at 1. unfold decode_field at 1.
  case_decide; [apply IH|].
  destruct (d !! Tag_yaml sf); [|apply IH].
  unfold bind, new, ret. apply IH.
Qed.

Lemma Unmarshal_Peer_total t nd h :
  (∃ np h', Unmarshal_Peer t nd h = Ok (np, h')) ∨
  (∃ e, Unmarshal_Peer t nd h = Return e).
Proof.
  unfold Unmarshal_Peer. destruct (find _ _); [right; by eexists|].
  left. destruct (decode_fields_total nd.2 t ∅ h) as (p' & h' & Hp).
  exists (nd.1, p'), h'. unfold bind. by rewrite Hp.
Qed.

Lemma forM_Unmarshal_total t l :
  ∀ h, (∃ r h', forM (Unmarshal_Peer t) l h = Ok (r, h')) ∨
       (∃ e, forM (Unmarshal_Peer t) l h = Return e).
Proof.
  induction l as [|nd l IH]; intros h; [left; by eexists _, _|].
  cbn [forM]. unfold bind, ret.
  destruct (Unmarshal_Peer_total t nd h) as [(np & h1 & ->)|[e ->]];
    [|right; by eexists].
  destruct (IH h1) as [(r & h2 & ->)|[e ->]]; [|right; by eexists].
  left. by eexists _, _.
Qed.

Lemma Unmarshal_total t d h :
  (∃ r h', Unmarshal t d h = Ok (r, h')) ∨ (∃ e, Unmarshal t d h = Return e).
Proof.
  unfold Unmarshal, bind, ret.
  destruct (forM_Unmarshal_total t (Doc.Peers d) h) as [(ps & h1 & ->)|[e ->]];
    [|right; by eexists].
  destruct (forM_Unmarshal_total t (Doc.Templates d) h1) as [(ts & h2 & ->)|[e ->]];
    [|right; by eexists].
  left. by eexists _, _.
Qed.

(** *** Documents with null entries *)

Lemma entries_pointers {A} (l : list (string * A)) :
  Raw.entries (Raw.pointers l) = l.
Proof.
  induction l as [|[n x] l IH]; [done|].
  unfold Raw.entries, Raw.pointers in *. cbn. by rewrite IH.
Qed.

Lemma document_of_document d : Raw.document (Raw.of_document d) = d.
Proof.
  destruct d. unfold Raw.document, Raw.of_document.
  f_equal; try reflexivity; apply entries_pointers.
Qed.

Lemma bind_ext {R A B} (m m' : M R A) (k k' : A → M R B) h :
  m h = m' h → (∀ a h', k a h' = k' a h') → bind m k h = bind m' k' h.
Proof.
  intros Hm Hk. unfold bind. rewrite Hm.
  destruct (m' h) as [[a h']| | |]; [apply Hk|done..].
Qed.

(** A loop over a list without a nil entry is the loop over the
    entries. *)
Lemma forM_pointers {R A B} (f : string * A → M R B)
    (g : string * option A → M R B) l :
  (∀ n x h, g (n, Some x) h = f (n, x) h) →
  ∀ h, forM g (Raw.pointers l) h = forM f l h.
Proof.
  intros Hg. induction l as [|[n x] l IH]; intros h; [done|].
  cbn [Raw.pointers fmap list_fmap forM fst snd].
  apply bind_ext; [apply Hg|]. intros b h1.
  apply bind_ext; [apply IH|done].
Qed.

Lemma iterM_pointers {R A} (f : string * A → M R unit)
    (g : string * option A → M R unit) l :
  (∀ n x h, g (n, Some x) h = f (n, x) h) →
  ∀ h, iterM g (Raw.pointers l) h = iterM f l h.
Proof.
  intros Hg. induction l as [|[n x] l IH]; intros h; [done|].
  cbn [Raw.pointers fmap list_fmap iterM fst snd].
  apply bind_ext; [apply Hg|]. intros b h1. apply IH.
Qed.

Lemma peers_loop_pointers rt t templates peers :
  ∀ q h, peers_loop_raw rt t templates (Raw.pointers peers) q h =
         peers_loop rt t templates peers q h.
Proof.
  induction peers as [|[n p] peers IH]; intros q h; [done|].
  cbn [Raw.pointers fmap list_fmap peers_loop_raw peers_loop fst snd].
  apply bind_ext; [done|]. intros [[n' p'] q'] h1.
  apply bind_ext; [apply IH|done].
Qed.

(** Decoding a list without a nil entry. *)
Lemma forM_Unmarshal_pointers t l :
  ∀ h, forM (Unmarshal_entry t) (Raw.pointers l) h =
       match forM (Unmarshal_Peer t) l h with
       | Ok (l', h') => Ok (Raw.pointers l', h')
       | Return e => Return e
       | Fatal msg => Fatal msg
       | Panic msg => Panic msg
       end.
Proof.
  induction l as [|[n m] l IH]; intros h; [done|].
  change (Raw.pointers ((n, m) :: l)) with ((n, Some m) :: Raw.pointers l).
  cbn [forM]. unfold bind at 1 3. unfold Unmarshal_entry at 1. cbn [fst snd].
  unfold bind at 1.
  destruct (Unmarshal_Peer t (n, m) h) as [[np h1]| | |]; [|done..].
  unfold ret at 1. unfold bind. rewrite (IH h1).
  by destruct (forM (Unmarshal_Peer t) l h1) as [[l' h2]| | |].
Qed.

(** Decoding skips the null entries: they stay nil, and the store is
    the one that decoding the other entries gives. *)
Lemma forM_Unmarshal_entries t l :
  ∀ h, match forM (Unmarshal_entry t) l h with
       | Ok (l', h') =>
           forM (Unmarshal_Peer t) (Raw.entries l) h =
             Ok (Raw.entries l', h') ∧
           Forall2 (λ no np, no.1 = np.1 ∧ (no.2 = None ↔ np.2 = None)) l l'
       | Return e => True
       | _ => False
       end.
Proof.
  induction l as [|[n [m|]] l IH]; intros h.
  - by split.
  - cbn [forM]. unfold bind at 1. unfold Unmarshal_entry at 1. cbn [fst snd].
    unfold bind at 1.
    change (Raw.entries ((n, Some m) :: l)) with ((n, m) :: Raw.entries l).
    destruct (Unmarshal_Peer_total t (n, m) h) as [(np & h1 & Hnp)|[e ->]];
      [|done].
    rewrite Hnp. unfold ret at 1. unfold bind at 1. specialize (IH h1).
    destruct (forM (Unmarshal_entry t) l h1) as [[l' h2]| | |]; [|done..].
    destruct IH as [IH HF]. unfold ret. split.
    + cbn [forM]. unfold bind. rewrite Hnp, IH.
      assert (np.1 = n) as Hn.
      { unfold Unmarshal_Peer in Hnp. destruct (find _ _); [done|].
        apply bind_Ok_inv in Hnp as (p & h' & _ & Hnp).
        unfold ret in Hnp. by simplify_eq. }
      destruct np as [n' p]. simpl in Hn. by subst n'.
    + constructor; [|done]. cbn. split; [|done].
      unfold Unmarshal_Peer in Hnp. destruct (find _ _); [done|].
      apply bind_Ok_inv in Hnp as (p & h' & _ & Hnp).
      unfold ret in Hnp. by simplify_eq.
  - cbn [forM]. unfold bind at 1. unfold Unmarshal_entry at 1. cbn [fst snd].
    unfold ret at 1. unfold bind at 1. specialize (IH h).
    change (Raw.entries ((n, None) :: l)) with (Raw.entries l).
    destruct (forM (Unmarshal_entry t) l h) as [[l' h2]| | |]; [|done..].
    destruct IH as [IH HF]. unfold ret. split; [done|].
    constructor; [|done]. by cbn.
Qed.

Lemma Unmarshal_raw_entries t r peers templates h :
  Unmarshal_raw t r [] = Ok ((peers, templates), h) →
  Unmarshal t (Raw.document r) [] =
    Ok ((Raw.entries peers, Raw.entries templates), h) ∧
  Forall2 (λ no np, no.1 = np.1 ∧ (no.2 = None ↔ np.2 = None))
    (Raw.Templates r) templates.
Proof.
  intros H. unfold Unmarshal_raw in H.
  apply bind_Ok_inv in H as (ps & h1 & Hp & H).
  apply bind_Ok_inv in H as (ts & h2 & Ht & H).
  unfold ret in H. simplify_eq.
  pose proof (forM_Unmarshal_entries t (Raw.Peers r) []) as Hps.
  rewrite Hp in Hps. destruct Hps as [Hps _].
  pose proof (forM_Unmarshal_entries t (Raw.Templates r) h1) as Hts.
  rewrite Ht in Hts. destruct Hts as [Hts HF].
  split; [|done]. unfold Unmarshal, bind, ret. cbn [Raw.document Doc.Peers
    Doc.Templates]. by rewrite Hps, Hts.
Qed.

Lemma Unmarshal_raw_total t r h :
  (∃ x h', Unmarshal_raw t r h = Ok (x, h')) ∨
  (∃ e, Unmarshal_raw t r h = Return e).
Proof.
  unfold Unmarshal_raw, bind, ret.
  pose proof (forM_Unmarshal_entries t (Raw.Peers r) h) as Hps.
  destruct (forM (Unmarshal_entry t) (Raw.Peers r) h) as [[ps h1]|e| |];
    [|right; by eexists|done..].
  pose proof (forM_Unmarshal_entries t (Raw.Templates r) h1) as Hts.
  destruct (forM (Unmarshal_entry t) (Raw.Templates r) h1) as [[ts h2]|e| |];
    [|right; by eexists|done..].
  left. by eexists _, _.
Qed.

Lemma Unmarshal_raw_pointers t d h :
  Unmarshal_raw t (Raw.of_document d) h =
  match Unmarshal t d h with
  | Ok ((peers, templates), h') =>
      Ok ((Raw.pointers peers, Raw.pointers templates), h')
  | Return e => Return e
  | Fatal msg => Fatal msg
  | Panic msg => Panic msg
  end.
Proof.
  unfold Unmarshal_raw, Unmarshal, bind, ret.
  cbn [Raw.of_document Raw.Peers Raw.Templates].
  rewrite forM_Unmarshal_pointers.
  destruct (forM (Unmarshal_Peer t) (Doc.Peers d) h) as [[ps h1]| | |];
    [|done..].
  rewrite forM_Unmarshal_pointers.
  by destruct (forM (Unmarshal_Peer t) (Doc.Templates d) h1) as [[ts h2]| | |].
Qed.

(** On a document without null entries [Load_raw] is [Load]. *)
Lemma Load_raw_of_document rt t d :
  Load_raw rt (λ _, validate_Struct rt d) t (Raw.of_document d) =
  Load_with rt t (Parsed d).
Proof.
  unfold Load_raw, Load_with. rewrite Unmarshal_raw_pointers.
  destruct (Unmarshal t d []) as [[[ps ts] h2]| | |]; [|done..].
  destruct (validate_Struct rt d); [done|]. f_equal.
  unfold resolve_raw, resolve. rewrite entries_pointers.
  apply bind_ext; [by apply iterM_pointers|]. intros _ h3.
  apply bind_ext; [done|]. intros hostname h4.
  apply bind_ext; [apply peers_loop_pointers|]. intros [peers q] h5.
  unfold resolve_rest. rewrite document_of_document.
  apply bind_ext; [done|]. intros [p4 p6] h6.
  apply bind_ext; [done|]. intros [s4 s6] h7.
  apply bind_ext; [done|]. intros [st4 st6] h8.
  apply bind_ext; [by apply forM_pointers|]. intros bfd h9.
  apply bind_ext; [by apply forM_pointers|]. intros vrrp h10.
  done.
Qed.

(** The check of one template: it ends with the fatal error when the
    template names a template, and goes on when it does not. *)
Lemma check_template_names t h n (x : gmap string value) (p : Peer) :
  schema_ok t → decoded t h x p → names_template (n, x) = true →
  check_template (n, p) h = Fatal (template_error n).
Proof.
  intros Hs Hdec Hnt.
  set (tf := field "Template" reflect.String "template" "-").
  assert (tf ∈ t) as Htf.
  { apply (special_field t tf Hs). apply (bool_decide_unpack _). by vm_compute. }
  unfold check_template.
  unfold names_template in Hnt. simpl in Hnt.
  destruct (x !! "template") as [[s| | | |]|] eqn:Ek; try done.
  apply bool_decide_eq_true in Hnt.
  destruct Hdec as (_ & Hto & _).
  destruct (Hto tf _ Htf ltac:(done) Ek) as (l & Hl & Hv). simpl in Hl.
  rewrite Hl.
  rewrite (bind_Ok_eq _ _ _ _ _ (load_string_Ok l h s Hv)).
  by rewrite decide_True.
Qed.

Lemma check_template_passes t h n (x : gmap string value) (p : Peer) :
  schema_ok t → decoded t h x p → names_template (n, x) = false →
  check_template (n, p) h = Ok ((), h).
Proof.
  intros Hs Hdec Hnt.
  set (tf := field "Template" reflect.String "template" "-").
  assert (tf ∈ t) as Htf.
  { apply (special_field t tf Hs). apply (bool_decide_unpack _). by vm_compute. }
  unfold check_template.
  destruct (p !! "Template") as [l|] eqn:El; [|done].
  destruct (decoded_value t h x p tf l Hs Hdec Htf El) as (_ & v & Hv & Hlv).
  pose proof (decoded_kind t x p h tf v Hs Hdec Htf ltac:(done) Hv) as Hk.
  destruct v as [s| | | |]; try done.
  rewrite (bind_Ok_eq _ _ _ _ _ (load_string_Ok l h s Hlv)).
  unfold names_template in Hnt. simpl in Hnt, Hv. rewrite Hv in Hnt.
  apply bool_decide_eq_false in Hnt.
  destruct (decide (s ≠ "")) as [Hs'|Hs']; done.
Qed.

Lemma list_find_cons_eq {A} (P : A → Prop) `{∀ x, Decision (P x)} x l :
  list_find P (x :: l) =
  if decide (P x) then Some (0%nat, x) else prod_map S id <$> list_find P l.
Proof. reflexivity. Qed.

(** The check of the templates stops at the first template of the
    document that is null or names a template: with the panic of the
    nil dereference at the one, with the fatal error at the other. *)
Lemma check_template_entries t Σ h :
  schema_ok t →
  ∀ tdocs templates,
    Forall2 (λ no np, no.1 = np.1 ∧ (no.2 = None ↔ np.2 = None))
      tdocs templates →
    Forall2 (decoded_entry t Σ h) (Raw.entries tdocs) (Raw.entries templates) →
    ∀ i name x,
      list_find stops_check tdocs = Some (i, (name, x)) →
      iterM check_template_entry templates h =
      match x with
      | Some _ => Fatal (template_error name)
      | None => Panic nil_dereference
      end.
Proof.
  intros Hs tdocs templates Hshape.
  induction Hshape as [|[n x] [n' p] tdocs templates [Hn Hnil] Hshape IH];
    intros Hdec i name y Hfind; [done|].
  simpl in Hn. subst n'. simpl in Hnil.
  cbn [iterM]. unfold bind at 1. unfold check_template_entry at 1.
  cbn [fst snd].
  destruct x as [x|], p as [p|];
    try (by destruct Hnil as [H1 H2]; first [discriminate (H1 eq_refl)
                                            |discriminate (H2 eq_refl)]).
  - change (Raw.entries ((n, Some x) :: tdocs))
      with ((n, x) :: Raw.entries tdocs) in Hdec.
    change (Raw.entries ((n, Some p) :: templates))
      with ((n, p) :: Raw.entries templates) in Hdec.
    apply Forall2_cons in Hdec as [(_ & _ & Hd) Hdec]. simpl in Hd.
    rewrite list_find_cons_eq in Hfind.
    destruct (decide (stops_check (n, Some x))) as [Hnt|Hnt];
      unfold stops_check in Hnt; cbn [fst snd] in Hnt.
    + simplify_eq. rewrite (check_template_names t h name x p); [done..|].
      by apply Is_true_true.
    + rewrite (check_template_passes t h n x p);
        [|done..|by apply Is_true_false].
      destruct (list_find stops_check tdocs) as [[j [m y']]|] eqn:Ef;
        simpl in Hfind; simplify_eq. by eapply IH.
  - rewrite list_find_cons_eq in Hfind.
    rewrite decide_True in Hfind by done. by simplify_eq.
Qed.

(** C7.  When a template of the document names a template, [Load] does
    not succeed, and it ends before the first loop over the peers: with
    the error of the YAML decoder or of the validator, or else in the
    check of the templates, at the first template of the document that
    names a template or is null.  At a template that names a template
    the check ends [Load] with the fatal error that names it; at a null
    template the dereference of the nil pointer panics.  On a document
    without null entries [Load_raw] is [Load]. *)
Theorem template_naming_template_rejected rt validate r tn td
    (Hin : (tn, Some td) ∈ Raw.Templates r)
    (Hnames : names_template (tn, td) = true) :
  ((∃ e, Unmarshal_raw Peer_type r [] = Return e ∧
         Load_raw rt validate Peer_type r =
         Returns None (Some ("YAML unmarshal: " +:+ e))) ∨
   (∃ e, validate r = Some e ∧
         Load_raw rt validate Peer_type r =
         Returns None (Some ("Validation: " +:+ e))) ∨
   (∃ i name td' peers templates h0,
      list_find stops_check (Raw.Templates r) = Some (i, (name, Some td')) ∧
      names_template (name, td') = true ∧
      Unmarshal_raw Peer_type r [] = Ok ((peers, templates), h0) ∧
      iterM check_template_entry templates h0 = Fatal (template_error name) ∧
      Load_raw rt validate Peer_type r = Exits (template_error name)) ∨
   (∃ i name peers templates h0,
      list_find stops_check (Raw.Templates r) = Some (i, (name, None)) ∧
      Unmarshal_raw Peer_type r [] = Ok ((peers, templates), h0) ∧
      iterM check_template_entry templates h0 = Panic nil_dereference ∧
      Load_raw rt validate Peer_type r = Panics nil_dereference)) ∧
  (∀ d, r = Raw.of_document d → validate r = validate_Struct rt d →
        Load rt (Parsed d) = Load_raw rt validate Peer_type r).
Proof.
  split.
  - unfold Load_raw.
    destruct (Unmarshal_raw_total Peer_type r [])
      as [([peers templates] & h0 & Hu)|[e Hu]]; rewrite Hu;
      [|left; by exists e].
    destruct (validate r) as [e|] eqn:Hv; [right; left; by exists e|].
    right; right.
    destruct (Unmarshal_raw_entries _ _ _ _ _ Hu) as [Hd Hshape].
    destruct (Unmarshal_spec _ _ _ _ _ Peer_type_ok Hd) as (Σ0 & Hok0 & _ & Ht0).
    cbn [Raw.document Doc.Templates] in Ht0.
    destruct (list_find stops_check (Raw.Templates r)) as [[i [name x]]|]
      eqn:Hfind.
    + pose proof (check_template_entries _ _ _ Peer_type_ok _ _ Hshape Ht0
                    _ _ _ Hfind) as Hcheck.
      destruct x as [td'|].
      * left. exists i, name, td', peers, templates, h0.
        split_and!; [done| |done..|].
        { apply list_find_Some in Hfind as (_ & Hstop & _).
          unfold stops_check in Hstop. simpl in Hstop.
          by destruct (names_template (name, td')). }
        unfold resolve_raw, bind. by rewrite Hcheck.
      * right. exists i, name, peers, templates, h0.
        split_and!; [done..|].
        unfold resolve_raw, bind. by rewrite Hcheck.
    + apply list_find_None in Hfind. rewrite Forall_forall in Hfind.
      destruct (Hfind _ Hin). unfold stops_check. simpl. by rewrite Hnames.
  - intros d -> Hvd. unfold Load. rewrite <- Load_raw_of_document.
    unfold Load_raw. rewrite Hvd. reflexivity.
Qed.

(** ** The claims about the lists sorted by [Load] *)

(** A peer of the result and the peer of the first loop it was made
    from. *)
Lemma Load_peer_resolved2 rt d c h name p :
  Load rt (Parsed d) = Returns (Some (c, h)) None →
  (name, p) ∈ Peers c →
  ∃ Σ np1, resolved2 rt (Doc.Prefixes d) Σ h np1 (name, p).
Proof.
  intros Hload Hpeer.
  destruct (Load_inv rt Peer_type d c h Peer_type_ok Hload)
    as (peers0 & Σ0 & h0 & peers1 & Σ1 & h1 & Σ2 & _ & _ & _ & _ & _ & _ &
        _ & _ & _ & _ & _ & _ & _ & Hp2).
  apply list_elem_of_lookup in Hpeer as [i Hi].
  destruct (Forall2_lookup_r _ _ _ _ _ Hp2 Hi) as (np1 & _ & Hr).
  by exists Σ2, np1.
Qed.

(** A prefix that parses is of one family. *)
Lemma is_v6_not_v4 rt x :
  is_Some (ParseCIDR rt x) → is_v6 rt x = negb (is_v4 rt x).
Proof.
  intros [pfx Hp]. unfold is_v4, is_v6. rewrite Hp.
  destruct (net.To4 pfx) as [ip4|] eqn:E4.
  - rewrite bool_decide_eq_false_2 by done.
    rewrite bool_decide_eq_true_2; [done|by eexists].
  - rewrite bool_decide_eq_true_2 by done.
    rewrite bool_decide_eq_false_2; [done|]. by intros [? ?].
Qed.

Lemma by_family_perm rt ps :
  Forall (λ x, is_Some (ParseCIDR rt x)) ps →
  filter (is_v4 rt) ps ++ filter (is_v6 rt) ps ≡ₚ ps.
Proof.
  induction 1 as [|x ps Hx _ IH]; [done|].
  pose proof (is_v6_not_v4 rt x Hx) as H6.
  destruct (is_v4 rt x) eqn:E4; simpl in H6.
  - rewrite filter_cons_True by (by rewrite E4).
    rewrite filter_cons_False by (rewrite H6; by intros []).
    simpl. by rewrite IH.
  - rewrite filter_cons_False by (rewrite E4; by intros []).
    rewrite filter_cons_True by (by rewrite H6).
    rewrite <- Permutation_middle. by rewrite IH.
Qed.

Lemma by_family_first_error rt what pre x post h :
  Forall (λ y, is_Some (ParseCIDR rt y)) pre → ParseCIDR rt x = None →
  by_family rt what (pre ++ x :: post) [] [] h =
  Return (None, Some ("Invalid " +:+ what +:+ ": " +:+ x)).
Proof.
  intros Hpre Hx. rewrite by_family_eq.
  assert (list_find (λ y, ParseCIDR rt y = None) (pre ++ x :: post)
          = Some (length pre, x)) as ->; [|done].
  apply list_find_Some. split_and!.
  - by rewrite list_lookup_middle.
  - done.
  - intros j y Hj Hlt. rewrite lookup_app_l in Hj by done.
    rewrite Forall_forall in Hpre.
    destruct (Hpre y) as [pfx Hy]; [by eapply list_elem_of_lookup_2|].
    by rewrite Hy.
Qed.

(** C4.  Sorting a list of prefixes that all parse by address family
    ([by_family], the loop over the origin prefixes) ends normally with
    two lists, the elements of the input with a 4-byte form and those
    without one: together they are a permutation of the input, no element
    is in both, and each is the input with the elements of the other
    family left out, in the order of the input.  At the first element that
    does not parse, the loop returns nil and the error that names it, and so
    does the round of a peer's loop ([add_prefix]).  After a successful
    [Load], the two lists of the configuration are these lists for the
    origin prefixes, and the two prefix sets of every peer are these lists
    for the prefixes of the peer, which all parse. *)
Theorem partition_by_family rt what ps :
  (Forall (λ x, is_Some (ParseCIDR rt x)) ps →
   let v4 := filter (is_v4 rt) ps in
   let v6 := filter (is_v6 rt) ps in
   (∀ h, by_family rt what ps [] [] h = Ok ((v4, v6), h)) ∧
   v4 ++ v6 ≡ₚ ps ∧
   (∀ x, x ∈ v4 → x ∉ v6) ∧
   v4 `sublist_of` ps ∧ v6 `sublist_of` ps ∧
   (∀ x pfx, x ∈ ps → ParseCIDR rt x = Some pfx →
      (x ∈ v4 ↔ is_Some (net.To4 pfx)) ∧ (x ∈ v6 ↔ net.To4 pfx = None))) ∧
  (∀ pre x post h,
     ps = pre ++ x :: post →
     Forall (λ y, is_Some (ParseCIDR rt y)) pre → ParseCIDR rt x = None →
     by_family rt what ps [] [] h =
       Return (None, Some ("Invalid " +:+ what +:+ ": " +:+ x)) ∧
     ∀ p : Peer,
       add_prefix rt p x h = Return (None, Some ("Invalid prefix: " +:+ x))) ∧
  (∀ d c h,
     Load rt (Parsed d) = Returns (Some (c, h)) None →
     Forall (λ x, is_Some (ParseCIDR rt x)) (Doc.Prefixes d) ∧
     Prefixes4 c = filter (is_v4 rt) (Doc.Prefixes d) ∧
     Prefixes6 c = filter (is_v6 rt) (Doc.Prefixes d) ∧
     ∀ name p, (name, p) ∈ Peers c →
       let prefixes := deref_list h p "Prefixes" in
       Forall (λ x, is_Some (ParseCIDR rt x)) prefixes ∧
       deref_list h p "PrefixSet4" = filter (is_v4 rt) prefixes ∧
       deref_list h p "PrefixSet6" = filter (is_v6 rt) prefixes).
Proof.
  split_and!.
  - intros Hall v4 v6. split_and!.
    + intros h. rewrite by_family_eq.
      destruct (list_find _ ps) as [[i x]|] eqn:Hf; [|done].
      apply list_find_Some in Hf as (Hi & Hx & _).
      rewrite Forall_forall in Hall.
      destruct (Hall x) as [pfx Hp]; [by eapply list_elem_of_lookup_2|].
      by rewrite Hp in Hx.
    + by apply by_family_perm.
    + intros x [H4 Hin]%list_elem_of_filter [H6 _]%list_elem_of_filter.
      rewrite Forall_forall in Hall.
      rewrite (is_v6_not_v4 rt x (Hall x Hin)) in H6.
      by destruct (is_v4 rt x).
    + apply sublist_filter.
    + apply sublist_filter.
    + intros x pfx Hin Hp. unfold v4, v6.
      rewrite !list_elem_of_filter. unfold is_v4, is_v6. rewrite Hp.
      split; (split; [intros [Hb _]; by apply bool_decide_unpack in Hb|
                      intros Hb; split; [by apply bool_decide_pack|done]]).
  - intros pre x post h -> Hpre Hx. split.
    + by apply by_family_first_error.
    + intros p. unfold add_prefix. by rewrite Hx.
  - intros d c h Hload.
    destruct (Load_inv rt Peer_type d c h Peer_type_ok Hload)
      as (peers0 & Σ0 & h0 & peers1 & Σ1 & h1 & Σ2 & _ & _ & _ & _ & _ & _ &
          _ & _ & _ & Hparse & H4 & H6 & _ & _).
    split_and!; try done.
    intros name p Hpeer.
    destruct (Load_peer_resolved2 rt d c h name p Hload Hpeer)
      as (Σ & np1 & _ & _ & Hoth & Hsets & _).
    simpl in Hoth, Hsets.
    set (prefixes := deref_list h p "Prefixes").
    assert (Hpre : prefixes =
                   match np1.2 !! "Prefixes" with
                   | Some l => match h !! l with
                               | Some (VSlice x) => x
                               | _ => []
                               end
                   | None => []
                   end).
    { unfold prefixes, deref_list, deref.
      rewrite (Hoth "Prefixes") by solve_names.
      by destruct (np1.2 !! "Prefixes"). }
    clearbody prefixes. destruct (np1.2 !! "Prefixes") as [l|].
    + destruct Hsets as (x & Hx & Hall & Hs4 & Hs6).
      rewrite Hx in Hpre. subst prefixes.
      split_and!; [done|by apply holds_deref_list..].
    + subst prefixes. destruct Hsets as [E4 E6]. unfold deref_list, deref.
      by rewrite E4, E6.
Qed.

(** [ReplaceAll] leaves no separator behind, and puts the new byte where
    [Split] finds the old one. *)
Lemma ReplaceAll_contains s old new :
  old ≠ new → strings.contains (strings.ReplaceAll s old new) old = false.
Proof.
  intros Hne. induction s as [|c s IH]; [done|]. simpl. rewrite IH.
  destruct (Ascii.eqb c old) eqn:Ec.
  - apply orb_false_intro; [|done]. apply Ascii.eqb_neq. congruence.
  - by rewrite Ec.
Qed.

Lemma ReplaceAll_Join_Split s old new :
  strings.ReplaceAll s old new = strings.Join (strings.Split s old) new.
Proof.
  induction s as [|c s IH]; [done|]. cbn [strings.ReplaceAll strings.Split].
  pose proof (Split_not_nil s old) as Hnil.
  destruct (Ascii.eqb c old).
  - destruct (strings.Split s old) as [|x xs] eqn:Es; [done|].
    rewrite Join_cons. by rewrite IH.
  - destruct (strings.Split s old) as [|x [|y ys]] eqn:Es; [done|..].
    + by rewrite IH.
    + rewrite Join_cons, IH, Join_cons. done.
Qed.

Lemma foldM_app {R A S} (f : S → A → M R S) l1 l2 s h :
  foldM f (l1 ++ l2) s h = (let* s' := foldM f l1 s in foldM f l2 s') h.
Proof.
  revert s h. induction l1 as [|x l1 IH]; intros s h; simpl; [done|].
  unfold bind.
  destruct (f s x h) as [[s1 h1]| | |]; [apply IH|done..].
Qed.

(** C5.  After a successful [Load], for each of the four community lists
    of each peer (import, export, announce, remove): every token of the
    list is of the standard or of the large form; the list of standard
    communities holds the standard tokens, unchanged and in their order;
    the list of large communities holds the large tokens in their order,
    each with every colon replaced by a comma.  A token of neither form
    ends the loop over the list with a return of nil and the error that
    names the list and the token. *)
Theorem communities_categorized rt d c h name p what src std lrg
    (Hload : Load rt (Parsed d) = Returns (Some (c, h)) None)
    (Hpeer : (name, p) ∈ Peers c)
    (Hfield : (what, src, std, lrg) ∈ community_fields) :
  let communities := deref_list h p src in
  Forall (λ x, categorizeCommunity x ≠ "") communities ∧
  deref_list h p std = filter is_standard communities ∧
  deref_list h p lrg =
    (λ x, strings.ReplaceAll x ":" ",") <$> filter is_large communities ∧
  (∀ x, strings.contains (strings.ReplaceAll x ":" ",") ":" = false ∧
        strings.ReplaceAll x ":" "," =
          strings.Join (strings.Split x ":") ",") ∧
  (∀ pre x post (q q1 : Peer) hq h1,
     foldM (add_community what std lrg) pre q hq = Ok (q1, h1) →
     categorizeCommunity x = "" →
     foldM (add_community what std lrg) (pre ++ x :: post) q hq =
       Return (None, Some ("Invalid " +:+ what +:+ " community: " +:+ x))).
Proof.
  intros communities.
  destruct (Load_peer_resolved2 rt d c h name p Hload Hpeer)
    as (Σ & np1 & _ & _ & Hoth & _ & Hcomm & _).
  simpl in Hoth, Hcomm. rewrite Forall_forall in Hcomm.
  specialize (Hcomm _ Hfield). simpl in Hcomm.
  assert (Hsrc : src ∉ derived_fields).
  { repeat (apply elem_of_cons in Hfield as [[= -> -> -> ->]|Hfield];
            [solve_names|]).
    by apply elem_of_nil in Hfield. }
  assert (Hcs : communities =
                match np1.2 !! src with
                | Some l => match h !! l with
                            | Some (VSlice x) => x
                            | _ => []
                            end
                | None => []
                end).
  { unfold communities, deref_list, deref. rewrite (Hoth src) by done.
    by destruct (np1.2 !! src). }
  clearbody communities.
  split_and!.
  - destruct (np1.2 !! src) as [l|]; [|subst; constructor].
    destruct Hcomm as (cs & Hl & Hall & _). rewrite Hl in Hcs. by subst.
  - destruct (np1.2 !! src) as [l|].
    + destruct Hcomm as (cs & Hl & _ & Hs & _). rewrite Hl in Hcs. subst.
      by apply holds_deref_list.
    + destruct Hcomm as [Es _]. subst. unfold deref_list, deref.
      by rewrite Es.
  - destruct (np1.2 !! src) as [l|].
    + destruct Hcomm as (cs & Hl & _ & _ & Hg). rewrite Hl in Hcs. subst.
      by apply holds_deref_list.
    + destruct Hcomm as [_ El]. subst. unfold deref_list, deref.
      by rewrite El.
  - intros x. split.
    + by apply ReplaceAll_contains.
    + apply ReplaceAll_Join_Split.
  - intros pre x post q q1 hq h1 Hpre Hx.
    rewrite foldM_app. unfold bind at 1. rewrite Hpre.
    cbn [foldM]. unfold bind at 1. unfold add_community.
    rewrite Hx. by rewrite !decide_False by done.
Qed.

(** ** Runs of [Load] *)

Lemma loads_with_true d test :
  Demo.loads_with d test = true →
  ∃ c h, Load Demo.rt (Parsed d) = Returns (Some (c, h)) None ∧
         test c h = true.
Proof.
  unfold Demo.loads_with.
  destruct (Load Demo.rt (Parsed d)) as [[[c h]|] [e|]| |]; try done.
  by exists c, h.
Qed.

Lemma on_a_b_true test c h :
  Demo.on_a_b test c h = true →
  ∃ pa pb, Peers c = [("a", pa); ("b", pb)] ∧ test h pa pb = true.
Proof.
  unfold Demo.on_a_b.
  destruct (Peers c) as [|[na pa] [|[nb pb] [|]]]; try done.
  intros [[->%bool_decide_eq_true ->%bool_decide_eq_true]%andb_prop H]%andb_prop.
  by exists pa, pb.
Qed.

Lemma policy_loads :
  ∃ c h pa pb,
    Load Demo.rt (Parsed Demo.policy) = Returns (Some (c, h)) None ∧
    Peers c = [("a", pa); ("b", pb)] ∧
    deref_list h pa "ImportCommunities" = ["100,200"; "100:200:300"] ∧
    deref_list h pa "Prefixes" = ["198.51.100.0/24"; "2001:db8::/32"].
Proof.
  destruct (loads_with_true Demo.policy
              (Demo.on_a_b (λ h pa _,
                 bool_decide
                   (deref_list h pa "ImportCommunities"
                    = ["100,200"; "100:200:300"] ∧
                    deref_list h pa "Prefixes"
                    = ["198.51.100.0/24"; "2001:db8::/32"]))))
    as (c & h & E & Ht); [by vm_compute|].
  apply on_a_b_true in Ht as (pa & pb & Hps & [Hc Hp]%bool_decide_eq_true).
  exists c, h, pa, pb. exact (conj E (conj Hps (conj Hc Hp))).
Qed.

Lemma policy_no_origin_loads :
  ∃ c h pa pb,
    Load Demo.rt (Parsed Demo.policy_no_origin) = Returns (Some (c, h)) None ∧
    Peers c = [("a", pa); ("b", pb)] ∧
    Demo.is_false (deref h pa "AnnounceOriginated") = true.
Proof.
  destruct (loads_with_true Demo.policy_no_origin
              (Demo.on_a_b (λ h pa _,
                 Demo.is_false (deref h pa "AnnounceOriginated"))))
    as (c & h & E & Ht); [by vm_compute|].
  apply on_a_b_true in Ht as (pa & pb & Hps & Hf).
  exists c, h, pa, pb. exact (conj E (conj Hps Hf)).
Qed.

Ltac in_Peer_type := apply (bool_decide_unpack _); by vm_compute.
Ltac in_list := apply list_elem_of_In; simpl; auto.

(** The template's local preference reaches peer [a], which sets none;
    the peer's own number of prepends stays. *)
Lemma template_merge_witness :
  ∃ c h p,
    Load Demo.rt (Parsed Demo.policy) = Returns (Some (c, h)) None ∧
    Peers c !! 0%nat = Some ("a", p) ∧
    deref h p "LocalPref" = Some (VInt 50) ∧
    deref h p "Prepends" = Some (VInt 2).
Proof.
  destruct policy_loads as (c & h & pa & pb & E & _).
  destruct (template_merge Demo.rt Demo.policy c h 0 "a" Demo.peer_a "t"
              Demo.template_t
              (field "LocalPref" reflect.Int "local-pref" "100") E)
    as (p & Hp & _ & Ht);
    [reflexivity|by vm_compute|discriminate|reflexivity|in_Peer_type|
     discriminate|discriminate|discriminate|].
  destruct (template_merge Demo.rt Demo.policy c h 0 "a" Demo.peer_a "t"
              Demo.template_t
              (field "Prepends" reflect.Int "prepends" "0") E)
    as (p' & Hp' & Hw & _);
    [reflexivity|by vm_compute|discriminate|reflexivity|in_Peer_type|
     discriminate|discriminate|discriminate|].
  assert (p' = p) as -> by congruence.
  exists c, h, p. split; [exact E|]. split; [exact Hp|]. split.
  - apply (Ht (VInt 50)); by vm_compute.
  - apply (Hw (VInt 2)); by vm_compute.
Defined.

(** With no origin prefixes, peer [a] sets [announce-originated] to true
    and resolves to false. *)
Lemma template_merge_forced_false :
  ∃ c h p,
    Load Demo.rt (Parsed Demo.policy_no_origin) = Returns (Some (c, h)) None ∧
    Doc.Peers Demo.policy_no_origin !! 0%nat = Some ("a", Demo.peer_a) ∧
    Demo.peer_a !! "template" = Some (VString "t") ∧
    Demo.peer_a !! "announce-originated" = Some (VBool true) ∧
    Peers c !! 0%nat = Some ("a", p) ∧
    deref h p "AnnounceOriginated" = Some (VBool false).
Proof.
  destruct policy_no_origin_loads as (c & h & pa & pb & E & Hps & Hf).
  exists c, h, pa. split; [exact E|]. split; [reflexivity|].
  split; [by vm_compute|]. split; [by vm_compute|]. split.
  - rewrite Hps. reflexivity.
  - destruct (deref h pa "AnnounceOriginated") as [[| |[|]| |]|];
      first [discriminate Hf|reflexivity].
Qed.

Lemma defaults_applied_witness :
  ∃ c h p,
    Load Demo.rt (Parsed Demo.policy) = Returns (Some (c, h)) None ∧
    ("b", p) ∈ Peers c ∧
    is_Some (deref h p "LocalPref").
Proof.
  destruct policy_loads as (c & h & pa & pb & E & Hps & _).
  assert (Hin : ("b", pb) ∈ Peers c) by (rewrite Hps; in_list).
  exists c, h, pb. split; [exact E|]. split; [exact Hin|].
  apply (defaults_applied Demo.rt Demo.policy c h "b" pb
           (field "LocalPref" reflect.Int "local-pref" "100") E Hin);
    [in_Peer_type|discriminate].
Defined.

Lemma reaches_peer_c :
  reaches_without_neighbors Demo.rt Demo.borrowed_neighbors "c" = true.
Proof. vm_compute. reflexivity. Qed.

Lemma neighbors_are_the_peers_own_witness :
  (∃ ips, Demo.peer_a !! "neighbors" = Some (VSlice ips) ∧ ips ≠ []) ∧
  resolve_peer Demo.rt Peer_type [] ("c", ∅, false) [] =
    Fatal "[c] has no neighbors defined" ∧
  Load Demo.rt (Parsed Demo.borrowed_neighbors) =
    Exits "[c] has no neighbors defined".
Proof.
  destruct policy_loads as (c & h & pa & pb & E & _).
  assert (Hin : ("a", Demo.peer_a) ∈ Doc.Peers Demo.policy) by in_list.
  destruct (neighbors_are_the_peers_own Demo.rt Demo.policy c h "a"
              Demo.peer_a E Hin) as (Hown & Hround & _ & Hload & _).
  split; [exact Hown|]. split.
  - apply (Hround Peer_type [] "c" ∅ false []).
    unfold no_neighbors. rewrite lookup_empty. exact I.
  - pose proof reaches_peer_c as H. unfold reaches_without_neighbors in H.
    destruct (Unmarshal Peer_type Demo.borrowed_neighbors [])
      as [[[[|[n p] [|]] ts] h0]| | |] eqn:Hu; try discriminate H.
    destruct (validate_Struct Demo.rt Demo.borrowed_neighbors) eqn:Hv;
      [discriminate H|].
    destruct (iterM check_template ts h0) as [[[] h1]| | |] eqn:Hc;
      try discriminate H.
    destruct (os_Hostname Demo.rt) as [hn|] eqn:Hh;
      [|rewrite andb_false_r in H; discriminate H].
    rewrite andb_true_r in H. apply andb_prop in H as [Hn Hp].
    apply bool_decide_eq_true in Hn, Hp. subst n.
    apply (Hload Demo.borrowed_neighbors [] "c" p [] ts h0 h1 [] false h1
             Hu Hv Hc).
    + intros _. exists hn. reflexivity.
    + reflexivity.
    + unfold no_neighbors. rewrite Hp. exact I.
Defined.

(** Peer [c] has no neighbors of its own, its template has: [Load] ends
    with the fatal error. *)
Lemma neighbors_of_template_rejected :
  Demo.peer_c !! "neighbors" = None ∧
  Demo.peer_c !! "template" = Some (VString "t") ∧
  Demo.template_t !! "neighbors" = Some (VSlice ["192.0.2.1"]) ∧
  Load Demo.rt (Parsed Demo.borrowed_neighbors) =
    Exits "[c] has no neighbors defined".
Proof. vm_compute. repeat split. Qed.

Lemma announce_originated_forced_witness :
  ∃ c h p,
    Load Demo.rt (Parsed Demo.policy_no_origin) = Returns (Some (c, h)) None ∧
    ("a", p) ∈ Peers c ∧
    Demo.peer_a !! "announce-originated" = Some (VBool true) ∧
    deref h p "AnnounceOriginated" = Some (VBool false).
Proof.
  destruct policy_no_origin_loads as (c & h & pa & pb & E & Hps & _).
  assert (Hin : ("a", pa) ∈ Peers c) by (rewrite Hps; in_list).
  exists c, h, pa. split; [exact E|]. split; [exact Hin|].
  split; [by vm_compute|].
  apply (announce_originated_forced Demo.rt Demo.policy_no_origin c h "a" pa
           E eq_refl Hin).
Defined.

(** A document whose template names a template: [Load] neither returns
    a configuration nor returns an error. *)
Lemma Load_exits_without_returning :
  Load Demo.rt (Parsed Demo.nested_templates) =
    Exits "Templates must not have a template field set, but u does".
Proof. vm_compute. reflexivity. Qed.

Lemma QueryNVRS_iff_witness :
  ∃ c h,
    Load Demo.rt (Parsed Demo.policy) = Returns (Some (c, h)) None ∧
    Demo.peer_b !! "filter-never-via-route-servers" = Some (VBool false) ∧
    QueryNVRS c = true.
Proof.
  destruct policy_loads as (c & h & pa & pb & E & _).
  exists c, h. split; [exact E|]. split; [by vm_compute|].
  apply (QueryNVRS_iff Demo.rt Demo.policy c h E).
  exists "b", Demo.peer_b. split; [in_list|].
  vm_compute. by eexists.
Defined.

(** The origin prefixes of the demonstration sorted by family: the
    IPv4-mapped address has a 4-byte form and goes with the IPv4 prefixes.
    A list with a string that is no prefix is refused. *)
Lemma partition_by_family_witness :
  by_family Demo.rt "origin prefix" Demo.origin [] [] [] =
    Ok ((["192.0.2.0/24"; "::ffff:192.0.2.1/128"], ["2001:db8::/32"]), []) ∧
  by_family Demo.rt "origin prefix"
    ["192.0.2.0/24"; "bogus"; "2001:db8::/32"] [] [] [] =
    Return (None, Some "Invalid origin prefix: bogus").
Proof.
  destruct (partition_by_family Demo.rt "origin prefix" Demo.origin)
    as [H1 _].
  destruct (partition_by_family Demo.rt "origin prefix"
              ["192.0.2.0/24"; "bogus"; "2001:db8::/32"]) as (_ & H2 & _).
  split.
  - assert (Hall : Forall (λ x, is_Some (ParseCIDR Demo.rt x)) Demo.origin).
    { repeat constructor; vm_compute; eexists; reflexivity. }
    pose proof (H1 Hall) as H. cbv zeta in H. destruct H as [Hok _].
    rewrite (Hok []). vm_compute. reflexivity.
  - apply (H2 ["192.0.2.0/24"] "bogus" ["2001:db8::/32"] [] eq_refl).
    + repeat constructor; vm_compute; eexists; reflexivity.
    + vm_compute. reflexivity.
Defined.

Lemma communities_categorized_witness :
  ∃ c h p,
    Load Demo.rt (Parsed Demo.policy) = Returns (Some (c, h)) None ∧
    ("a", p) ∈ Peers c ∧
    deref_list h p "ImportCommunities" = ["100,200"; "100:200:300"] ∧
    deref_list h p "ImportStandardCommunities" = ["100,200"] ∧
    deref_list h p "ImportLargeCommunities" = ["100,200,300"].
Proof.
  destruct policy_loads as (c & h & pa & pb & E & Hps & Hc & _).
  assert (Hin : ("a", pa) ∈ Peers c) by (rewrite Hps; in_list).
  assert (Hf : ("import", "ImportCommunities", "ImportStandardCommunities",
                "ImportLargeCommunities") ∈ community_fields) by in_list.
  pose proof (communities_categorized Demo.rt Demo.policy c h "a" pa
                _ _ _ _ E Hin Hf) as H.
  cbv zeta in H. destruct H as (_ & Hs & Hl & _).
  rewrite Hc in Hs, Hl.
  exists c, h, pa. split; [exact E|]. split; [exact Hin|].
  split; [exact Hc|]. split.
  - rewrite Hs. vm_compute. reflexivity.
  - rewrite Hl. vm_compute. reflexivity.
Defined.

(** The document whose template [u] names the template [t] ends [Load]
    with the fatal error that names [u].  With a null template before
    [u], [Load] panics. *)
Lemma template_naming_template_rejected_witness :
  Load Demo.rt (Parsed Demo.nested_templates) = Exits (template_error "u") ∧
  Load_raw Demo.rt (λ _, None) Peer_type null_template_first =
  Panics nil_dereference.
Proof.
  split.
  - destruct (template_naming_template_rejected Demo.rt (λ _, None)
                (Raw.of_document Demo.nested_templates) "u" Demo.template_u)
      as [[(e & Hu & _)|[(e & Hv & _)|[(i & name & td' & ps & ts & h0 &
                                         Hf & _ & _ & _ & HL)
                                      |(i & name & ps & ts & h0 & Hf & _)]]]
          Hload].
    + in_list.
    + vm_compute. reflexivity.
    + assert (Hd : (if Unmarshal_raw Peer_type
                         (Raw.of_document Demo.nested_templates) []
                      is Return _ then false else true) = true)
        by (vm_compute; reflexivity).
      rewrite Hu in Hd. discriminate Hd.
    + discriminate Hv.
    + assert (Hn : (if list_find stops_check
                         (Raw.Templates (Raw.of_document Demo.nested_templates))
                      is Some (_, (n, _))
                    then bool_decide (n = "u") else false) = true)
        by (vm_compute; reflexivity).
      rewrite Hf in Hn. apply bool_decide_eq_true in Hn. subst name.
      rewrite (Hload Demo.nested_templates eq_refl eq_refl). exact HL.
    + assert (Hn : (if list_find stops_check
                         (Raw.Templates (Raw.of_document Demo.nested_templates))
                      is Some (_, (_, None))
                    then false else true) = true)
        by (vm_compute; reflexivity).
      rewrite Hf in Hn. discriminate Hn.
  - destruct (template_naming_template_rejected Demo.rt (λ _, None)
                null_template_first "u" Demo.template_u)
      as [[(e & Hu & _)|[(e & Hv & _)|[(i & name & td' & ps & ts & h0 &
                                         Hf & _)
                                      |(i & name & ps & ts & h0 &
                                         _ & _ & _ & HL)]]] _].
    + in_list.
    + vm_compute. reflexivity.
    + assert (Hd : (if Unmarshal_raw Peer_type null_template_first []
                      is Return _ then false else true) = true)
        by (vm_compute; reflexivity).
      rewrite Hu in Hd. discriminate Hd.
    + discriminate Hv.
    + assert (Hn : (if list_find stops_check (Raw.Templates null_template_first)
                      is Some (_, (_, Some _))
                    then false else true) = true)
        by (vm_compute; reflexivity).
      rewrite Hf in Hn. discriminate Hn.
    + exact HL.
Defined.

(** ** The first loop, field by field *)

Lemma filter_ext_elem {A} (P Q : A → bool) (l : list A) :
  (∀ x, x ∈ l → P x = Q x) → filter P l = filter Q l.
Proof.
  induction l as [|x l IH]; intros H; [done|].
  rewrite !filter_cons, (H x) by by left.
  rewrite IH; [done|]. intros y Hy. apply H. by right.
Qed.

(** The template that is assigned from, and the peer after the
    assignment. *)
Lemma assign_template_cases t templates (p : Peer) h p' h' :
  assign_template t templates p h = Ok (p', h') →
  h' = h ∧
  ∃ tmpl, merged_from templates h p tmpl ∧
    p' = match tmpl with
         | Some tm => fold_left (merge_field tm) t p
         | None => p
         end.
Proof.
  unfold assign_template, merged_from. intros H.
  destruct (p !! "Template") as [lt|] eqn:Et.
  2:{ inv_M. split; [done|]. by exists None. }
  apply bind_Ok_inv in H as (a & h1 & Hm & H).
  apply load_string_inv in Hm as [Hm ->].
  destruct (decide (a ≠ "")) as [Hne|Heq].
  2:{ inv_M. split; [done|]. exists None. split; [|done].
      exists a. split; [done|]. rewrite decide_True; [done|].
      by destruct (decide (a = "")). }
  destruct (list_to_map templates !! a) as [tmpl|] eqn:Elook; [|done].
  inv_M. split; [done|]. exists (Some tmpl). split; [|done].
  exists a. split; [done|]. rewrite decide_False by done. eauto.
Qed.

(** The peer after the assignment, field by field. *)
Lemma merged_lookup t (tmpl : option Peer) (p : Peer) sf :
  sf ∈ t →
  match tmpl with
  | Some tm => fold_left (merge_field tm) t p
  | None => p
  end !! Name sf =
  match p !! Name sf with
  | Some l => Some l
  | None => inherited tmpl (Name sf)
  end.
Proof.
  intros Hin. unfold inherited. destruct tmpl as [tm|]; simpl.
  2:{ destruct (p !! Name sf); [done|]. by case_decide. }
  destruct (merge_fields_spec tm t p) as (Hkeep & Hfrom & Hmerge).
  destruct (p !! Name sf) as [l|] eqn:Ep; [by apply Hkeep|].
  case_decide as Hn.
  - destruct (fold_left _ _ _ !! Name sf) as [l|] eqn:E; [|done].
    destruct (Hfrom _ _ E) as [?|[_ ?]]; congruence.
  - destruct (tm !! Name sf) as [l|] eqn:Etm; [by apply Hmerge|].
    destruct (fold_left _ _ _ !! Name sf) as [l|] eqn:E; [|done].
    destruct (Hfrom _ _ E) as [?|[? _]]; congruence.
Qed.

(** One round of the defaulting loop. *)
Lemma set_default_round (p : Peer) sf h p1 h1 lb opts :
  p !! "BooleanOptions" = Some lb → h !! lb = Some (VSlice opts) →
  set_default p sf h = Ok (p1, h1) →
  (∀ l v, l ≠ lb → h !! l = Some v → h1 !! l = Some v) ∧
  (∀ f, f ≠ Name sf → p1 !! f = p !! f) ∧
  (∀ f l, p !! f = Some l → p1 !! f = Some l) ∧
  h1 !! lb = Some (VSlice (opts ++ (if counts_as_option p sf
                                    then [Tag_yaml sf] else []))) ∧
  (p !! Name sf = None →
     if decide (Tag_default sf = "-") then p1 !! Name sf = None
     else match default_value sf with
          | Some v => ∃ l, l ≠ lb ∧ p1 !! Name sf = Some l ∧ h1 !! l = Some v
          | None => p1 !! Name sf = None
          end).
Proof.
  intros Hlb Hopts H. unfold set_default in H.
  pose proof (lookup_lt_Some _ _ _ Hopts) as Hlt.
  destruct (decide (Tag_default sf = "")) as [|Hne]; [done|].
  unfold counts_as_option.
  destruct (decide (Tag_default sf ≠ "-")) as [Hdef|Hnodef].
  2:{ inv_M. rewrite (bool_decide_eq_false_2 (Tag_default sf ≠ "-")) by done.
      rewrite andb_false_r, app_nil_r. simpl.
      split_and!; [done..|]. intros Hnil. rewrite decide_True; [done|].
      by destruct (decide (Tag_default sf = "-")). }
  rewrite (bool_decide_eq_true_2 (Tag_default sf ≠ "-")) by done.
  rewrite andb_true_r.
  destruct (p !! Name sf) as [l0|] eqn:Ef.
  { (* the field is set *)
    rewrite (bool_decide_eq_true_2 (is_Some (Some l0))) by eauto.
    rewrite andb_true_r.
    destruct (decide (Elem_Kind sf = reflect.Bool)) as [Hk|Hk].
    - rewrite Hlb in H.
      rewrite (bind_Ok_eq _ _ _ _ _ (load_slice_Ok lb h opts Hopts)) in H.
      apply bind_Ok_inv in H as ([] & h2 & Hst & H).
      apply store_inv in Hst as [Hst ->]. inv_M.
      rewrite bool_decide_eq_true_2 by done.
      split_and!; [|done|done| |done].
      + intros l v Hl Hv. by rewrite list_lookup_insert_ne.
      + by rewrite list_lookup_insert_eq.
    - inv_M. rewrite bool_decide_eq_false_2 by done. rewrite app_nil_r.
      split_and!; done. }
  (* the field is nil *)
  rewrite (bool_decide_eq_false_2 (is_Some None)) by (by intros [? ?]).
  rewrite andb_false_r, app_nil_r.
  assert (Hnew : ∀ v, default_value sf = Some v →
            p1 = <[Name sf := length h]> p → h1 = h ++ [v] →
            (∀ l v, l ≠ lb → h !! l = Some v → h1 !! l = Some v) ∧
            (∀ f, f ≠ Name sf → p1 !! f = p !! f) ∧
            (∀ f l, p !! f = Some l → p1 !! f = Some l) ∧
            h1 !! lb = Some (VSlice opts) ∧
            (None = @None loc →
               if decide (Tag_default sf = "-") then p1 !! Name sf = None
               else match default_value sf with
                    | Some v => ∃ l, l ≠ lb ∧ p1 !! Name sf = Some l ∧
                                     h1 !! l = Some v
                    | None => p1 !! Name sf = None
                    end)).
  { intros v Hv -> ->. split_and!.
    - intros l v' _ Hl. by apply lookup_app_l_Some.
    - intros f Hf. by rewrite lookup_insert_ne.
    - intros f l Hf. rewrite lookup_insert_ne; [done|congruence].
    - by apply lookup_app_l_Some.
    - intros _. rewrite decide_False by done. rewrite Hv.
      exists (length h). split_and!; [lia|apply lookup_insert_eq|].
      by rewrite lookup_app_r, Nat.sub_diag by lia. }
  assert (Hskip : default_value sf = None → p1 = p → h1 = h →
            (∀ l v, l ≠ lb → h !! l = Some v → h1 !! l = Some v) ∧
            (∀ f, f ≠ Name sf → p1 !! f = p !! f) ∧
            (∀ f l, p !! f = Some l → p1 !! f = Some l) ∧
            h1 !! lb = Some (VSlice opts) ∧
            (None = @None loc →
               if decide (Tag_default sf = "-") then p1 !! Name sf = None
               else match default_value sf with
                    | Some v => ∃ l, l ≠ lb ∧ p1 !! Name sf = Some l ∧
                                     h1 !! l = Some v
                    | None => p1 !! Name sf = None
                    end)).
  { intros Hv -> ->. split_and!; [done..|].
    intros _. rewrite decide_False by done. by rewrite Hv. }
  unfold default_value in Hnew, Hskip |- *.
  destruct (Elem_Kind sf) eqn:Ek.
  - inv_M. exact (Hnew _ eq_refl eq_refl eq_refl).
  - destruct (strconv.Atoi (Tag_default sf)) as [n|]; [|done].
    inv_M. exact (Hnew _ eq_refl eq_refl eq_refl).
  - done.
  - destruct (strconv.ParseBool (Tag_default sf)) as [b|]; [|done].
    inv_M. exact (Hnew _ eq_refl eq_refl eq_refl).
  - inv_M. exact (Hskip eq_refl eq_refl eq_refl).
  - done.
  - inv_M. exact (Hskip eq_refl eq_refl eq_refl).
Qed.

(** The defaulting loop: the fields that are set stay, a nil field gets a
    new cell with the value of its default, and the yaml keys of the
    boolean fields that were set are appended to the list that
    [BooleanOptions] points to, in the order of the fields. *)
Lemma set_defaults_fields ts :
  NoDup (Name <$> ts) →
  ∀ (p : Peer) h p' h' lb opts,
    p !! "BooleanOptions" = Some lb → h !! lb = Some (VSlice opts) →
    foldM set_default ts p h = Ok (p', h') →
    (∀ l v, l ≠ lb → h !! l = Some v → h' !! l = Some v) ∧
    (∀ f, f ∉ Name <$> ts → p' !! f = p !! f) ∧
    (∀ f l, p !! f = Some l → p' !! f = Some l) ∧
    h' !! lb = Some (VSlice (opts ++
                 (Tag_yaml <$> filter (counts_as_option p) ts))) ∧
    ∀ sf, sf ∈ ts → p !! Name sf = None →
      if decide (Tag_default sf = "-") then p' !! Name sf = None
      else match default_value sf with
           | Some v => ∃ l, l ≠ lb ∧ p' !! Name sf = Some l ∧ h' !! l = Some v
           | None => p' !! Name sf = None
           end.
Proof.
  induction ts as [|sf ts IH]; intros Hnd p h p' h' lb opts Hlb Hopts H;
    simpl in H.
  { inv_M. rewrite filter_nil, fmap_nil, app_nil_r.
    split_and!; [done..|]. intros sf Hin. by apply elem_of_nil in Hin. }
  apply bind_Ok_inv in H as (p1 & h1 & Hm & H).
  rewrite fmap_cons in Hnd. apply NoDup_cons in Hnd as [Hfresh Hnd].
  destruct (set_default_round p sf h p1 h1 lb opts Hlb Hopts Hm)
    as (Hh1 & Hoth1 & Hkeep1 & Hopts1 & Hdef1).
  destruct (IH Hnd p1 h1 p' h' lb _ (Hkeep1 _ _ Hlb) Hopts1 H)
    as (Hh' & Hoth' & Hkeep' & Hopts' & Hdef').
  assert (Hsame : ∀ sf', sf' ∈ ts → p1 !! Name sf' = p !! Name sf').
  { intros sf' Hin. apply Hoth1. intros Hn. apply Hfresh. rewrite <- Hn.
    apply list_elem_of_fmap. eauto. }
  split_and!.
  - intros l v Hl Hv. by apply Hh', Hh1.
  - intros f Hf. rewrite fmap_cons in Hf. apply not_elem_of_cons in Hf as [? ?].
    rewrite Hoth' by done. by apply Hoth1.
  - intros f l Hf. by apply Hkeep', Hkeep1.
  - rewrite Hopts'. do 2 f_equal. rewrite <- (assoc_L (++)). f_equal.
    rewrite filter_cons.
    rewrite (filter_ext_elem (counts_as_option p1) (counts_as_option p) ts).
    + by destruct (counts_as_option p sf).
    + intros sf' Hin. unfold counts_as_option. by rewrite Hsame.
  - intros sf' Hin Hnil. apply elem_of_cons in Hin as [->|Hin].
    + specialize (Hdef1 Hnil). case_decide; [by rewrite Hoth'|].
      destruct (default_value sf) as [v|]; [|by rewrite Hoth'].
      destruct Hdef1 as (l & Hl & Hp1 & Hv). exists l.
      split_and!; [done|by apply Hkeep'|by apply Hh'].
    + apply Hdef'; [done|]. by rewrite Hsame.
Qed.

Lemma merged_keep t (tmpl : option Peer) (p : Peer) f l :
  p !! f = Some l →
  match tmpl with
  | Some tm => fold_left (merge_field tm) t p
  | None => p
  end !! f = Some l.
Proof.
  destruct tmpl as [tm|]; [|done].
  destruct (merge_fields_spec tm t p) as (Hkeep & _). apply Hkeep.
Qed.

(** A boolean field of the type is none of the two fields that a round of
    the first loop sets itself. *)
Lemma Bool_not_set_by_code t sf :
  schema_ok t → sf ∈ t → Elem_Kind sf = reflect.Bool →
  Name sf ≠ "ProtocolName" ∧ Name sf ≠ "BooleanOptions".
Proof.
  intros Hs Hin Hk. split; intros Hn.
  - rewrite (special_field_eq t sf (field "ProtocolName" reflect.String "-" "-")
               Hs) in Hk; [done| |done..].
    apply (bool_decide_unpack _). by vm_compute.
  - rewrite (special_field_eq t sf (field "BooleanOptions" reflect.Slice "-" "-")
               Hs) in Hk; [done| |done..].
    apply (bool_decide_unpack _). by vm_compute.
Qed.

(** One round of the first loop, field by field. *)
Lemma resolve_peer_fields rt t templates Σ h n (p : Peer) q n' p' q' h' :
  schema_ok t → store_ok Σ h → tagged Σ p →
  resolve_peer rt t templates (n, p, q) h = Ok ((n', p', q'), h') →
  ∃ tmpl, merged_from templates h' p tmpl ∧
          resolved_fields rt t h' (n, p) (n', p') tmpl.
Proof.
  intros Hs Hok Htag H. unfold resolve_peer in H.
  apply bind_Ok_inv in H as (lname & h1 & Hm & H).
  apply new_inv in Hm as [-> ->].
  apply bind_Ok_inv in H as ([] & h2 & Hnb & H).
  apply bind_Ok_inv in H as (lopts & h3 & Hm & H).
  apply new_inv in Hm as [-> ->].
  apply bind_Ok_inv in H as (pc & h4 & Hat & H).
  apply bind_Ok_inv in H as (pd & h5 & Hdf & H).
  inv_M.
  set (pa := <["ProtocolName" := length h]> p) in *.
  set (pb := <["BooleanOptions" := length h2]> pa) in *.
  assert (Hvalid : ∀ f l, p !! f = Some l → (l < length h)%nat).
  { intros f l Hf. destruct Hok as [<- _]. eapply lookup_lt_Some, Htag, Hf. }
  (* the check of the neighbors leaves the store alone *)
  assert (h2 = h ++ [VString (Sanitize rt n')]) as ->.
  { destruct (pa !! "NeighborIPs") as [l|]; [|done].
    apply bind_Ok_inv in Hnb as (ips & hx & Hl & Hnb).
    apply load_slice_inv in Hl as [Hl ->].
    case_decide; [done|]. by inv_M. }
  set (h1 := h ++ [VString (Sanitize rt n')]) in *.
  set (lb := length h1) in *.
  set (h3 := h1 ++ [VSlice []]) in *.
  assert (Hpb : ∀ f, f ≠ "ProtocolName" → f ≠ "BooleanOptions" →
                  pb !! f = p !! f).
  { intros f ? ?. unfold pb, pa. by rewrite !lookup_insert_ne. }
  assert (Hh3 : ∀ l v, h !! l = Some v → h3 !! l = Some v).
  { intros l v Hl. unfold h3, h1. by do 2 apply lookup_app_l_Some. }
  (* the template *)
  apply assign_template_cases in Hat as (-> & tmpl & Hfrom & ->).
  set (pc := match tmpl with
             | Some tm => fold_left (merge_field tm) t pb
             | None => pb
             end) in *.
  (* the defaults *)
  assert (Hlb : pc !! "BooleanOptions" = Some lb).
  { apply merged_keep. apply lookup_insert_eq. }
  assert (Hopts : h3 !! lb = Some (VSlice [])).
  { unfold h3, lb. by rewrite lookup_app_r, Nat.sub_diag by lia. }
  destruct (set_defaults_fields t (schema_names _ Hs) pc h3 p' h' lb []
              Hlb Hopts Hdf) as (Hh' & _ & Hkeep & Hopts' & Hdef).
  assert (Hlen1 : length h1 = S (length h)).
  { unfold h1. rewrite length_app. simpl. lia. }
  assert (Hkept : ∀ l v, h !! l = Some v → h' !! l = Some v).
  { intros l v Hl. apply Hh'; [|by apply Hh3].
    apply lookup_lt_Some in Hl. unfold lb. lia. }
  exists tmpl. split; [|split_and!].
  - (* the template that was assigned from *)
    unfold merged_from in *. rewrite Hpb in Hfrom by done.
    destruct (p !! "Template") as [lt|] eqn:Et; [|done].
    destruct Hfrom as (tn & Hlt & Hcase). exists tn. split; [|done].
    apply Hkept. apply Hvalid in Et.
    unfold h3, h1 in Hlt. rewrite !lookup_app_l in Hlt; [done|lia|].
    rewrite length_app. lia.
  - (* the protocol name *)
    exists (length h). split.
    + apply Hkeep, merged_keep. unfold pb, pa.
      rewrite lookup_insert_ne by done. apply lookup_insert_eq.
    + simpl. apply Hh'; [unfold lb; lia|].
      unfold h3. apply lookup_app_l_Some. unfold h1.
      by rewrite lookup_app_r, Nat.sub_diag by lia.
  - (* the boolean options *)
    exists lb. split; [by apply Hkeep|]. rewrite Hopts'. simpl. do 3 f_equal.
    apply filter_ext_elem. intros sf Hin.
    unfold counts_as_option, boolean_option. simpl.
    destruct (decide (Elem_Kind sf = reflect.Bool)) as [Hk|Hk].
    2:{ by rewrite !(bool_decide_eq_false_2 (Elem_Kind sf = reflect.Bool)). }
    destruct (Bool_not_set_by_code t sf Hs Hin Hk) as [Hn1 Hn2].
    do 2 f_equal. unfold pc. rewrite (merged_lookup t tmpl pb sf Hin).
    rewrite Hpb by done.
    destruct (p !! Name sf) as [l|].
    + rewrite !bool_decide_eq_true_2 by eauto. done.
    + rewrite (bool_decide_eq_false_2 (is_Some None)) by (by intros [? ?]).
      done.
  - (* the other fields *)
    intros sf Hin Hn1 Hn2. simpl.
    pose proof (merged_lookup t tmpl pb sf Hin) as Hpc. fold pc in Hpc.
    rewrite Hpb in Hpc by done.
    destruct (p !! Name sf) as [l|] eqn:Ep; [by apply Hkeep|].
    destruct (inherited tmpl (Name sf)) as [l|] eqn:Ei; [by apply Hkeep|].
    specialize (Hdef sf Hin Hpc). case_decide; [done|].
    destruct (default_value sf) as [v|]; [|done].
    destruct Hdef as (l & _ & Hl & Hv). eauto.
Qed.

Lemma merged_from_mono templates (h h' : heap) (p : Peer) tmpl :
  (∀ l v, h !! l = Some v → h' !! l = Some v) →
  merged_from templates h p tmpl → merged_from templates h' p tmpl.
Proof.
  intros Hh. unfold merged_from. destruct (p !! "Template") as [lt|]; [|done].
  intros (tn & Hlt & Hcase). exists tn. split; [by apply Hh|done].
Qed.

Lemma resolved_fields_mono rt t (h h' : heap) np0 np1 tmpl :
  (∀ l v, h !! l = Some v → h' !! l = Some v) →
  resolved_fields rt t h np0 np1 tmpl → resolved_fields rt t h' np0 np1 tmpl.
Proof.
  intros Hh ((l & Hl & Hv) & (lb & Hlb & Hvb) & Hf). split_and!.
  - exists l. split; [done|by apply Hh].
  - exists lb. split; [done|by apply Hh].
  - intros sf Hin Hn1 Hn2. specialize (Hf sf Hin Hn1 Hn2).
    destruct (np0.2 !! Name sf); [done|].
    destruct (inherited tmpl (Name sf)); [done|].
    case_decide; [done|]. destruct (default_value sf); [|done].
    destruct Hf as (l' & Hl' & Hv'). exists l'. split; [done|by apply Hh].
Qed.

(** The first loop, field by field. *)
Lemma peers_loop_fields rt t templates :
  schema_ok t →
  ∀ peers Σ h q peers' q' h',
    store_ok Σ h →
    Forall (λ np : string * Peer, tagged Σ np.2) peers →
    Forall (λ nt : string * Peer, tagged Σ nt.2) templates →
    peers_loop rt t templates peers q h = Ok ((peers', q'), h') →
    Forall2 (λ np0 np1, ∃ tmpl, merged_from templates h' np0.2 tmpl ∧
                                resolved_fields rt t h' np0 np1 tmpl)
      peers peers'.
Proof.
  intros Hs peers.
  induction peers as [|[n p] peers IH]; intros Σ h q peers' q' h' Hok Hp Ht H;
    simpl in H.
  { inv_M. constructor. }
  apply bind_Ok_inv in H as ([[n1 p1] q1] & h1 & Hm & H).
  apply bind_Ok_inv in H as ([rest q2] & h2 & Hrest & H).
  inv_M.
  apply Forall_cons in Hp as [Hp Hps].
  destruct (resolve_peer_spec _ _ _ _ _ _ _ _ _ _ _ _ Hs Hok Hp Ht Hm)
    as (Σ1 & He1 & _ & _).
  destruct (resolve_peer_fields _ _ _ _ _ _ _ _ _ _ _ _ Hs Hok Hp Hm)
    as (tmpl & Hfrom & Hres).
  pose proof (extends_prefix _ _ _ _ _ He1) as Hpre1.
  assert (Hps1 : Forall (λ np : string * Peer, tagged Σ1 np.2) peers).
  { eapply Forall_impl; [exact Hps|]. intros np Hnp.
    exact (tagged_mono _ _ _ Hnp Hpre1). }
  assert (Ht1 : Forall (λ np : string * Peer, tagged Σ1 np.2) templates).
  { eapply Forall_impl; [exact Ht|]. intros np Hnp.
    exact (tagged_mono _ _ _ Hnp Hpre1). }
  pose proof (extends_store_ok _ _ _ _ _ He1) as Hok1.
  destruct (peers_loop_spec rt t templates Hs peers Σ1 h1 _ _ _ _
              Hok1 Hps1 Ht1 Hrest) as (Σ2 & He2 & _ & _).
  constructor.
  - exists tmpl. split.
    + eapply merged_from_mono; [|exact Hfrom].
      intros l v. exact (extends_false_lookup _ _ _ _ l v He2).
    + assert (n1 = n) as ->.
      { unfold resolve_peer in Hm. by inv_M. }
      eapply resolved_fields_mono; [|exact Hres].
      intros l v. exact (extends_false_lookup _ _ _ _ l v He2).
  - exact (IH Σ1 h1 _ _ _ _ Hok1 Hps1 Ht1 Hrest).
Qed.

(** ** Load as a whole, with the steps between the two loops *)

Lemma Load_steps rt t d c h :
  schema_ok t →
  Load_with rt t (Parsed d) = Returns (Some (c, h)) None →
  ∃ peers0 Σ0 h0 peers1 Σ1 h1 Σ2,
    let w := bool_decide (Doc.Prefixes d = []) in
    (store_ok Σ0 h0 ∧
     Forall2 (decoded_entry t Σ0 h0) (Doc.Peers d) peers0 ∧
     Forall2 (decoded_entry t Σ0 h0) (Doc.Templates d) (Templates c) ∧
     extends false Σ0 h0 Σ1 h1 ∧
     Forall2 (resolved1 t (Templates c) Σ1 h1) peers0 peers1 ∧
     extends w Σ1 h1 Σ2 h ∧
     Forall2 (resolved2 rt (Doc.Prefixes d) Σ2 h) peers1 (Peers c)) ∧
    Forall2 (λ np0 np1, ∃ tmpl, merged_from (Templates c) h1 np0.2 tmpl ∧
                                resolved_fields rt t h1 np0 np1 tmpl)
      peers0 peers1 ∧
    (if decide (Doc.Hostname d = "") then os_Hostname rt = inl (Hostname c)
     else Hostname c = Doc.Hostname d) ∧
    categorize_SRD (Doc.SRDCommunities d) [] [] h1 =
      Ok ((SRDStandardCommunities (Augments_ c),
           SRDLargeCommunities (Augments_ c)), h1) ∧
    parse_statics rt (Doc.Statics d) ∅ ∅ h1 =
      Ok ((Statics4 (Augments_ c), Statics6 (Augments_ c)), h1) ∧
    forM (parse_BFD rt) (Doc.BFDInstances d) h1 = Ok (BFDInstances c, h1) ∧
    forM (parse_VRRP rt) (Doc.VRRPInstances d) h1 = Ok (VRRPInstances c, h1) ∧
    parse_RTR (Doc.RTRServer d) h1 =
      Ok ((RTRServerHost c, RTRServerPort c), h1) ∧
    RTRServer c = Doc.RTRServer d ∧
    SRDCommunities (Augments_ c) = Doc.SRDCommunities d ∧
    Statics (Augments_ c) = Doc.Statics d.
Proof.
  intros Hs H. unfold Load_with in H.
  destruct (Unmarshal t d []) as [[[peers0 templates] h0]| | |] eqn:Hu;
    [|done..].
  destruct (validate_Struct rt d) eqn:Hv; [done|].
  destruct (Unmarshal_spec _ _ _ _ _ Hs Hu) as (Σ0 & Hok0 & Hp0 & Ht0).
  destruct (resolve rt t d peers0 templates h0) as [[[] ?]|[c' e]| |] eqn:Hr;
    simpl in H; [|done..].
  injection H as Hc' He'. subst c' e. unfold resolve in Hr.
  apply bind_Return_Some in Hr as ([] & h1 & Hchk & Hr);
    [|apply errs_iterM; intros; apply errs_check_template].
  pose proof (pure_iterM _ _ (λ a, pure_check_template a) _ _ _ Hchk) as ->.
  apply bind_Return_Some in Hr as (hostname & h1 & Hhost & Hr);
    [|case_decide; errs].
  assert (h1 = h0 ∧
          if decide (Doc.Hostname d = "") then os_Hostname rt = inl hostname
          else hostname = Doc.Hostname d) as [-> Hname].
  { revert Hhost. case_decide; [destruct (os_Hostname rt)|]; try done;
      by intros [= -> ->]. }
  apply bind_Return_Some in Hr as ([peers1 q] & h1 & Hloop & Hr);
    [|apply errs_peers_loop].
  apply bind_Return_Some in Hr as ([p4 p6] & h2 & Hfam & Hr);
    [|apply errs_by_family].
  pose proof (pure_by_family _ _ _ _ _ _ _ _ Hfam) as ->.
  apply bind_Return_Some in Hr as ([s1 s2] & h2 & Hsrd & Hr);
    [|apply errs_categorize_SRD].
  pose proof (pure_categorize_SRD _ _ _ _ _ _ Hsrd) as ->.
  apply bind_Return_Some in Hr as ([st4 st6] & h2 & Hst & Hr);
    [|apply errs_parse_statics].
  pose proof (pure_parse_statics _ _ _ _ _ _ _ Hst) as ->.
  apply bind_Return_Some in Hr as (bfd & h2 & Hbfd & Hr);
    [|apply errs_forM; intros; apply errs_parse_BFD].
  pose proof (pure_forM _ _ (pure_parse_BFD rt) _ _ _ Hbfd) as ->.
  apply bind_Return_Some in Hr as (vrrp & h2 & Hvrrp & Hr);
    [|apply errs_forM; intros; apply errs_parse_VRRP].
  pose proof (pure_forM _ _ (pure_parse_VRRP rt) _ _ _ Hvrrp) as ->.
  apply bind_Return_Some in Hr as ([host port] & h2 & Hrtr & Hr);
    [|apply errs_parse_RTR].
  pose proof (pure_parse_RTR _ _ _ _ Hrtr) as ->.
  apply bind_Return_Some in Hr as (peers2 & h2 & Hfin & Hr);
    [|apply errs_forM; intros; apply errs_finish_peer].
  injection Hr as Hc Hh. subst c h. simpl.
  assert (Htag0 : Forall (λ np : string * Peer, tagged Σ0 np.2) peers0).
  { eapply Forall2_Forall_r; [exact Hp0|]. apply Forall_forall.
    by intros nd _ np (_ & ? & _). }
  assert (Htagt : Forall (λ np : string * Peer, tagged Σ0 np.2) templates).
  { eapply Forall2_Forall_r; [exact Ht0|]. apply Forall_forall.
    by intros nd _ np (_ & ? & _). }
  (* the first loop *)
  destruct (peers_loop_spec rt t templates Hs peers0 Σ0 h0 false peers1 q h1
              Hok0 Htag0 Htagt Hloop) as (Σ1 & He1 & HF1 & ->).
  pose proof (peers_loop_fields rt t templates Hs peers0 Σ0 h0 false peers1 _ h1
                Hok0 Htag0 Htagt Hloop) as HFx.
  (* the second loop *)
  set (w := bool_decide (Doc.Prefixes d = [])).
  destruct (forM_spec (finish_peer rt (Doc.Prefixes d)) w
              (λ Σ _ np, tagged Σ np.2 ∧
                         ∀ f, f ∈ derived_fields → np.2 !! f = None)
              (resolved2 rt (Doc.Prefixes d)))
    with (l := peers1) (Σ := Σ1) (h := h1) (l' := peers2) (h' := h2)
    as (Σ2 & He2 & HF2).
  { intros Σ hx Σ' hx' np [Htag Hnil] He. split; [|done].
    by eapply tagged_mono, extends_prefix. }
  { intros. by eapply resolved2_mono. }
  { intros Σ hx [n p] [n' p'] hx' Hok [Htag Hnil] Hf.
    eapply finish_peer_spec; [|done..].
    intros Hp. unfold w. by apply bool_decide_eq_true. }
  { by eapply extends_store_ok. }
  { apply Forall_forall. intros np1 Hin.
    apply list_elem_of_lookup in Hin as [i Hi].
    destruct (Forall2_lookup_r _ _ _ _ _ HF1 Hi) as (np0 & Hi0 & Hres).
    destruct (Forall2_lookup_r _ _ _ _ _ Hp0 Hi0) as (nd & _ & Hdec).
    split.
    - by destruct Hres as (_ & _ & ? & _).
    - intros f Hf. by eapply resolved1_derived_nil. }
  { done. }
  exists peers0, Σ0, h0, peers1, Σ1, h1, Σ2.
  split; [exact (conj Hok0 (conj Hp0 (conj Ht0 (conj He1 (conj HF1
                  (conj He2 HF2))))))|].
  split; [exact HFx|]. split; [exact Hname|]. split; [exact Hsrd|].
  split; [exact Hst|]. split; [exact Hbfd|]. split; [exact Hvrrp|].
  split; [exact Hrtr|]. done.
Qed.

(** ** A peer of the document through [Load] *)

Lemma Template_field_in :
  field "Template" reflect.String "template" "-" ∈ Peer_type.
Proof. apply (bool_decide_unpack _). by vm_compute. Qed.

(** The template that the first loop assigned from is the decoded
    template of the document that the peer names. *)
Lemma merged_from_doc d Σ0 h0 Σ1 h1 (templates : list (string * Peer))
    pd (p0 : Peer) tmpl :
  Forall2 (decoded_entry Peer_type Σ0 h0) (Doc.Templates d) templates →
  decoded Peer_type h0 pd p0 → extends false Σ0 h0 Σ1 h1 →
  merged_from templates h1 p0 tmpl →
  match template_doc d pd with
  | Some td => ∃ tm, tmpl = Some tm ∧ tagged Σ0 tm ∧ decoded Peer_type h0 td tm
  | None => tmpl = None
  end.
Proof.
  intros Ht0 Hdec He1 Hfrom. pose proof Peer_type_ok as Hs.
  pose proof Template_field_in as Htf.
  set (tf := field "Template" reflect.String "template" "-") in *.
  unfold merged_from in Hfrom. unfold template_doc.
  destruct (p0 !! "Template") as [lt|] eqn:Et.
  - destruct (decoded_value Peer_type h0 pd p0 tf lt Hs Hdec Htf Et)
      as (_ & v & Hv & Hlv). simpl in Hv. rewrite Hv.
    destruct Hfrom as (tn & Hlt & Hcase).
    pose proof (extends_false_lookup _ _ _ _ _ _ He1 Hlv) as Hlv1.
    assert (v = VString tn) as -> by congruence.
    destruct (decide (tn = "")) as [->|Hne]; [done|].
    destruct Hcase as [[tm Htm] Heq]. subst tmpl. symmetry in Heq.
    destruct (Forall2_list_to_map_r
                (λ td tmpl, tagged Σ0 tmpl ∧ decoded Peer_type h0 td tmpl)
                (Doc.Templates d) templates tn tm)
      as (td & Hlook & Htag & Hdect); [|done|].
    { eapply Forall2_impl; [exact Ht0|]. by intros x y (? & ? & ?). }
    rewrite Hlook. by exists tm.
  - assert (pd !! "template" = None) as ->; [|done].
    destruct (pd !! "template") as [v|] eqn:Ev; [|done].
    destruct Hdec as (_ & Hto & _).
    destruct (Hto tf v Htf ltac:(done) Ev) as (l & Hl & _). simpl in Hl.
    congruence.
Qed.

(** What [Load] makes of the peer at position [i] of the document. *)
Lemma peer_steps rt d c h i name pd :
  Load rt (Parsed d) = Returns (Some (c, h)) None →
  Doc.Peers d !! i = Some (name, pd) →
  ∃ (p p0 p1 : Peer) tmpl Σ0 h0 Σ1 h1 Σ2,
    Peers c !! i = Some (name, p) ∧
    tagged Σ0 p0 ∧ decoded Peer_type h0 pd p0 ∧
    extends false Σ0 h0 Σ1 h1 ∧
    tagged Σ1 p1 ∧
    resolved_fields rt Peer_type h1 (name, p0) (name, p1) tmpl ∧
    match template_doc d pd with
    | Some td => ∃ tm, tmpl = Some tm ∧ tagged Σ0 tm ∧
                       decoded Peer_type h0 td tm
    | None => tmpl = None
    end ∧
    extends (bool_decide (Doc.Prefixes d = [])) Σ1 h1 Σ2 h ∧
    (∀ f, f ∉ derived_fields → p !! f = p1 !! f) ∧
    merged_from (Templates c) h1 p0 tmpl ∧
    (Doc.Prefixes d = [] →
     ∃ l, p1 !! "AnnounceOriginated" = Some l ∧ h !! l = Some (VBool false)).
Proof.
  intros Hload Hi.
  destruct (Load_steps rt Peer_type d c h Peer_type_ok Hload)
    as (peers0 & Σ0 & h0 & peers1 & Σ1 & h1 & Σ2 &
        (Hok0 & Hp0 & Ht0 & He1 & HF1 & He2 & HF2) & HFx & _).
  destruct (Forall2_lookup_l _ _ _ _ _ Hp0 Hi)
    as ([n0 p0] & Hi0 & Hn0 & Htag0 & Hdec).
  destruct (Forall2_lookup_l _ _ _ _ _ HF1 Hi0)
    as ([n1 p1] & Hi1 & Hn1 & _ & Htag1 & _).
  destruct (Forall2_lookup_l _ _ _ _ _ HF2 Hi1)
    as ([n2 p] & Hi2 & Hn2 & _ & Hoth & _ & _ & Hao).
  destruct (Forall2_lookup_lr _ _ _ _ _ _ HFx Hi0 Hi1)
    as (tmpl & Hfrom & Hres).
  simpl in *. subst n0 n1 n2.
  exists p, p0, p1, tmpl, Σ0, h0, Σ1, h1, Σ2.
  split; [exact Hi2|]. split; [exact Htag0|]. split; [exact Hdec|].
  split; [exact He1|]. split; [exact Htag1|]. split; [exact Hres|].
  split; [exact (merged_from_doc d Σ0 h0 Σ1 h1 _ pd p0 tmpl Ht0 Hdec He1 Hfrom)|].
  split; [exact He2|]. split; [exact Hoth|]. split; [exact Hfrom|].
  exact Hao.
Qed.

(** The pointer of a field that a document can set, before the
    defaults: it is the peer's own or else the template's, and points to
    the value that the document configures. *)
Lemma field_of_document d Σ0 h0 pd (p0 : Peer) tmpl sf :
  tagged Σ0 p0 → decoded Peer_type h0 pd p0 →
  match template_doc d pd with
  | Some td => ∃ tm, tmpl = Some tm ∧ tagged Σ0 tm ∧ decoded Peer_type h0 td tm
  | None => tmpl = None
  end →
  sf ∈ Peer_type → Tag_yaml sf ≠ "-" →
  match configured_value d pd sf with
  | Some v =>
      ∃ l, match p0 !! Name sf with
           | Some l0 => Some l0
           | None => inherited tmpl (Name sf)
           end = Some l ∧ h0 !! l = Some v ∧ Σ0 !! l = Some (Name sf)
  | None => p0 !! Name sf = None ∧ inherited tmpl (Name sf) = None
  end.
Proof.
  intros Htag0 Hdec Htm Hin Hvis. pose proof Peer_type_ok as Hs.
  unfold configured_value.
  destruct (pd !! Tag_yaml sf) as [v|] eqn:Ev.
  { destruct Hdec as (_ & Hto & _).
    destruct (Hto sf v Hin Hvis Ev) as (l & Hl & Hv).
    exists l. rewrite Hl. split_and!; [done..|]. by apply Htag0. }
  assert (Hnil : p0 !! Name sf = None).
  { destruct (p0 !! Name sf) as [l|] eqn:E; [|done].
    destruct (decoded_value Peer_type h0 pd p0 sf l Hs Hdec Hin E)
      as (_ & v & Hv & _). congruence. }
  rewrite Hnil. unfold inherited.
  destruct (decide (Name sf = "Template")); [done|].
  destruct (template_doc d pd) as [td|].
  2:{ by subst tmpl. }
  destruct Htm as (tm & -> & Htagt & Hdect). simpl.
  destruct (td !! Tag_yaml sf) as [v|] eqn:Etd.
  - destruct Hdect as (_ & Hto & _).
    destruct (Hto sf v Hin Hvis Etd) as (l & Hl & Hv).
    exists l. split_and!; [done..|]. by apply Htagt.
  - split; [done|].
    destruct (tm !! Name sf) as [l|] eqn:E; [|done].
    destruct (decoded_value Peer_type h0 td tm sf l Hs Hdect Hin E)
      as (_ & v & Hv & _). congruence.
Qed.

(** The fields of [Peer] with a default, and its boolean fields, are
    fields that a document can set. *)
Lemma defaulted_visible sf :
  sf ∈ Peer_type → Tag_default sf ≠ "-" → Tag_yaml sf ≠ "-".
Proof.
  intros Hin.
  assert (H : Forall (λ sf, bool_decide (Tag_default sf = "-")
                            || bool_decide (Tag_yaml sf ≠ "-"))
                Peer_type).
  { apply (bool_decide_unpack _). by vm_compute. }
  rewrite Forall_forall in H. specialize (H sf Hin).
  apply orb_True in H as [H|H]; apply bool_decide_unpack in H; done.
Qed.

Lemma default_ok_value sf :
  default_ok sf = true → Tag_default sf ≠ "-" → is_Some (default_value sf).
Proof.
  unfold default_ok, default_value. intros H Hd.
  apply andb_prop in H as [_ H].
  rewrite (bool_decide_eq_false_2 (Tag_default sf = "-")) in H by done.
  simpl in H. destruct (Elem_Kind sf); try done.
  - apply bool_decide_eq_true in H as [n ->]. simpl. eauto.
  - apply bool_decide_eq_true in H as [b ->]. simpl. eauto.
Qed.

(** ** More properties of the first loop *)

(** X1.  After a successful [Load] the hostname of the configuration is
    the one of the document when the document sets one, and the name that
    [os.Hostname] returned otherwise; so [Load] does not succeed on a
    document without a hostname when [os.Hostname] fails. *)
Theorem hostname_resolved rt d c h
    (Hload : Load rt (Parsed d) = Returns (Some (c, h)) None) :
  (Doc.Hostname d ≠ "" → Hostname c = Doc.Hostname d) ∧
  (Doc.Hostname d = "" → os_Hostname rt = inl (Hostname c)).
Proof.
  destruct (Load_steps rt Peer_type d c h Peer_type_ok Hload)
    as (peers0 & Σ0 & h0 & peers1 & Σ1 & h1 & Σ2 & _ & _ & Hname & _).
  by case_decide.
Qed.

Lemma Forall2_names {A B} (R : string * A → string * B → Prop) l l' :
  (∀ x y, R x y → x.1 = y.1) → Forall2 R l l' → l.*1 = l'.*1.
Proof.
  intros HR HF. induction HF as [|x y l l' Hxy _ IH]; [done|].
  rewrite !fmap_cons, IH. f_equal. by apply HR.
Qed.

(** X2.  A successful [Load] resolves every peer of the document and
    nothing else: the peers of the configuration have the names of the
    peers of the document, in the same order, and so have the
    templates. *)
Theorem Load_keeps_names rt d c h
    (Hload : Load rt (Parsed d) = Returns (Some (c, h)) None) :
  (Peers c).*1 = (Doc.Peers d).*1 ∧ (Templates c).*1 = (Doc.Templates d).*1.
Proof.
  destruct (Load_steps rt Peer_type d c h Peer_type_ok Hload)
    as (peers0 & Σ0 & h0 & peers1 & Σ1 & h1 & Σ2 &
        (_ & Hp0 & Ht0 & _ & HF1 & _ & HF2) & _).
  assert (E0 : (Doc.Peers d).*1 = peers0.*1).
  { eapply Forall2_names; [|exact Hp0]. by intros x y (? & _). }
  assert (E1 : peers0.*1 = peers1.*1).
  { eapply Forall2_names; [|exact HF1]. by intros x y (? & _). }
  assert (E2 : peers1.*1 = (Peers c).*1).
  { eapply Forall2_names; [|exact HF2]. by intros x y (? & _). }
  assert (E3 : (Doc.Templates d).*1 = (Templates c).*1).
  { eapply Forall2_names; [|exact Ht0]. by intros x y (? & _). }
  split; congruence.
Qed.

(** X3.  After a successful [Load] the protocol name of every peer is
    the sanitized name of the peer. *)
Theorem protocol_name_sanitized rt d c h i name pd
    (Hload : Load rt (Parsed d) = Returns (Some (c, h)) None)
    (Hpeer : Doc.Peers d !! i = Some (name, pd)) :
  ∃ p, Peers c !! i = Some (name, p) ∧
       deref h p "ProtocolName" = Some (VString (Sanitize rt name)).
Proof.
  destruct (peer_steps rt d c h i name pd Hload Hpeer)
    as (p & p0 & p1 & tmpl & Σ0 & h0 & Σ1 & h1 & Σ2 & Hi & _ & _ & _ &
        Htag1 & ((l & Hl & Hv) & _) & _ & He2 & Hoth & _ & _).
  exists p. split; [done|]. simpl in *.
  unfold deref. rewrite Hoth by solve_names. rewrite Hl. simpl.
  eapply extends_lookup; [exact He2|exact Hv|by apply Htag1|by left].
Qed.

(** X4.  After a successful [Load] the list [BooleanOptions] of a peer
    holds the yaml keys of the boolean options that the document
    configures for the peer, in the peer itself or in the template it
    names, whether to true or to false, in the order of the fields of
    [Peer]; an option that only has its default is not listed. *)
Theorem boolean_options_listed rt d c h i name pd
    (Hload : Load rt (Parsed d) = Returns (Some (c, h)) None)
    (Hpeer : Doc.Peers d !! i = Some (name, pd)) :
  ∃ p, Peers c !! i = Some (name, p) ∧
       deref h p "BooleanOptions" =
         Some (VSlice (Tag_yaml <$> filter (listed_option d pd) Peer_type)).
Proof.
  destruct (peer_steps rt d c h i name pd Hload Hpeer)
    as (p & p0 & p1 & tmpl & Σ0 & h0 & Σ1 & h1 & Σ2 & Hi & Htag0 & Hdec & _ &
        Htag1 & (_ & (lb & Hlb & Hv) & _) & Htm & He2 & Hoth & _ & _).
  exists p. split; [done|]. simpl in *.
  unfold deref. rewrite Hoth by solve_names. rewrite Hlb. simpl.
  rewrite (filter_ext_elem (listed_option d pd) (boolean_option p0 tmpl)).
  { eapply extends_lookup; [exact He2|exact Hv|by apply Htag1|by left]. }
  intros sf Hin. unfold listed_option, boolean_option.
  destruct (decide (Elem_Kind sf = reflect.Bool)) as [Hk|Hk].
  2:{ by rewrite !(bool_decide_eq_false_2 (Elem_Kind sf = reflect.Bool)). }
  destruct (decide (Tag_default sf ≠ "-")) as [Hd|Hd].
  2:{ rewrite !(bool_decide_eq_false_2 (Tag_default sf ≠ "-")) by done.
      by rewrite !andb_false_r. }
  do 2 f_equal.
  pose proof (field_of_document d Σ0 h0 pd p0 tmpl sf Htag0 Hdec Htm Hin
                (defaulted_visible sf Hin Hd)) as Hf.
  destruct (configured_value d pd sf) as [v|].
  - destruct Hf as (l & Hl & _). rewrite bool_decide_eq_true_2 by eauto.
    symmetry. apply orb_true_iff.
    destruct (p0 !! Name sf) as [l0|].
    + left. apply bool_decide_eq_true. eauto.
    + right. apply bool_decide_eq_true. eauto.
  - destruct Hf as [-> ->].
    rewrite !(bool_decide_eq_false_2 (is_Some None)) by (by intros [? ?]).
    done.
Qed.

(** X5.  After a successful [Load], a field with a default that the
    document configures neither in the peer nor in its template holds the
    value of the default tag, parsed at the kind of the field.  (For
    [AnnounceOriginated] this holds when there are origin prefixes.) *)
Theorem default_value_applied rt d c h i name pd sf
    (Hload : Load rt (Parsed d) = Returns (Some (c, h)) None)
    (Hpeer : Doc.Peers d !! i = Some (name, pd))
    (Hsf : sf ∈ Peer_type)
    (Hdef : Tag_default sf ≠ "-")
    (Hunset : configured_value d pd sf = None)
    (Hao : Name sf = "AnnounceOriginated" → Doc.Prefixes d ≠ []) :
  ∃ p v, Peers c !! i = Some (name, p) ∧
         default_value sf = Some v ∧ deref h p (Name sf) = Some v.
Proof.
  pose proof Peer_type_ok as Hs.
  pose proof (defaulted_visible sf Hsf Hdef) as Hvis.
  destruct (peer_steps rt d c h i name pd Hload Hpeer)
    as (p & p0 & p1 & tmpl & Σ0 & h0 & Σ1 & h1 & Σ2 & Hi & Htag0 & Hdec & _ &
        Htag1 & (_ & _ & Hfields) & Htm & He2 & Hoth & _ & _).
  pose proof (field_of_document d Σ0 h0 pd p0 tmpl sf Htag0 Hdec Htm Hsf Hvis)
    as Hf.
  rewrite Hunset in Hf. destruct Hf as [Hnil Hinh].
  destruct (visible_not_set_by_code Peer_type sf Hs Hsf Hvis) as [Hn1 Hn2].
  specialize (Hfields sf Hsf Hn1 Hn2). simpl in Hfields.
  rewrite Hnil, Hinh in Hfields. rewrite decide_False in Hfields by done.
  assert (Hok : default_ok sf = true).
  { pose proof (schema_defaults _ Hs) as Hall.
    rewrite Forall_forall in Hall. by apply Hall. }
  destruct (default_ok_value sf Hok Hdef) as [v Hv]. rewrite Hv in Hfields.
  destruct Hfields as (l & Hl & Hlv).
  exists p, v. split; [done|]. split; [done|].
  unfold deref. rewrite Hoth by by eapply visible_not_derived.
  rewrite Hl. simpl.
  eapply extends_lookup; [exact He2|exact Hlv|by apply Htag1|].
  destruct (decide (Name sf = "AnnounceOriginated")) as [Hn|Hn]; [|by left].
  right. apply bool_decide_eq_false. by apply Hao.
Qed.

(** X6.  After a successful [Load], a field that a document can set and
    that has no default ("-") is nil when the document configures it
    neither in the peer nor in its template. *)
Theorem unset_field_stays_nil rt d c h i name pd sf
    (Hload : Load rt (Parsed d) = Returns (Some (c, h)) None)
    (Hpeer : Doc.Peers d !! i = Some (name, pd))
    (Hsf : sf ∈ Peer_type)
    (Hvis : Tag_yaml sf ≠ "-")
    (Hdef : Tag_default sf = "-")
    (Hunset : configured_value d pd sf = None) :
  ∃ p, Peers c !! i = Some (name, p) ∧ p !! Name sf = None.
Proof.
  pose proof Peer_type_ok as Hs.
  destruct (peer_steps rt d c h i name pd Hload Hpeer)
    as (p & p0 & p1 & tmpl & Σ0 & h0 & Σ1 & h1 & Σ2 & Hi & Htag0 & Hdec & _ &
        Htag1 & (_ & _ & Hfields) & Htm & He2 & Hoth & _ & _).
  pose proof (field_of_document d Σ0 h0 pd p0 tmpl sf Htag0 Hdec Htm Hsf Hvis)
    as Hf.
  rewrite Hunset in Hf. destruct Hf as [Hnil Hinh].
  destruct (visible_not_set_by_code Peer_type sf Hs Hsf Hvis) as [Hn1 Hn2].
  specialize (Hfields sf Hsf Hn1 Hn2). simpl in Hfields.
  rewrite Hnil, Hinh in Hfields. rewrite decide_True in Hfields by done.
  exists p. split; [done|].
  rewrite Hoth by by eapply visible_not_derived. done.
Qed.

(** ** More properties of the templates *)

(** X7.  [Load] succeeds only if the template that a peer names exists:
    assigning from a template that is not there is a fatal error. *)
Theorem unknown_template_rejected rt d c h i name pd tn
    (Hload : Load rt (Parsed d) = Returns (Some (c, h)) None)
    (Hpeer : Doc.Peers d !! i = Some (name, pd))
    (Href : pd !! "template" = Some (VString tn))
    (Hne : tn ≠ "") :
  is_Some (list_to_map (M := gmap string (gmap string value))
             (Doc.Templates d) !! tn) ∧
  ∀ t templates (q : Peer) hq lt,
    q !! "Template" = Some lt → hq !! lt = Some (VString tn) →
    list_to_map (M := gmap string Peer) templates !! tn = None →
    assign_template t templates q hq =
      Fatal ("Template " +:+ tn +:+ " not found").
Proof.
  split.
  - destruct (peer_steps rt d c h i name pd Hload Hpeer)
      as (p & p0 & p1 & tmpl & Σ0 & h0 & Σ1 & h1 & Σ2 & Hi & Htag0 & Hdec &
          He1 & _ & _ & Htm & _ & _ & Hfrom & _).
    unfold template_doc in Htm. rewrite Href in Htm.
    rewrite decide_False in Htm by done.
    destruct (list_to_map (Doc.Templates d) !! tn) as [td|]; [eauto|].
    subst tmpl. unfold merged_from in Hfrom.
    destruct Hdec as (_ & Hto & _).
    destruct (Hto _ _ Template_field_in ltac:(done) Href) as (lt & Hlt & Hv).
    simpl in Hlt. rewrite Hlt in Hfrom. destruct Hfrom as (tn' & Hv' & Hcase).
    pose proof (extends_false_lookup _ _ _ _ _ _ He1 Hv) as Hv1.
    assert (tn' = tn) as -> by congruence.
    rewrite decide_False in Hcase by done. by destruct Hcase as [[? ?] _].
  - intros t templates q hq lt Hq Hlt Hnone. unfold assign_template.
    rewrite Hq. rewrite (bind_Ok_eq _ _ _ _ _ (load_string_Ok lt hq tn Hlt)).
    rewrite decide_True by done. by rewrite Hnone.
Qed.

(** X8.  Assigning from the template copies the pointer, not the value:
    after a successful [Load], a field that the peer leaves to its
    template is the very cell of the template, so that the peers of one
    template share it. *)
Theorem template_fields_shared rt d c h i name pd tn td sf v
    (Hload : Load rt (Parsed d) = Returns (Some (c, h)) None)
    (Hpeer : Doc.Peers d !! i = Some (name, pd))
    (Href : pd !! "template" = Some (VString tn))
    (Hne : tn ≠ "")
    (Htmpl : list_to_map (M := gmap string (gmap string value))
               (Doc.Templates d) !! tn = Some td)
    (Hsf : sf ∈ Peer_type)
    (Hvis : Tag_yaml sf ≠ "-")
    (Hnt : Name sf ≠ "Template")
    (Hunset : pd !! Tag_yaml sf = None)
    (Hset : td !! Tag_yaml sf = Some v) :
  ∃ p tm l,
    Peers c !! i = Some (name, p) ∧
    list_to_map (M := gmap string Peer) (Templates c) !! tn = Some tm ∧
    p !! Name sf = Some l ∧ tm !! Name sf = Some l.
Proof.
  pose proof Peer_type_ok as Hs.
  destruct (peer_steps rt d c h i name pd Hload Hpeer)
    as (p & p0 & p1 & tmpl & Σ0 & h0 & Σ1 & h1 & Σ2 & Hi & Htag0 & Hdec &
        He1 & _ & (_ & _ & Hfields) & Htm & _ & Hoth & Hfrom & _).
  unfold template_doc in Htm. rewrite Href in Htm.
  rewrite decide_False, Htmpl in Htm by done.
  destruct Htm as (tm & -> & Htagt & Hdect).
  (* the template is the one of that name *)
  unfold merged_from in Hfrom.
  destruct Hdec as (Hfrom0 & Hto & Hkeys).
  destruct (Hto _ _ Template_field_in ltac:(done) Href) as (lt & Hlt & Hv).
  simpl in Hlt. rewrite Hlt in Hfrom. destruct Hfrom as (tn' & Hv' & Hcase).
  pose proof (extends_false_lookup _ _ _ _ _ _ He1 Hv) as Hv1.
  assert (tn' = tn) as -> by congruence.
  rewrite decide_False in Hcase by done. destruct Hcase as [_ Hlook].
  (* the field *)
  destruct (visible_not_set_by_code Peer_type sf Hs Hsf Hvis) as [Hn1 Hn2].
  specialize (Hfields sf Hsf Hn1 Hn2). simpl in Hfields.
  assert (Hnil : p0 !! Name sf = None).
  { destruct (p0 !! Name sf) as [l|] eqn:E; [|done].
    destruct (decoded_value Peer_type h0 pd p0 sf l Hs
                (conj Hfrom0 (conj Hto Hkeys)) Hsf E) as (_ & w & Hw & _).
    congruence. }
  destruct Hdect as (_ & Htot & _).
  destruct (Htot sf v Hsf Hvis Hset) as (l & Hl & _).
  rewrite Hnil in Hfields. unfold inherited in Hfields.
  rewrite decide_False in Hfields by done. simpl in Hfields.
  rewrite Hl in Hfields.
  exists p, tm, l. split; [done|]. split; [done|]. split; [|done].
  rewrite Hoth by by eapply visible_not_derived. done.
Qed.

(** X9.  The templates are returned as they were decoded: after a
    successful [Load] a field of a template is set exactly when the
    document sets its key in the template, so a template has no
    defaults, no protocol name and none of the derived lists. *)
Theorem templates_left_as_decoded rt d c h j tn td sf
    (Hload : Load rt (Parsed d) = Returns (Some (c, h)) None)
    (Htmpl : Doc.Templates d !! j = Some (tn, td))
    (Hsf : sf ∈ Peer_type) :
  ∃ tm, Templates c !! j = Some (tn, tm) ∧
    (is_Some (tm !! Name sf) ↔
     Tag_yaml sf ≠ "-" ∧ is_Some (td !! Tag_yaml sf)).
Proof.
  pose proof Peer_type_ok as Hs.
  destruct (Load_steps rt Peer_type d c h Peer_type_ok Hload)
    as (peers0 & Σ0 & h0 & peers1 & Σ1 & h1 & Σ2 &
        (_ & _ & Ht0 & _) & _).
  destruct (Forall2_lookup_l _ _ _ _ _ Ht0 Htmpl)
    as ([n tm] & Hj & Hn & _ & Hdec).
  simpl in *. subst n. exists tm. split; [done|]. split.
  - intros [l Hl].
    destruct (decoded_value Peer_type h0 td tm sf l Hs Hdec Hsf Hl)
      as (Hvis & v & Hv & _). eauto.
  - intros [Hvis Hset].
    by apply (decoded_is_Some Peer_type h0 td tm sf Hs Hdec Hsf Hvis).
Qed.

(** X16.  [Load] writes through the shared pointer: when the document
    has no origin prefixes and a peer leaves [announce-originated] to its
    template, the template of the returned configuration has
    [AnnounceOriginated] false, whatever the document sets it to. *)
Theorem template_announce_originated_forced rt d c h i name pd tn td v
    (Hload : Load rt (Parsed d) = Returns (Some (c, h)) None)
    (Hpeer : Doc.Peers d !! i = Some (name, pd))
    (Href : pd !! "template" = Some (VString tn))
    (Hne : tn ≠ "")
    (Htmpl : list_to_map (M := gmap string (gmap string value))
               (Doc.Templates d) !! tn = Some td)
    (Hunset : pd !! "announce-originated" = None)
    (Hset : td !! "announce-originated" = Some v)
    (Hempty : Doc.Prefixes d = []) :
  ∃ tm,
    list_to_map (M := gmap string Peer) (Templates c) !! tn = Some tm ∧
    deref h tm "AnnounceOriginated" = Some (VBool false).
Proof.
  pose proof Peer_type_ok as Hs.
  set (sf := field "AnnounceOriginated" reflect.Bool "announce-originated"
               "true").
  assert (Hsf : sf ∈ Peer_type) by in_Peer_type.
  destruct (peer_steps rt d c h i name pd Hload Hpeer)
    as (p & p0 & p1 & tmpl & Σ0 & h0 & Σ1 & h1 & Σ2 & Hi & Htag0 & Hdec &
        He1 & _ & (_ & _ & Hfields) & Htm & _ & Hoth & Hfrom & Hao).
  unfold template_doc in Htm. rewrite Href in Htm.
  rewrite decide_False, Htmpl in Htm by done.
  destruct Htm as (tm & -> & Htagt & Hdect).
  unfold merged_from in Hfrom.
  destruct Hdec as (Hfrom0 & Hto & Hkeys).
  destruct (Hto _ _ Template_field_in ltac:(done) Href) as (lt & Hlt & Hv).
  simpl in Hlt. rewrite Hlt in Hfrom. destruct Hfrom as (tn' & Hv' & Hcase).
  pose proof (extends_false_lookup _ _ _ _ _ _ He1 Hv) as Hv1.
  assert (tn' = tn) as -> by congruence.
  rewrite decide_False in Hcase by done. destruct Hcase as [_ Hlook].
  specialize (Hfields sf Hsf ltac:(done) ltac:(done)). simpl in Hfields.
  assert (Hnil : p0 !! "AnnounceOriginated" = None).
  { destruct (p0 !! "AnnounceOriginated") as [l|] eqn:E; [|done].
    destruct (decoded_value Peer_type h0 pd p0 sf l Hs
                (conj Hfrom0 (conj Hto Hkeys)) Hsf E) as (_ & w & Hw & _).
    simpl in Hw. congruence. }
  destruct Hdect as (_ & Htot & _).
  destruct (Htot sf v Hsf ltac:(done) Hset) as (l & Hl & _). simpl in Hl.
  rewrite Hnil in Hfields. unfold inherited in Hfields.
  rewrite decide_False in Hfields by done. simpl in Hfields.
  rewrite Hl in Hfields.
  destruct (Hao Hempty) as (l' & Hl' & Hfalse).
  assert (l' = l) as -> by congruence.
  exists tm. split; [done|]. unfold deref. by rewrite Hl.
Qed.

(** ** The steps between the two loops *)

Lemma forM_pure_Forall2 {R A B} (f : A → M R B) l h l' h' :
  (∀ a, heap_pure (f a)) → forM f l h = Ok (l', h') →
  h' = h ∧ Forall2 (λ a b, f a h = Ok (b, h)) l l'.
Proof.
  intros Hf. revert l' h'.
  induction l as [|x l IH]; intros l' h' H; simpl in H.
  { inv_M. split; [done|constructor]. }
  apply bind_Ok_inv in H as (y & h1 & Hx & H).
  apply bind_Ok_inv in H as (ys & h2 & Hl & H). inv_M.
  pose proof (Hf x _ _ _ Hx) as ->.
  destruct (IH _ _ Hl) as [-> HF]. split; [done|]. by constructor.
Qed.

(** Categorizing the SRD communities, in closed form. *)
Lemma categorize_SRD_eq cs std lrg h :
  categorize_SRD cs std lrg h =
  match list_find (λ x, categorizeCommunity x = "") cs with
  | Some (_, x) => Return (None, Some ("Invalid SRD community: " +:+ x))
  | None =>
      Ok ((std ++ filter is_standard cs,
           lrg ++ ((λ x, strings.ReplaceAll x ":" ",") <$> filter is_large cs)),
          h)
  end.
Proof.
  revert std lrg. induction cs as [|x cs IH]; intros std lrg; simpl.
  { rewrite !filter_nil. simpl. by rewrite !app_nil_r. }
  assert (H4 : is_standard x = bool_decide (categorizeCommunity x = "standard"))
    by done.
  assert (H6 : is_large x = bool_decide (categorizeCommunity x = "large"))
    by done.
  destruct (categorize_cases x) as [Hc|[Hc|Hc]].
  - rewrite (decide_True (P := categorizeCommunity x = "standard")) by done.
    rewrite decide_False by (by rewrite Hc). rewrite IH.
    destruct (list_find _ cs) as [[i y]|]; simpl; [done|].
    rewrite filter_cons_True by (rewrite H4; by apply bool_decide_pack).
    rewrite filter_cons_False
      by (rewrite H6, Hc; by intros Hx%bool_decide_unpack).
    by rewrite <- (assoc_L (++)).
  - rewrite (decide_False (P := categorizeCommunity x = "standard"))
      by (by rewrite Hc).
    rewrite (decide_True (P := categorizeCommunity x = "large")) by done.
    rewrite decide_False by (by rewrite Hc). rewrite IH.
    destruct (list_find _ cs) as [[i y]|]; simpl; [done|].
    rewrite filter_cons_False
      by (rewrite H4, Hc; by intros Hx%bool_decide_unpack).
    rewrite filter_cons_True by (rewrite H6; by apply bool_decide_pack).
    rewrite fmap_cons. by rewrite <- (assoc_L (++)).
  - rewrite (decide_False (P := categorizeCommunity x = "standard"))
      by (by rewrite Hc).
    rewrite (decide_False (P := categorizeCommunity x = "large"))
      by (by rewrite Hc).
    by rewrite decide_True by done.
Qed.

(** X10.  After a successful [Load] every SRD community of the document
    is of the standard or of the large form; the standard ones are kept
    as they are, in their order, and the large ones get their colons
    replaced by commas.  At the first community of neither form the loop
    returns nil and the error that names it. *)
Theorem SRD_communities_categorized rt d c h
    (Hload : Load rt (Parsed d) = Returns (Some (c, h)) None) :
  Forall (λ x, categorizeCommunity x ≠ "") (Doc.SRDCommunities d) ∧
  SRDStandardCommunities (Augments_ c) =
    filter is_standard (Doc.SRDCommunities d) ∧
  SRDLargeCommunities (Augments_ c) =
    (λ x, strings.ReplaceAll x ":" ",") <$>
      filter is_large (Doc.SRDCommunities d) ∧
  ∀ pre x post hq,
    Forall (λ y, categorizeCommunity y ≠ "") pre →
    categorizeCommunity x = "" →
    categorize_SRD (pre ++ x :: post) [] [] hq =
      Return (None, Some ("Invalid SRD community: " +:+ x)).
Proof.
  destruct (Load_steps rt Peer_type d c h Peer_type_ok Hload)
    as (peers0 & Σ0 & h0 & peers1 & Σ1 & h1 & Σ2 & _ & _ & _ & Hsrd & _).
  rewrite categorize_SRD_eq in Hsrd.
  destruct (list_find _ (Doc.SRDCommunities d)) as [[i y]|] eqn:Hf; [done|].
  injection Hsrd as <- <-. split_and!; [|done..|].
  - apply list_find_None in Hf. exact Hf.
  - intros pre x post hq Hpre Hx. rewrite categorize_SRD_eq.
    assert (list_find (λ y, categorizeCommunity y = "") (pre ++ x :: post)
            = Some (length pre, x)) as ->; [|done].
    apply list_find_Some. split_and!.
    + by rewrite list_lookup_middle.
    + done.
    + intros j y Hj Hlt. rewrite lookup_app_l in Hj by done.
      rewrite Forall_forall in Hpre. apply Hpre.
      by eapply list_elem_of_lookup_2.
Qed.

(** Parsing the static routes of a map (its keys are distinct): the
    routes go to the two maps by the family of the prefix. *)
Lemma parse_statics_spec rt l :
  NoDup l.*1 →
  ∀ s4 s6 h s4' s6' h',
    (∀ p, p ∈ l.*1 → s4 !! p = None ∧ s6 !! p = None) →
    parse_statics rt l s4 s6 h = Ok ((s4', s6'), h') →
    Forall (λ pn : string * string,
              is_Some (ParseCIDR rt pn.1) ∧ is_Some (ParseIP rt pn.2)) l ∧
    (∀ p nh, s4' !! p = Some nh ↔
             s4 !! p = Some nh ∨ ((p, nh) ∈ l ∧ is_v4 rt p = true)) ∧
    (∀ p nh, s6' !! p = Some nh ↔
             s6 !! p = Some nh ∨ ((p, nh) ∈ l ∧ is_v6 rt p = true)).
Proof.
  induction l as [|[x nx] l IH]; intros Hnd s4 s6 h s4' s6' h' Hfresh H;
    simpl in H.
  { inv_M. split_and!; [apply Forall_nil_2|..]; intros p nh;
      (split; [by left|]); by intros [?|[Hin%elem_of_nil _]]. }
  rewrite fmap_cons in Hnd. apply NoDup_cons in Hnd as [Hx Hnd]. simpl in Hx.
  destruct (ParseCIDR rt x) as [pfx|] eqn:Ep; [|done].
  destruct (ParseIP rt nx) as [ip|] eqn:Ei; [|done].
  assert (Hv4 : is_v4 rt x = bool_decide (is_Some (net.To4 pfx))).
  { unfold is_v4. by rewrite Ep. }
  assert (Hv6 : is_v6 rt x = bool_decide (net.To4 pfx = None)).
  { unfold is_v6. by rewrite Ep. }
  destruct (Hfresh x) as [Hx4 Hx6]; [rewrite fmap_cons; by left|].
  assert (Hfresh' : ∀ p, p ∈ l.*1 → s4 !! p = None ∧ s6 !! p = None).
  { intros p Hp. apply Hfresh. rewrite fmap_cons. by right. }
  assert (Hne : ∀ p, p ∈ l.*1 → x ≠ p) by (intros p Hp ->; done).
  assert (Hin : ∀ p nh, (p, nh) ∈ l → x ≠ p).
  { intros p nh Hp. apply Hne. apply list_elem_of_fmap. by exists (p, nh). }
  destruct (net.To4 pfx) as [ip4|] eqn:E4.
  - (* IPv4 *)
    rewrite bool_decide_eq_true_2 in Hv4 by eauto.
    rewrite bool_decide_eq_false_2 in Hv6 by done.
    destruct (IH Hnd (<[x:=nx]> s4) s6 h s4' s6' h') as (Hall & H4 & H6);
      [|done|].
    { intros p Hp. rewrite lookup_insert_ne by by apply Hne.
      by apply Hfresh'. }
    split_and!.
    + constructor; [|done]. simpl. rewrite Ep, Ei. eauto.
    + intros p nh. rewrite H4, lookup_insert. case_decide as Hxp.
      * subst p. split.
        -- intros [[= <-]|[Hp _]]; [|by destruct (Hin _ _ Hp)].
           right. split; [by left|done].
        -- intros [?|[Hp _]]; [congruence|].
           apply elem_of_cons in Hp as [[= <-]|Hp]; [by left|].
           by destruct (Hin _ _ Hp).
      * split.
        -- intros [?|[Hp ?]]; [by left|]. right. split; [by right|done].
        -- intros [?|[Hp ?]]; [by left|]. right.
           apply elem_of_cons in Hp as [[= -> ->]|Hp]; [done|]. done.
    + intros p nh. rewrite H6. split.
      * intros [?|[Hp ?]]; [by left|]. right. split; [by right|done].
      * intros [?|[Hp Hp6]]; [by left|]. right.
        apply elem_of_cons in Hp as [[= -> ->]|Hp]; [congruence|]. done.
  - (* IPv6 *)
    rewrite bool_decide_eq_false_2 in Hv4 by (by intros [? ?]).
    rewrite bool_decide_eq_true_2 in Hv6 by done.
    destruct (IH Hnd s4 (<[x:=nx]> s6) h s4' s6' h') as (Hall & H4 & H6);
      [|done|].
    { intros p Hp. rewrite lookup_insert_ne by by apply Hne.
      by apply Hfresh'. }
    split_and!.
    + constructor; [|done]. simpl. rewrite Ep, Ei. eauto.
    + intros p nh. rewrite H4. split.
      * intros [?|[Hp ?]]; [by left|]. right. split; [by right|done].
      * intros [?|[Hp Hp4]]; [by left|]. right.
        apply elem_of_cons in Hp as [[= -> ->]|Hp]; [congruence|]. done.
    + intros p nh. rewrite H6, lookup_insert. case_decide as Hxp.
      * subst p. split.
        -- intros [[= <-]|[Hp _]]; [|by destruct (Hin _ _ Hp)].
           right. split; [by left|done].
        -- intros [?|[Hp _]]; [congruence|].
           apply elem_of_cons in Hp as [[= <-]|Hp]; [by left|].
           by destruct (Hin _ _ Hp).
      * split.
        -- intros [?|[Hp ?]]; [by left|]. right. split; [by right|done].
        -- intros [?|[Hp ?]]; [by left|]. right.
           apply elem_of_cons in Hp as [[= -> ->]|Hp]; [done|]. done.
Qed.

(** X11.  After a successful [Load] of a document whose static routes
    have distinct prefixes (they are the keys of a map), every static
    prefix parses and every next hop is an address, and the two maps of
    static routes hold the routes of the document by the family of their
    prefix: the IPv4 map those with a 4-byte form, the IPv6 map the
    others. *)
Theorem statics_by_family rt d c h
    (Hload : Load rt (Parsed d) = Returns (Some (c, h)) None)
    (Hkeys : NoDup (Doc.Statics d).*1) :
  Forall (λ pn : string * string,
            is_Some (ParseCIDR rt pn.1) ∧ is_Some (ParseIP rt pn.2))
    (Doc.Statics d) ∧
  (∀ p nh, Statics4 (Augments_ c) !! p = Some nh ↔
           (p, nh) ∈ Doc.Statics d ∧ is_v4 rt p = true) ∧
  (∀ p nh, Statics6 (Augments_ c) !! p = Some nh ↔
           (p, nh) ∈ Doc.Statics d ∧ is_v6 rt p = true).
Proof.
  destruct (Load_steps rt Peer_type d c h Peer_type_ok Hload)
    as (peers0 & Σ0 & h0 & peers1 & Σ1 & h1 & Σ2 & _ & _ & _ & _ & Hst & _).
  destruct (parse_statics_spec rt (Doc.Statics d) Hkeys ∅ ∅ h1
              (Statics4 (Augments_ c)) (Statics6 (Augments_ c)) h1)
    as (Hall & H4 & H6); [|exact Hst|].
  { intros p _. by rewrite !lookup_empty. }
  split_and!; [done|..]; intros p nh.
  - rewrite H4, lookup_empty. split; [by intros [?|?]|by right].
  - rewrite H6, lookup_empty. split; [by intros [?|?]|by right].
Qed.

(** X12.  After a successful [Load] every BFD instance of the document
    has a neighbor that is an address, and gets the sanitized name of the
    instance as its protocol name.  An instance without a neighbor makes
    the loop panic with a nil dereference, and one whose neighbor is no
    address makes it return nil and an error. *)
Theorem BFD_instances_checked rt d c h
    (Hload : Load rt (Parsed d) = Returns (Some (c, h)) None) :
  Forall2 (λ nb nb' : string * BFDInstance,
             nb'.1 = nb.1 ∧
             ∃ neighbor,
               Neighbor nb.2 = Some neighbor ∧
               is_Some (ParseIP rt neighbor) ∧
               Neighbor nb'.2 = Some neighbor ∧
               BFD_ProtocolName nb'.2 = Some (Sanitize rt nb.1))
    (Doc.BFDInstances d) (BFDInstances c) ∧
  (∀ n b hq, Neighbor b = None →
     parse_BFD rt (n, b) hq = Panic nil_dereference) ∧
  (∀ n b neighbor hq,
     Neighbor b = Some neighbor → ParseIP rt neighbor = None →
     parse_BFD rt (n, b) hq =
       Return (None, Some ("invalid BFD neighbor " +:+ neighbor))).
Proof.
  destruct (Load_steps rt Peer_type d c h Peer_type_ok Hload)
    as (peers0 & Σ0 & h0 & peers1 & Σ1 & h1 & Σ2 & _ & _ & _ & _ & _ &
        Hbfd & _).
  split_and!.
  - apply (forM_pure_Forall2 _ _ _ _ _ (pure_parse_BFD rt)) in Hbfd as [_ HF].
    eapply Forall2_impl; [exact HF|].
    intros [n b] [n' b'] H. unfold parse_BFD in H. simpl.
    destruct (Neighbor b) as [neighbor|] eqn:En; [|done].
    destruct (ParseIP rt neighbor) as [ip|] eqn:Ei; [|done].
    injection H as <- <-. split; [done|]. exists neighbor. simpl.
    rewrite Ei. eauto.
  - intros n b hq Hn. unfold parse_BFD. by rewrite Hn.
  - intros n b neighbor hq Hn Hi. unfold parse_BFD. by rewrite Hn, Hi.
Qed.

Lemma first_not_parsed rt pre x post :
  Forall (λ y, is_Some (ParseCIDR rt y)) pre → ParseCIDR rt x = None →
  list_find (λ y, ParseCIDR rt y = None) (pre ++ x :: post)
  = Some (length pre, x).
Proof.
  intros Hpre Hx. apply list_find_Some. split_and!.
  - by rewrite list_lookup_middle.
  - done.
  - intros j y Hj Hlt. rewrite lookup_app_l in Hj by done.
    rewrite Forall_forall in Hpre.
    destruct (Hpre y) as [pfx Hy]; [by eapply list_elem_of_lookup_2|].
    by rewrite Hy.
Qed.

(** X13.  After a successful [Load] every VRRP instance of the document
    has the state "primary" or "backup", which has become "MASTER" or
    "BACKUP", its virtual addresses all parse, and they are appended to
    the two lists of the instance by family, in their order.  A virtual
    address that does not parse is reported before the state is looked
    at; any other state makes the loop return nil and an error. *)
Theorem VRRP_instances_resolved rt d c h
    (Hload : Load rt (Parsed d) = Returns (Some (c, h)) None) :
  Forall2 (λ nv nv' : string * VRRPInstance,
             nv'.1 = nv.1 ∧ VIPs nv'.2 = VIPs nv.2 ∧
             Forall (λ x, is_Some (ParseCIDR rt x)) (VIPs nv.2) ∧
             VIPs4 nv'.2 = VIPs4 nv.2 ++ filter (is_v4 rt) (VIPs nv.2) ∧
             VIPs6 nv'.2 = VIPs6 nv.2 ++ filter (is_v6 rt) (VIPs nv.2) ∧
             ((State nv.2 = "primary" ∧ State nv'.2 = "MASTER") ∨
              (State nv.2 = "backup" ∧ State nv'.2 = "BACKUP")))
    (Doc.VRRPInstances d) (VRRPInstances c) ∧
  (∀ n v hq,
     Forall (λ x, is_Some (ParseCIDR rt x)) (VIPs v) →
     State v ≠ "primary" → State v ≠ "backup" →
     parse_VRRP rt (n, v) hq =
       Return (None, Some ("VRRP state must be 'primary' or 'backup', unexpected "
                           +:+ State v))) ∧
  (∀ n v pre x post hq,
     VIPs v = pre ++ x :: post →
     Forall (λ y, is_Some (ParseCIDR rt y)) pre → ParseCIDR rt x = None →
     parse_VRRP rt (n, v) hq = Return (None, Some ("Invalid VIP: " +:+ x))).
Proof.
  destruct (Load_steps rt Peer_type d c h Peer_type_ok Hload)
    as (peers0 & Σ0 & h0 & peers1 & Σ1 & h1 & Σ2 & _ & _ & _ & _ & _ &
        _ & Hvrrp & _).
  split_and!.
  - apply (forM_pure_Forall2 _ _ _ _ _ (pure_parse_VRRP rt)) in Hvrrp as [_ HF].
    eapply Forall2_impl; [exact HF|].
    intros [n v] [n' v'] H. unfold parse_VRRP in H. simpl.
    apply bind_Ok_inv in H as ([v4 v6] & hx & Hfam & H).
    apply by_family_Ok in Hfam as (-> & Hall & -> & ->).
    apply bind_Ok_inv in H as (state & hy & Hstate & H).
    injection H as <- <- _. simpl.
    split_and!; [done..|].
    destruct (decide (State v = "primary")) as [Hp|Hp].
    { injection Hstate as <- _. by left. }
    destruct (decide (State v = "backup")) as [Hb|Hb]; [|done].
    injection Hstate as <- _. by right.
  - intros n v hq Hall Hp Hb. unfold parse_VRRP, bind.
    rewrite by_family_eq.
    destruct (list_find _ (VIPs v)) as [[i x]|] eqn:Hf.
    { apply list_find_Some in Hf as (Hi & Hx & _).
      rewrite Forall_forall in Hall.
      destruct (Hall x) as [pfx Hpfx]; [by eapply list_elem_of_lookup_2|].
      congruence. }
    by rewrite !decide_False by done.
  - intros n v pre x post hq Hv Hpre Hx. unfold parse_VRRP, bind.
    rewrite Hv, by_family_eq. by rewrite (first_not_parsed rt pre x post).
Qed.

(** No component of a split has the separator. *)
Lemma Split_no_sep s sep part :
  part ∈ strings.Split s sep → strings.contains part sep = false.
Proof.
  revert part. induction s as [|c s IH]; intros part; simpl.
  { intros Hp. apply elem_of_cons in Hp as [->|Hp]; [done|by apply elem_of_nil in Hp]. }
  destruct (Ascii.eqb c sep) eqn:Ec.
  - intros Hp. apply elem_of_cons in Hp as [->|Hp]; [done|by apply IH].
  - destruct (strings.Split s sep) as [|x xs] eqn:Es.
    { by destruct (Split_not_nil s sep). }
    intros Hp. apply elem_of_cons in Hp as [->|Hp].
    + simpl. rewrite Ec. simpl. apply IH. by left.
    + apply IH. by right.
Qed.

(** X14.  After a successful [Load]: when the document has an RTR server
    it is of the form host:port with one colon, the host of the
    configuration is the part before the colon and the port is the
    number that the part after the colon parses to; when the document
    has none, the host is empty and the port is 0. *)
Theorem RTR_server_split rt d c h
    (Hload : Load rt (Parsed d) = Returns (Some (c, h)) None) :
  RTRServer c = Doc.RTRServer d ∧
  (Doc.RTRServer d = "" → RTRServerHost c = "" ∧ RTRServerPort c = 0) ∧
  (Doc.RTRServer d ≠ "" →
   ∃ port,
     Doc.RTRServer d = RTRServerHost c +:+ ":" +:+ port ∧
     strconv.Atoi port = Some (RTRServerPort c) ∧
     strings.contains (RTRServerHost c) ":" = false ∧
     strings.contains port ":" = false).
Proof.
  destruct (Load_steps rt Peer_type d c h Peer_type_ok Hload)
    as (peers0 & Σ0 & h0 & peers1 & Σ1 & h1 & Σ2 & _ & _ & _ & _ & _ &
        _ & _ & Hrtr & Hsame & _).
  split; [done|]. unfold parse_RTR in Hrtr.
  destruct (decide (Doc.RTRServer d ≠ "")) as [Hne|He].
  2:{ injection Hrtr as <- <-. split; [done|]. intros ?. done. }
  split; [done|]. intros _.
  destruct (decide (length (strings.Split (Doc.RTRServer d) ":") ≠ 2%nat))
    as [|Hlen]; [done|].
  assert (Hlen' : length (strings.Split (Doc.RTRServer d) ":") = 2%nat)
    by lia.
  destruct (strings.Split (Doc.RTRServer d) ":") as [|host [|port [|]]] eqn:Es;
    try done.
  simpl in Hrtr.
  destruct (strconv.Atoi port) as [n|] eqn:Ea; [|done].
  injection Hrtr as <- <-. exists port.
  pose proof (Join_Split (Doc.RTRServer d) ":") as Hjoin.
  rewrite Es in Hjoin. simpl in Hjoin.
  split; [done|]. split; [done|].
  split.
  - destruct (strings.contains host ":") eqn:Ec; [|done].
    pose proof (Split_no_sep (Doc.RTRServer d) ":" host) as H.
    rewrite Es in H. rewrite H in Ec; [done|by left].
  - destruct (strings.contains port ":") eqn:Ec; [|done].
    pose proof (Split_no_sep (Doc.RTRServer d) ":" port) as H.
    rewrite Es in H. rewrite H in Ec; [done|]. right. by left.
Qed.

(** ** The names in the generated documentation *)

Example sanitizeConfigName_pointer :
  sanitizeConfigName "map[string]*config.Peer" = "map[string]Peer".
Proof. reflexivity. Qed.

Example sanitizeConfigName_once :
  sanitizeConfigName "conconfig.fig.Peer" = "config.Peer".
Proof. reflexivity. Qed.

Lemma contains_elem s c :
  strings.contains s c = true ↔ c ∈ String.list_ascii_of_string s.
Proof.
  induction s as [|d s IH]; simpl.
  - split; [done|]. by intros ?%elem_of_nil.
  - rewrite orb_true_iff, IH, elem_of_cons, Ascii.eqb_eq. naive_solver.
Qed.

(** Deleting the instances of a string only deletes bytes. *)
Lemma replace_from_sublist old s :
  ∀ skip,
    String.list_ascii_of_string (replace_from skip old "" s)
    `sublist_of` String.list_ascii_of_string s.
Proof.
  induction s as [|c s IH]; intros skip; [done|].
  cbn [replace_from]. destruct skip as [|k].
  - destruct (String.prefix old (String c s)).
    + change (String.list_ascii_of_string (String c s))
        with (c :: String.list_ascii_of_string s).
      apply sublist_cons. apply IH.
    + change (String.list_ascii_of_string (String c s))
        with (c :: String.list_ascii_of_string s).
      change (String.list_ascii_of_string (String c (replace_from 0 old "" s)))
        with (c :: String.list_ascii_of_string (replace_from 0 old "" s)).
      apply sublist_skip. apply IH.
  - change (String.list_ascii_of_string (String c s))
      with (c :: String.list_ascii_of_string s).
    apply sublist_cons. apply IH.
Qed.

(** Deleting the instances of one byte leaves none. *)
Lemma replace_from_byte c s :
  strings.contains (replace_from 0 (String c "") "" s) c = false.
Proof.
  induction s as [|d s IH]; [done|].
  cbn [replace_from String.prefix String.length].
  destruct (ascii_dec c d) as [->|Hne].
  - assert (String.prefix "" s = true) as -> by by destruct s.
    simpl. exact IH.
  - simpl. rewrite IH, orb_false_r. apply Ascii.eqb_neq. congruence.
Qed.

(** X15.  [sanitizeConfigName] only deletes bytes of the name, and its
    result has no asterisk. *)
Theorem sanitizeConfigName_spec s :
  strings.contains (sanitizeConfigName s) "*" = false ∧
  String.list_ascii_of_string (sanitizeConfigName s)
  `sublist_of` String.list_ascii_of_string s.
Proof.
  unfold sanitizeConfigName, ReplaceAll_string. split.
  - destruct (strings.contains _ "*") eqn:E; [|done].
    apply contains_elem in E.
    eapply elem_of_sublist in E; [|apply replace_from_sublist].
    apply contains_elem in E. by rewrite replace_from_byte in E.
  - etrans; apply replace_from_sublist.
Qed.

(** ** The fatal errors *)

Lemma bind_Fatal_inv {R A B} (m : M R A) (k : A → M R B) h msg :
  bind m k h = Fatal msg →
  m h = Fatal msg ∨ ∃ a h1, m h = Ok (a, h1) ∧ k a h1 = Fatal msg.
Proof.
  unfold bind. destruct (m h) as [[a h1]| | |] eqn:E; try done.
  - intros H. right. by exists a, h1.
  - intros [= ->]. by left.
Qed.

Section fatal_only.
Context (S : string → Prop).

Lemma fatal_bind {A B} (m : M LoadResult A) (k : A → M LoadResult B) :
  fatal_only S m → (∀ a, fatal_only S (k a)) → fatal_only S (bind m k).
Proof.
  intros Hm Hk h msg H. apply bind_Fatal_inv in H as [H|(a & h1 & _ & H)].
  - by eapply Hm.
  - by eapply Hk.
Qed.

Lemma fatal_ret {A} (a : A) : fatal_only S (ret a).
Proof. by intros h msg. Qed.
Lemma fatal_panic {A} msg : fatal_only S (panic (A := A) msg).
Proof. by intros h r. Qed.
Lemma fatal_return {A} r : fatal_only S (return_ (A := A) r).
Proof. by intros h msg. Qed.
Lemma fatal_fatal {A} msg : S msg → fatal_only S (fatal (A := A) msg).
Proof. by intros HS h r [= <-]. Qed.
Lemma fatal_new v : fatal_only S (new v).
Proof. by intros h r. Qed.
Lemma fatal_load l : fatal_only S (load l).
Proof. intros h r. unfold load. by destruct (h !! l). Qed.
Lemma fatal_store l v : fatal_only S (store l v).
Proof. intros h r. unfold store. by case_decide. Qed.
Lemma fatal_load_string l : fatal_only S (load_string l).
Proof.
  apply fatal_bind; [apply fatal_load|]. intros [].
  all: first [apply fatal_ret|apply fatal_panic].
Qed.
Lemma fatal_load_bool l : fatal_only S (load_bool l).
Proof.
  apply fatal_bind; [apply fatal_load|]. intros [].
  all: first [apply fatal_ret|apply fatal_panic].
Qed.
Lemma fatal_load_slice l : fatal_only S (load_slice l).
Proof.
  apply fatal_bind; [apply fatal_load|]. intros [].
  all: first [apply fatal_ret|apply fatal_panic].
Qed.

Lemma fatal_iterM {A} (f : A → M LoadResult unit) l :
  (∀ a, fatal_only S (f a)) → fatal_only S (iterM f l).
Proof.
  intros Hf. induction l as [|x l IH]; simpl; [apply fatal_ret|].
  apply fatal_bind; [done|]. by intros _.
Qed.

Lemma fatal_forM {A B} (f : A → M LoadResult B) l :
  (∀ a, fatal_only S (f a)) → fatal_only S (forM f l).
Proof.
  intros Hf. induction l as [|x l IH]; simpl; [apply fatal_ret|].
  apply fatal_bind; [done|]. intros y.
  apply fatal_bind; [done|]. intros ys. apply fatal_ret.
Qed.

Lemma fatal_foldM {A St} (f : St → A → M LoadResult St) l :
  (∀ s a, a ∈ l → fatal_only S (f s a)) → ∀ s, fatal_only S (foldM f l s).
Proof.
  induction l as [|x l IH]; intros Hf s; simpl; [apply fatal_ret|].
  apply fatal_bind; [apply Hf; by left|]. intros s'. apply IH.
  intros s0 a Ha. apply Hf. by right.
Qed.

End fatal_only.

Ltac no_fatal :=
  repeat first
    [ apply fatal_ret | apply fatal_panic | apply fatal_return
    | apply fatal_new | apply fatal_store | apply fatal_load_string
    | apply fatal_load_bool | apply fatal_load_slice
    | apply fatal_bind; [|intros ?]
    | match goal with
      | |- fatal_only _ (match ?x with _ => _ end) => destruct x
      end ].

Lemma set_default_not_Fatal sf (p : Peer) h msg :
  sf ∈ Peer_type → set_default p sf h ≠ Fatal msg.
Proof.
  intros Hsf.
  pose proof (schema_defaults _ Peer_type_ok) as Hall.
  rewrite Forall_forall in Hall. specialize (Hall sf Hsf).
  unfold default_ok in Hall. apply andb_prop in Hall as [Hne Hall].
  apply bool_decide_eq_true in Hne.
  unfold set_default. rewrite decide_False by done.
  destruct (decide (Tag_default sf ≠ "-")) as [Hd|Hd]; [|done].
  rewrite (bool_decide_eq_false_2 (Tag_default sf = "-")) in Hall by done.
  simpl in Hall.
  destruct (p !! Name sf) as [l|].
  { destruct (decide (Elem_Kind sf = reflect.Bool)); [|done].
    destruct (p !! "BooleanOptions") as [lb|]; [|done].
    intros H. eapply (fatal_bind (λ _, False)) in H; [done| |intros ?].
    - apply fatal_load_slice.
    - apply fatal_bind; [apply fatal_store|]. intros ?. apply fatal_ret. }
  destruct (Elem_Kind sf); try done.
  - apply bool_decide_eq_true in Hall as [n ->]. done.
  - apply bool_decide_eq_true in Hall as [b ->]. done.
Qed.

(** X17.  The fields of [Peer] all have a default tag that the
    defaulting can apply: a round of the defaulting loop on a field of
    [Peer] never ends in a fatal error, whatever the peer and the
    store. *)
Theorem defaulting_never_fatal sf (p : Peer) h
    (Hsf : sf ∈ Peer_type) :
  match set_default p sf h with
  | Fatal _ => False
  | _ => True
  end.
Proof.
  destruct (set_default p sf h) as [| |msg|] eqn:E; try done.
  by apply set_default_not_Fatal in E.
Qed.

(** The prefix of a string that starts with it. *)
Lemma prefix_append s t : String.prefix s (s +:+ t) = true.
Proof.
  induction s as [|c s IH]; simpl; [by destruct t|].
  by destruct (ascii_dec c c).
Qed.

Lemma fatal_check_template nt : fatal_only load_fatal (check_template nt).
Proof.
  unfold check_template. destruct nt as [n p].
  destruct (p !! "Template"); [|apply fatal_ret].
  apply fatal_bind; [apply fatal_load_string|]. intros s.
  case_decide; [|apply fatal_ret]. apply fatal_fatal. left. by exists n.
Qed.

Lemma fatal_resolve_peer rt templates st :
  fatal_only load_fatal (resolve_peer rt Peer_type templates st).
Proof.
  unfold resolve_peer. destruct st as [[n p] q].
  apply fatal_bind; [apply fatal_new|]. intros l.
  apply fatal_bind.
  { destruct (_ !! "NeighborIPs").
    - apply fatal_bind; [apply fatal_load_slice|]. intros ips.
      case_decide; [|apply fatal_ret].
      apply fatal_fatal. right; right; left. by exists n.
    - apply fatal_fatal. right; right; left. by exists n. }
  intros _. apply fatal_bind; [apply fatal_new|]. intros lb.
  apply fatal_bind.
  { unfold assign_template. destruct (_ !! "Template"); [|apply fatal_ret].
    apply fatal_bind; [apply fatal_load_string|]. intros name.
    case_decide; [|apply fatal_ret].
    destruct (list_to_map templates !! name); [apply fatal_ret|].
    apply fatal_fatal. right; right; right; left. by exists name. }
  intros pc. apply fatal_bind; [|intros ?; apply fatal_ret].
  apply fatal_foldM. intros s sf Hsf h msg H.
  by apply set_default_not_Fatal in H.
Qed.

Lemma fatal_peers_loop rt templates peers q :
  fatal_only load_fatal (peers_loop rt Peer_type templates peers q).
Proof.
  revert q. induction peers as [|[n p] peers IH]; intros q; simpl.
  { apply fatal_ret. }
  apply fatal_bind; [apply fatal_resolve_peer|]. intros [[n1 p1] q1].
  apply fatal_bind; [apply IH|]. intros [rest q2]. apply fatal_ret.
Qed.

Lemma fatal_by_family S rt what ps v4 v6 :
  fatal_only S (by_family rt what ps v4 v6).
Proof.
  intros h msg. rewrite by_family_eq. by destruct (list_find _ ps) as [[? ?]|].
Qed.

Lemma fatal_categorize_SRD S cs std lrg :
  fatal_only S (categorize_SRD cs std lrg).
Proof.
  intros h msg. rewrite categorize_SRD_eq.
  by destruct (list_find _ cs) as [[? ?]|].
Qed.

Lemma fatal_parse_statics S rt statics s4 s6 :
  fatal_only S (parse_statics rt statics s4 s6).
Proof.
  revert s4 s6. induction statics as [|[x nh] l IH]; intros s4 s6; simpl.
  - apply fatal_ret.
  - destruct (ParseCIDR rt x) as [pfx|]; [|apply fatal_return].
    destruct (ParseIP rt nh); [|apply fatal_return].
    destruct (net.To4 pfx); apply IH.
Qed.

Lemma fatal_parse_BFD S rt nb : fatal_only S (parse_BFD rt nb).
Proof. unfold parse_BFD. destruct nb as [n b]. no_fatal. Qed.

Lemma fatal_parse_VRRP S rt nv : fatal_only S (parse_VRRP rt nv).
Proof.
  unfold parse_VRRP. destruct nv as [n v].
  apply fatal_bind; [apply fatal_by_family|]. intros [v4 v6].
  apply fatal_bind; [|intros; apply fatal_ret].
  repeat case_decide; no_fatal.
Qed.

Lemma fatal_parse_RTR s : fatal_only load_fatal (parse_RTR s).
Proof.
  unfold parse_RTR. case_decide; [|apply fatal_ret].
  case_decide.
  - apply fatal_fatal. do 4 right. left. apply prefix_append.
  - destruct (strconv.Atoi _); [apply fatal_ret|].
    apply fatal_fatal. do 5 right. apply prefix_append.
Qed.

Lemma fatal_finish_peer S rt prefixes np :
  fatal_only S (finish_peer rt prefixes np).
Proof.
  assert (Happ : ∀ f p x, fatal_only S (append_to f p x)).
  { intros f p x. unfold append_to. no_fatal. }
  assert (Hcat : ∀ what src std lrg p,
            fatal_only S (categorize_field what src std lrg p)).
  { intros what src std lrg p. unfold categorize_field.
    destruct (p !! src); [|apply fatal_ret].
    apply fatal_bind; [apply fatal_load_slice|]. intros cs.
    apply fatal_foldM. intros s x _. unfold add_community.
    repeat case_decide; first [apply Happ|apply fatal_return]. }
  unfold finish_peer. destruct np as [n p].
  apply fatal_bind.
  { destruct (p !! "Prefixes"); [|apply fatal_ret].
    apply fatal_bind; [apply fatal_load_slice|]. intros ps.
    apply fatal_foldM. intros s x _. unfold add_prefix. no_fatal. }
  intros p0. repeat (apply fatal_bind; [apply Hcat|intros ?]).
  apply fatal_bind; [|intros; apply fatal_ret].
  unfold check_originated. no_fatal.
Qed.

(** X18.  When [Load] ends the process on a document, it is with one of
    six fatal errors: a template that names a template, no hostname, a
    peer without neighbors, a template that is not found, or an RTR
    server that is not of the form host:port or whose port is no number.
    The fatal errors of the defaulting (a field without a default tag, a
    default that does not parse, a field of an unknown kind) do not
    occur. *)
Theorem Load_fatal_errors rt d msg
    (Hexit : Load rt (Parsed d) = Exits msg) :
  load_fatal msg.
Proof.
  unfold Load, Load_with in Hexit.
  destruct (Unmarshal_total Peer_type d [])
    as [([peers templates] & h0 & Hu)|[e Hu]]; rewrite Hu in Hexit; [|done].
  destruct (validate_Struct rt d); [done|].
  assert (HF : fatal_only load_fatal (resolve rt Peer_type d peers templates));
    [|destruct (resolve rt Peer_type d peers templates h0)
        as [[[] ?]|[c e]|msg'|] eqn:Hr; simpl in Hexit; try done;
      injection Hexit as <-; exact (HF h0 msg' Hr)].
  unfold resolve.
  apply fatal_bind; [apply fatal_iterM, fatal_check_template|]. intros _.
  apply fatal_bind.
  { case_decide; [|apply fatal_ret].
    destruct (os_Hostname rt) as [name|err]; [apply fatal_ret|].
    apply fatal_fatal. right; left. by exists err. }
  intros hostname.
  apply fatal_bind; [apply fatal_peers_loop|]. intros [peers1 q].
  apply fatal_bind; [apply fatal_by_family|]. intros [p4 p6].
  apply fatal_bind; [apply fatal_categorize_SRD|]. intros [s1 s2].
  apply fatal_bind; [apply fatal_parse_statics|]. intros [st4 st6].
  apply fatal_bind; [apply fatal_forM, fatal_parse_BFD|]. intros bfd.
  apply fatal_bind; [apply fatal_forM, fatal_parse_VRRP|]. intros vrrp.
  apply fatal_bind; [apply fatal_parse_RTR|]. intros [host port].
  apply fatal_bind; [apply fatal_forM, fatal_finish_peer|]. intros peers2.
  by intros h m.
Qed.

(** ** More runs of [Load] *)

Lemma router_loads :
  ∃ c h pa pb,
    Load Demo.rt (Parsed Site.router) = Returns (Some (c, h)) None ∧
    Peers c = [("a", pa); ("b", pb)].
Proof.
  destruct (loads_with_true Site.router (Demo.on_a_b (λ _ _ _, true)))
    as (c & h & E & Ht); [vm_compute; reflexivity|].
  apply on_a_b_true in Ht as (pa & pb & Hps & _).
  exists c, h, pa, pb. exact (conj E Hps).
Qed.

Lemma policy_peer_a : Doc.Peers Demo.policy !! 0%nat = Some ("a", Demo.peer_a).
Proof. reflexivity. Qed.

Lemma policy_peer_b : Doc.Peers Demo.policy !! 1%nat = Some ("b", Demo.peer_b).
Proof. reflexivity. Qed.

Lemma hostname_resolved_witness :
  ∃ c h,
    Load Demo.rt (Parsed Site.router) = Returns (Some (c, h)) None ∧
    Hostname c = "router".
Proof.
  destruct router_loads as (c & h & pa & pb & E & _).
  exists c, h. split; [exact E|].
  destruct (hostname_resolved Demo.rt Site.router c h E) as [_ H].
  specialize (H eq_refl). simpl in H. by injection H.
Defined.

Lemma Load_keeps_names_witness :
  ∃ c h,
    Load Demo.rt (Parsed Site.router) = Returns (Some (c, h)) None ∧
    (Peers c).*1 = ["a"; "b"] ∧ (Templates c).*1 = ["t"].
Proof.
  destruct router_loads as (c & h & pa & pb & E & _).
  exists c, h. split; [exact E|].
  exact (Load_keeps_names Demo.rt Site.router c h E).
Defined.

Lemma protocol_name_sanitized_witness :
  ∃ c h p,
    Load Demo.rt (Parsed Demo.policy) = Returns (Some (c, h)) None ∧
    Peers c !! 0%nat = Some ("a", p) ∧
    deref h p "ProtocolName" = Some (VString "a").
Proof.
  destruct policy_loads as (c & h & pa & pb & E & _).
  destruct (protocol_name_sanitized Demo.rt Demo.policy c h 0 "a" Demo.peer_a
              E policy_peer_a) as (p & Hp & Hn).
  exists c, h, p. exact (conj E (conj Hp Hn)).
Defined.

(** Peer [a] sets [announce-originated], and its template sets it too:
    it is listed once.  The options that only have their default are not
    listed. *)
Lemma boolean_options_listed_witness :
  ∃ c h p,
    Load Demo.rt (Parsed Demo.policy) = Returns (Some (c, h)) None ∧
    Peers c !! 0%nat = Some ("a", p) ∧
    deref h p "BooleanOptions" = Some (VSlice ["announce-originated"]).
Proof.
  destruct policy_loads as (c & h & pa & pb & E & _).
  destruct (boolean_options_listed Demo.rt Demo.policy c h 0 "a" Demo.peer_a
              E policy_peer_a) as (p & Hp & Hb).
  exists c, h, p. split; [exact E|]. split; [exact Hp|].
  rewrite Hb. vm_compute. reflexivity.
Defined.

Lemma default_value_applied_witness :
  ∃ c h p,
    Load Demo.rt (Parsed Demo.policy) = Returns (Some (c, h)) None ∧
    Peers c !! 1%nat = Some ("b", p) ∧
    deref h p "LocalPref" = Some (VInt 100).
Proof.
  destruct policy_loads as (c & h & pa & pb & E & _).
  destruct (default_value_applied Demo.rt Demo.policy c h 1 "b" Demo.peer_b
              (field "LocalPref" reflect.Int "local-pref" "100")
              E policy_peer_b)
    as (p & v & Hp & Hv & Hd);
    [in_Peer_type|discriminate|vm_compute; reflexivity|discriminate|].
  exists c, h, p. split; [exact E|]. split; [exact Hp|].
  vm_compute in Hv. injection Hv as <-. exact Hd.
Defined.

Lemma unset_field_stays_nil_witness :
  ∃ c h p,
    Load Demo.rt (Parsed Demo.policy) = Returns (Some (c, h)) None ∧
    Peers c !! 1%nat = Some ("b", p) ∧
    deref h p "Description" = None.
Proof.
  destruct policy_loads as (c & h & pa & pb & E & _).
  destruct (unset_field_stays_nil Demo.rt Demo.policy c h 1 "b" Demo.peer_b
              (field "Description" reflect.String "description" "-")
              E policy_peer_b)
    as (p & Hp & Hnil);
    [in_Peer_type|discriminate|reflexivity|vm_compute; reflexivity|].
  exists c, h, p. split; [exact E|]. split; [exact Hp|].
  unfold deref. simpl in Hnil. by rewrite Hnil.
Defined.

Lemma unknown_template_rejected_witness :
  is_Some (list_to_map (M := gmap string (gmap string value))
             (Doc.Templates Demo.policy) !! "t").
Proof.
  destruct policy_loads as (c & h & pa & pb & E & _).
  apply (unknown_template_rejected Demo.rt Demo.policy c h 0 "a" Demo.peer_a
           "t" E policy_peer_a); [vm_compute; reflexivity|discriminate].
Defined.

Lemma template_fields_shared_witness :
  ∃ c h p tm l,
    Load Demo.rt (Parsed Demo.policy) = Returns (Some (c, h)) None ∧
    Peers c !! 0%nat = Some ("a", p) ∧
    list_to_map (M := gmap string Peer) (Templates c) !! "t" = Some tm ∧
    p !! "LocalPref" = Some l ∧ tm !! "LocalPref" = Some l.
Proof.
  destruct policy_loads as (c & h & pa & pb & E & _).
  destruct (template_fields_shared Demo.rt Demo.policy c h 0 "a" Demo.peer_a
              "t" Demo.template_t
              (field "LocalPref" reflect.Int "local-pref" "100") (VInt 50)
              E policy_peer_a)
    as (p & tm & l & H);
    [vm_compute; reflexivity|discriminate|reflexivity|in_Peer_type|
     discriminate|discriminate|vm_compute; reflexivity|
     vm_compute; reflexivity|].
  exists c, h, p, tm, l. exact (conj E H).
Defined.

Lemma templates_left_as_decoded_witness :
  ∃ c h tm,
    Load Demo.rt (Parsed Demo.policy) = Returns (Some (c, h)) None ∧
    Templates c !! 0%nat = Some ("t", tm) ∧
    tm !! "ProtocolName" = None ∧ tm !! "FilterRPKI" = None ∧
    is_Some (tm !! "LocalPref").
Proof.
  destruct policy_loads as (c & h & pa & pb & E & _).
  assert (Ht : Doc.Templates Demo.policy !! 0%nat = Some ("t", Demo.template_t))
    by reflexivity.
  destruct (templates_left_as_decoded Demo.rt Demo.policy c h 0 "t"
              Demo.template_t (field "ProtocolName" reflect.String "-" "-")
              E Ht) as (tm & Htm & H1); [in_Peer_type|].
  destruct (templates_left_as_decoded Demo.rt Demo.policy c h 0 "t"
              Demo.template_t
              (field "FilterRPKI" reflect.Bool "filter-rpki" "true")
              E Ht) as (tm2 & Htm2 & H2); [in_Peer_type|].
  destruct (templates_left_as_decoded Demo.rt Demo.policy c h 0 "t"
              Demo.template_t
              (field "LocalPref" reflect.Int "local-pref" "100")
              E Ht) as (tm3 & Htm3 & H3); [in_Peer_type|].
  assert (tm2 = tm) as -> by congruence.
  assert (tm3 = tm) as -> by congruence.
  exists c, h, tm. split; [exact E|]. split; [exact Htm|].
  split; [|split].
  - destruct (tm !! "ProtocolName") as [l|] eqn:Ef; [|reflexivity].
    destruct (proj1 H1 (ex_intro _ l Ef)) as [Hvis _]. by destruct Hvis.
  - destruct (tm !! "FilterRPKI") as [l|] eqn:Ef; [|reflexivity].
    destruct (proj1 H2 (ex_intro _ l Ef)) as [_ [v Hv]].
    vm_compute in Hv. discriminate Hv.
  - apply (proj2 H3). split; [discriminate|]. vm_compute. by eexists.
Defined.

Lemma SRD_communities_categorized_witness :
  ∃ c h,
    Load Demo.rt (Parsed Site.router) = Returns (Some (c, h)) None ∧
    SRDStandardCommunities (Augments_ c) = ["65000,1"] ∧
    SRDLargeCommunities (Augments_ c) = ["65000,1,2"].
Proof.
  destruct router_loads as (c & h & pa & pb & E & _).
  exists c, h. split; [exact E|].
  destruct (SRD_communities_categorized Demo.rt Site.router c h E)
    as (_ & Hs & Hl & _).
  rewrite Hs, Hl. split; vm_compute; reflexivity.
Defined.

Lemma statics_by_family_witness :
  ∃ c h,
    Load Demo.rt (Parsed Site.router) = Returns (Some (c, h)) None ∧
    Statics4 (Augments_ c) !! "198.51.100.0/24" = Some "192.0.2.1" ∧
    Statics6 (Augments_ c) !! "2001:db8::/32" = Some "2001:db8::1".
Proof.
  destruct router_loads as (c & h & pa & pb & E & _).
  exists c, h. split; [exact E|].
  assert (Hkeys : NoDup (Doc.Statics Site.router).*1).
  { apply (bool_decide_unpack _). vm_compute. exact I. }
  destruct (statics_by_family Demo.rt Site.router c h E Hkeys)
    as (_ & H4 & H6).
  split.
  - apply H4. split; [|vm_compute; reflexivity].
    apply list_elem_of_In. simpl. auto.
  - apply H6. split; [|vm_compute; reflexivity].
    apply list_elem_of_In. simpl. auto.
Defined.

Lemma BFD_instances_checked_witness :
  ∃ c h b,
    Load Demo.rt (Parsed Site.router) = Returns (Some (c, h)) None ∧
    BFDInstances c = [("bfd 1", b)] ∧
    Neighbor b = Some "192.0.2.1" ∧ BFD_ProtocolName b = Some "bfd 1".
Proof.
  destruct router_loads as (c & h & pa & pb & E & _).
  destruct (BFD_instances_checked Demo.rt Site.router c h E) as (HF & _).
  change (Doc.BFDInstances Site.router) with [("bfd 1", Site.bfd)] in HF.
  apply Forall2_cons_inv_l in HF as ([n b] & rest & H & Hrest & Heq).
  apply Forall2_nil_inv_l in Hrest. subst rest.
  destruct H as (Hn & neighbor & Hnb & _ & Hnb' & Hp). simpl in *.
  exists c, h, b. subst n. injection Hnb as <-.
  exact (conj E (conj Heq (conj Hnb' Hp))).
Defined.

Lemma VRRP_instances_resolved_witness :
  ∃ c h v,
    Load Demo.rt (Parsed Site.router) = Returns (Some (c, h)) None ∧
    VRRPInstances c = [("vrrp 1", v)] ∧
    State v = "MASTER" ∧
    VIPs4 v = ["192.0.2.1/32"] ∧ VIPs6 v = ["2001:db8::1/128"].
Proof.
  destruct router_loads as (c & h & pa & pb & E & _).
  destruct (VRRP_instances_resolved Demo.rt Site.router c h E) as (HF & _).
  change (Doc.VRRPInstances Site.router) with [("vrrp 1", Site.vrrp)] in HF.
  apply Forall2_cons_inv_l in HF as ([n v] & rest & H & Hrest & Heq).
  apply Forall2_nil_inv_l in Hrest. subst rest.
  destruct H as (Hn & _ & _ & H4 & H6 & Hst). cbn [fst snd] in *.
  exists c, h, v. subst n. split; [exact E|]. split; [exact Heq|].
  split; [|split].
  - destruct Hst as [[_ ?]|[Hb _]]; [done|discriminate Hb].
  - rewrite H4. vm_compute. reflexivity.
  - rewrite H6. vm_compute. reflexivity.
Defined.

Lemma RTR_server_split_witness :
  ∃ c h port,
    Load Demo.rt (Parsed Site.router) = Returns (Some (c, h)) None ∧
    "rtr.example:8282" = RTRServerHost c +:+ ":" +:+ port ∧
    strconv.Atoi port = Some (RTRServerPort c) ∧
    strings.contains (RTRServerHost c) ":" = false.
Proof.
  destruct router_loads as (c & h & pa & pb & E & _).
  destruct (RTR_server_split Demo.rt Site.router c h E) as (_ & _ & H).
  destruct H as (port & H1 & H2 & H3 & _); [discriminate|].
  exists c, h, port. exact (conj E (conj H1 (conj H2 H3))).
Defined.

(** A peer that leaves [announce-originated] to its template, in a
    document without origin prefixes. *)
Lemma template_announce_originated_forced_witness :
  ∃ c h tm,
    Load Demo.rt (Parsed Site.no_origin) = Returns (Some (c, h)) None ∧
    Demo.template_t !! "announce-originated" = Some (VBool true) ∧
    list_to_map (M := gmap string Peer) (Templates c) !! "t" = Some tm ∧
    deref h tm "AnnounceOriginated" = Some (VBool false).
Proof.
  destruct (loads_with_true Site.no_origin (λ _ _, true))
    as (c & h & E & _); [vm_compute; reflexivity|].
  destruct (template_announce_originated_forced Demo.rt Site.no_origin c h
              0 "d" Site.peer_d "t" Demo.template_t (VBool true) E)
    as (tm & Htm & Hf);
    [reflexivity|vm_compute; reflexivity|discriminate|reflexivity|
     vm_compute; reflexivity|vm_compute; reflexivity|reflexivity|].
  exists c, h, tm. split; [exact E|]. split; [vm_compute; reflexivity|].
  exact (conj Htm Hf).
Defined.

Lemma defaulting_never_fatal_witness :
  match set_default ∅ (field "LocalPref" reflect.Int "local-pref" "100") [] with
  | Fatal _ => False
  | _ => True
  end.
Proof.
  apply (defaulting_never_fatal
           (field "LocalPref" reflect.Int "local-pref" "100") ∅ []).
  in_Peer_type.
Defined.

Lemma Load_fatal_errors_witness :
  load_fatal "[c] has no neighbors defined".
Proof.
  apply (Load_fatal_errors Demo.rt Demo.borrowed_neighbors).
  vm_compute. reflexivity.
Defined.
